(** * A shallow embedding of the SVG editor (Editor.tsx, App.tsx)

    The development follows the TypeScript sources:
    - [JS]     : the JavaScript primitives the editor relies on (string
                 search with the three transform patterns, [parseFloat],
                 [parseInt], number-to-string conversion, 32-bit shifts);
    - [Dom]    : the part of the DOM the editor touches (elements with
                 identity, class lists, attributes, inline style, deep
                 clones, selectors, serialisation);
    - [Editor] : the state and the callbacks of the [Editor] component;
    - [App]    : the generate / refine request cycle of the [App] component.

    Numbers.  JavaScript numbers are IEEE doubles.  The values the editor
    stores and prints (transform components, pivots) are modelled as exact
    decimals [m * 10^-e]; the pointer geometry of a drag is computed in
    exact rationals.  Binary rounding, infinities and the sign of zero are
    not represented. *)

From Stdlib Require Import String Ascii List ZArith NArith QArith Qround Bool Reals Psatz.
Import ListNotations.
Set Warnings "-register-all".
Close Scope R_scope.
Close Scope Q_scope.
Open Scope string_scope.

(* ===================================================================== *)
(** ** JavaScript primitives                                              *)
(* ===================================================================== *)

Module JS.

(** *** Strings *)

Fixpoint stripPrefix (p s : string) : option string :=
  match p, s with
  | "", _ => Some s
  | String a p', String b s' => if Ascii.eqb a b then stripPrefix p' s' else None
  | String _ _, "" => None
  end.

(** [s.startsWith(p)] *)
Definition startsWith (s p : string) : bool :=
  match stripPrefix p s with Some _ => true | None => false end.

(** [s.slice(1)] *)
Definition slice1 (s : string) : string :=
  match s with "" => "" | String _ s' => s' end.

Fixpoint allChars (p : ascii -> bool) (s : string) : bool :=
  match s with
  | "" => true
  | String c s' => p c && allChars p s'
  end.

Fixpoint repeatChar (c : ascii) (n : nat) : string :=
  match n with O => "" | S n' => String c (repeatChar c n') end.

(** *** Character classes of the patterns used by the editor *)

(** [\d] *)
Definition isDigit (c : ascii) : bool :=
  let n := N_of_ascii c in (48 <=? n)%N && (n <=? 57)%N.

(** [[-\d.]] *)
Definition isNumChar (c : ascii) : bool :=
  Ascii.eqb c "-" || isDigit c || Ascii.eqb c ".".

(** [[, ]] *)
Definition isSepChar (c : ascii) : bool :=
  Ascii.eqb c "," || Ascii.eqb c " ".

(** *** A backtracking matcher for the pattern fragment in use

    The three transform patterns are sequences of literals, one-or-more
    repetitions of a character class, and captured repetitions. *)

Inductive item : Type :=
| Lit (s : string)               (* literal text, e.g. [translate\(]     *)
| Plus (cls : ascii -> bool)     (* [[cls]+]                              *)
| Cap (cls : ascii -> bool).     (* [([cls]+)], a capture group           *)

Definition regex := list item.

(** Greedy [+]: consume as many characters as possible, and give
    characters back one at a time when the rest of the pattern fails. *)
Fixpoint plusMatch (cls : ascii -> bool)
    (k : string -> string -> option (list string))
    (taken s : string) : option (list string) :=
  match s with
  | "" => None
  | String c s' =>
      if cls c then
        match plusMatch cls k (taken ++ String c "") s' with
        | Some r => Some r
        | None => k (taken ++ String c "") s'
        end
      else None
  end.

(** Match the pattern at the start of [s]; the result lists the captures. *)
Fixpoint matchHere (re : regex) (caps : list string) (s : string)
  : option (list string) :=
  match re with
  | [] => Some caps
  | Lit p :: re' =>
      match stripPrefix p s with
      | Some s' => matchHere re' caps s'
      | None => None
      end
  | Plus cls :: re' =>
      plusMatch cls (fun _ rest => matchHere re' caps rest) "" s
  | Cap cls :: re' =>
      plusMatch cls (fun tok rest => matchHere re' (caps ++ [tok]) rest) "" s
  end.

(** [s.match(re)] for a pattern without the [g] flag: the leftmost match,
    [None] for JavaScript's [null]. *)
Fixpoint regexMatch (re : regex) (s : string) : option (list string) :=
  match matchHere re [] s with
  | Some caps => Some caps
  | None =>
      match s with
      | "" => None
      | String _ s' => regexMatch re s'
      end
  end.

(** [s.match(/\d+/g)]: every maximal run of digits, left to right
    ([[]] for [null]). *)
Fixpoint matchAllDigits (cur s : string) : list string :=
  match s with
  | "" => match cur with "" => [] | _ => [cur] end
  | String c s' =>
      if isDigit c then matchAllDigits (cur ++ String c "") s'
      else match cur with
           | "" => matchAllDigits "" s'
           | _ => cur :: matchAllDigits "" s'
           end
  end.

(** *** Numbers *)

(** A finite number is the decimal [m * 10^-e]. *)
Inductive number : Type :=
| NaN
| Fin (m : Z) (e : nat).

(** Drop trailing zeros of the fraction, so equal values are equal terms. *)
Fixpoint normalize (m : Z) (e : nat) : number :=
  match e with
  | O => Fin m 0
  | S e' => if (m mod 10 =? 0)%Z then normalize (m / 10) e' else Fin m e
  end.

Definition num_zero : number := Fin 0 0.
Definition num_one : number := Fin 1 0.

(** The value of a finite number as a rational. *)
Definition toQ (m : Z) (e : nat) : Q :=
  (inject_Z m / inject_Z (10 ^ Z.of_nat e))%Q.

(** [a + b] and [a / 2] on decimals; [NaN] is absorbing. *)
Definition numAdd (a b : number) : number :=
  match a, b with
  | Fin m1 e1, Fin m2 e2 =>
      let e := Nat.max e1 e2 in
      normalize (m1 * 10 ^ Z.of_nat (e - e1) + m2 * 10 ^ Z.of_nat (e - e2))%Z e
  | _, _ => NaN
  end.

Definition numHalf (a : number) : number :=
  match a with
  | Fin m e => normalize (5 * m)%Z (S e)
  | NaN => NaN
  end.

(** Intermediate geometry is rational; [None] stands for [NaN]. *)
Definition numToQ (a : number) : option Q :=
  match a with
  | Fin m e => Some (toQ m e)
  | NaN => None
  end.

Definition qlift2 (f : Q -> Q -> Q) (a b : option Q) : option Q :=
  match a, b with
  | Some p, Some q => Some (f p q)
  | _, _ => None
  end.

(** [Math.round(v * 10) / 10]: [Math.round] rounds halves upwards. *)
Definition roundTenth (v : option Q) : number :=
  match v with
  | Some q => normalize (Qfloor (q * inject_Z 10 + (1 # 2))%Q) 1
  | None => NaN
  end.

Definition digitVal (c : ascii) : Z := Z.of_N (N_of_ascii c) - 48.

Fixpoint digitsValue (acc : Z) (s : string) : Z :=
  match s with
  | "" => acc
  | String c s' => digitsValue (10 * acc + digitVal c) s'
  end.

Fixpoint spanDigits (s : string) : string * string :=
  match s with
  | "" => ("", "")
  | String c s' =>
      if isDigit c then let (d, r) := spanDigits s' in (String c d, r)
      else ("", s)
  end.

(** [parseInt(s)] on a string of digits, as produced by [/\d+/g]. *)
Definition parseInt (s : string) : Z := digitsValue 0 (fst (spanDigits s)).

(** [parseFloat(s)]: the longest prefix that reads as a signed decimal
    literal.  The pieces captured by the transform patterns contain only
    ['-'], digits and ['.'], so exponents and leading blanks do not occur. *)
Definition parseFloat (s : string) : number :=
  let '(neg, s1) :=
    match s with
    | String "-" r => (true, r)
    | String "+" r => (false, r)
    | _ => (false, s)
    end in
  let '(ip, s2) := spanDigits s1 in
  let fp := match s2 with String "." r => fst (spanDigits r) | _ => "" end in
  match ip ++ fp with
  | "" => NaN
  | ds => let m := digitsValue 0 ds in
          normalize (if neg then (- m)%Z else m) (String.length fp)
  end.

(** Digits of a natural number in a radix, least significant first. *)
Fixpoint digitsLE (radix : N) (fuel : nat) (n : N) : list N :=
  match fuel with
  | O => []
  | S fuel' =>
      if (n =? 0)%N then []
      else (n mod radix)%N :: digitsLE radix fuel' (n / radix)%N
  end.

Definition digitChar (d : N) : ascii :=
  if (d <? 10)%N then ascii_of_N (48 + d) else ascii_of_N (87 + d).

Definition natToString (radix n : N) : string :=
  if (n =? 0)%N then "0"
  else string_of_list_ascii
         (map digitChar
              (rev (digitsLE radix (S (N.to_nat (N.log2 n))) n))).

(** [v.toString(16)] for an integral value. *)
Definition intToString16 (v : Z) : string :=
  if (v <? 0)%Z then "-" ++ natToString 16 (Z.abs_N v)
  else natToString 16 (Z.abs_N v).

Fixpoint dropTrailingZeros (ds : list ascii) : list ascii :=
  match ds with
  | [] => []
  | c :: r =>
      match dropTrailingZeros r with
      | [] => if Ascii.eqb c "0" then [] else [c]
      | r' => c :: r'
      end
  end.

(** Number::toString (radix 10), the conversion used by template
    literals: plain notation for 1e-6 <= |x| < 1e21, exponent notation
    outside. *)
Definition numToString (x : number) : string :=
  match x with
  | NaN => "NaN"
  | Fin m0 e0 =>
      match normalize m0 e0 with
      | NaN => "NaN"
      | Fin m e =>
          if (m =? 0)%Z then "0"
          else
            let sign := if (m <? 0)%Z then "-" else "" in
            let D := natToString 10 (Z.abs_N m) in
            let s := string_of_list_ascii
                       (dropTrailingZeros (list_ascii_of_string D)) in
            let k := String.length s in
            let n := (Z.of_nat (String.length D) - Z.of_nat e)%Z in
            let body :=
              if ((Z.of_nat k <=? n) && (n <=? 21))%Z then
                s ++ repeatChar "0" (Z.to_nat n - k)
              else if ((0 <? n) && (n <=? 21))%Z then
                substring 0 (Z.to_nat n) s ++ "." ++
                substring (Z.to_nat n) (k - Z.to_nat n) s
              else if ((-6 <? n) && (n <=? 0))%Z then
                "0." ++ repeatChar "0" (Z.to_nat (- n)) ++ s
              else
                let ee := (n - 1)%Z in
                let ex := (if (ee <? 0)%Z then "-" else "+") ++
                          natToString 10 (Z.abs_N ee) in
                if Nat.eqb k 1 then s ++ "e" ++ ex
                else substring 0 1 s ++ "." ++ substring 1 (k - 1) s
                     ++ "e" ++ ex
            in sign ++ body
      end
  end.

(** [s.trim()], on strings of code units below 256: the white space and
    line terminators in that range are the tab, the line feed, the
    vertical tab, the form feed, the carriage return, the space and the
    no-break space. *)
Definition isWhiteSpace (c : ascii) : bool :=
  let n := N_of_ascii c in
  ((9 <=? n)%N && (n <=? 13)%N) || (n =? 32)%N || (n =? 160)%N.

Fixpoint trimStart (s : string) : string :=
  match s with
  | "" => ""
  | String c r => if isWhiteSpace c then trimStart r else s
  end.

Fixpoint trimEnd (s : string) : string :=
  match s with
  | "" => ""
  | String c r =>
      let r' := trimEnd r in
      if isWhiteSpace c && String.eqb r' "" then "" else String c r'
  end.

Definition trim (s : string) : string := trimEnd (trimStart s).

(** [a || b] on numbers: [NaN] and zero are falsy. *)
Definition numOr (a b : number) : number :=
  match a with
  | NaN => b
  | Fin m _ => if (m =? 0)%Z then b else a
  end.

(** ToInt32 and [x << k] on 32-bit integers. *)
Definition toInt32 (z : Z) : Z :=
  let w := (z mod 2 ^ 32)%Z in
  if (w <? 2 ^ 31)%Z then w else (w - 2 ^ 32)%Z.

Definition shl (x k : Z) : Z := toInt32 (toInt32 x * 2 ^ (k mod 32))%Z.

End JS.

Import JS.


(* ===================================================================== *)
(** ** The DOM fragment the editor works on                               *)
(* ===================================================================== *)

Module Dom.

(** An element: [nid] is the identity of the JavaScript object.  The
    [class] and [style] attributes are kept in the form the code reads
    them, as a token list ([classList]) and a declaration list ([style]);
    [text] is the element's own character data. *)
Record elem : Type := mkElem {
  nid : nat;
  tag : string;
  classes : list string;
  attrs : list (string * string);
  style : list (string * string);
  text : string
}.

Inductive node : Type :=
| Node (e : elem) (kids : list node).

Definition el (n : node) : elem := let 'Node e _ := n in e.
Definition children (n : node) : list node := let 'Node _ ks := n in ks.

(** The element and everything below it, in document order. *)
Fixpoint subtrees (n : node) : list node :=
  match n with
  | Node _ kids => n :: flat_map subtrees kids
  end.

Definition descendants (n : node) : list node :=
  flat_map subtrees (children n).

(** Selectors in use: a list of tag names, or one class. *)
Inductive selector : Type :=
| SelTags (ts : list string)
| SelClass (c : string).

Definition hasClass (c : string) (e : elem) : bool :=
  existsb (String.eqb c) (classes e).

Definition matches (sel : selector) (n : node) : bool :=
  match sel with
  | SelTags ts => existsb (String.eqb (tag (el n))) ts
  | SelClass c => hasClass c (el n)
  end.

(** [root.querySelectorAll(sel)]: matching descendants, document order. *)
Definition querySelectorAll (sel : selector) (root : node) : list node :=
  filter (matches sel) (descendants root).

(** [root.querySelector(sel)] *)
Definition querySelector (sel : selector) (root : node) : option node :=
  head (querySelectorAll sel root).

(** In-place update of the element object [i]. *)
Fixpoint updateElem (i : nat) (f : elem -> elem) (n : node) : node :=
  match n with
  | Node e kids =>
      Node (if Nat.eqb (nid e) i then f e else e) (map (updateElem i f) kids)
  end.

(** [el.remove()]: detach the element object [i] from its parent. *)
Fixpoint removeElem (i : nat) (n : node) : node :=
  match n with
  | Node e kids =>
      Node e ((fix go (ks : list node) : list node :=
                 match ks with
                 | [] => []
                 | k :: ks' =>
                     if Nat.eqb (nid (el k)) i then go ks'
                     else removeElem i k :: go ks'
                 end) kids)
  end.

Definition findElem (i : nat) (root : node) : option elem :=
  option_map el (find (fun n => Nat.eqb (nid (el n)) i) (subtrees root)).

(** [el.classList.add(c)] and [el.classList.remove(c)] *)
Definition classListAdd (c : string) (e : elem) : elem :=
  mkElem (nid e) (tag e)
         (if hasClass c e then classes e else classes e ++ [c])
         (attrs e) (style e) (text e).

Definition classListRemove (c : string) (e : elem) : elem :=
  mkElem (nid e) (tag e)
         (filter (fun t => negb (String.eqb c t)) (classes e))
         (attrs e) (style e) (text e).

Fixpoint assocGet (k : string) (l : list (string * string)) : option string :=
  match l with
  | [] => None
  | (k', v) :: l' => if String.eqb k k' then Some v else assocGet k l'
  end.

Fixpoint assocSet (k v : string) (l : list (string * string))
  : list (string * string) :=
  match l with
  | [] => [(k, v)]
  | (k', v') :: l' =>
      if String.eqb k k' then (k, v) :: l' else (k', v') :: assocSet k v l'
  end.

(** [el.getAttribute(name)], [el.setAttribute(name, value)] for the
    attributes other than [class] and [style]. *)
Definition getAttribute (name : string) (e : elem) : option string :=
  assocGet name (attrs e).

Definition setAttribute (name value : string) (e : elem) : elem :=
  mkElem (nid e) (tag e) (classes e) (assocSet name value (attrs e))
         (style e) (text e).

(** [el.style.getPropertyValue(name)] (empty when not declared) and
    [el.style.setProperty(name, value)]. *)
Definition getPropertyValue (name : string) (e : elem) : string :=
  match assocGet name (style e) with Some v => v | None => "" end.

Definition setProperty (name value : string) (e : elem) : elem :=
  mkElem (nid e) (tag e) (classes e) (attrs e)
         (assocSet name value (style e)) (text e).

(** The value of a presentation property as the cascade resolves it
    between the two places the editor writes: an inline style
    declaration wins over the presentation attribute. *)
Definition resolved (name : string) (e : elem) : option string :=
  let v := getPropertyValue name e in
  if String.eqb v "" then getAttribute name e else Some v.

(** [n.cloneNode(true)]: a deep copy; the copy is a separate tree. *)
Definition cloneNode (n : node) : node := n.

(** [new XMLSerializer().serializeToString(n)] (character escaping left
    out). *)
Definition dquote : string := String (ascii_of_nat 34) "".

Definition showAttr (kv : string * string) : string :=
  " " ++ fst kv ++ "=" ++ dquote ++ snd kv ++ dquote.

Definition showDecl (kv : string * string) : string :=
  fst kv ++ ": " ++ snd kv ++ ";".

Fixpoint serializeToString (n : node) : string :=
  match n with
  | Node e kids =>
      "<" ++ tag e
      ++ match classes e with
         | [] => ""
         | cs => showAttr ("class", String.concat " " cs)
         end
      ++ String.concat "" (map showAttr (attrs e))
      ++ match style e with
         | [] => ""
         | ds => showAttr ("style", String.concat " " (map showDecl ds))
         end
      ++ ">" ++ text e
      ++ String.concat "" (map serializeToString kids)
      ++ "</" ++ tag e ++ ">"
  end.

(** The element object [i] with what is below it, as found from [root]. *)
Definition findNode (i : nat) (root : node) : option node :=
  find (fun n => Nat.eqb (nid (el n)) i) (subtrees root).

(** In-place update of the element object [i] together with its
    children. *)
Fixpoint updateNode (i : nat) (f : node -> node) (n : node) : node :=
  match n with
  | Node e kids =>
      if Nat.eqb (nid e) i then f n else Node e (map (updateNode i f) kids)
  end.

(** [el.textContent], read: the character data of the element and of
    everything below it, in document order. *)
Fixpoint textContent (n : node) : string :=
  match n with
  | Node e kids => text e ++ String.concat "" (map textContent kids)
  end.

(** [el.textContent = value]: the children are removed, the element is
    left with the character data [value]. *)
Definition setText (value : string) (e : elem) : elem :=
  mkElem (nid e) (tag e) (classes e) (attrs e) (style e) value.

Definition setTextContent (value : string) (n : node) : node :=
  Node (setText value (el n)) [].

(** The elements from [root] down to the element object [i], [root]
    first; empty when [i] is not in the tree. *)
Fixpoint pathTo (i : nat) (n : node) : list node :=
  match n with
  | Node e kids =>
      if Nat.eqb (nid e) i then [n]
      else
        match fold_right (fun k rest =>
                            match pathTo i k with [] => rest | p => p end)
                         [] kids with
        | [] => []
        | p => n :: p
        end
  end.

(** [el.closest(sel)] for the element object [i] of the tree [root]:
    the nearest of the element and its ancestors that matches. *)
Definition closest (sel : selector) (i : nat) (root : node) : option node :=
  find (matches sel) (rev (pathTo i root)).

(** [root.contains(el)] for the element object [i]. *)
Definition contains (root : node) (i : nat) : bool :=
  existsb (fun m => Nat.eqb (nid (el m)) i) (subtrees root).

(** [el.getBBox()] result and the matrix of [svg.getScreenCTM()]. *)
Record DOMRect : Type := mkRect {
  x : number; y : number; width : number; height : number
}.

(** The affine map [(u, v) |-> (a u + c v + e, b u + d v + f)]. *)
Record DOMMatrix : Type := mkMatrix {
  a : Q; b : Q; c : Q; d : Q; e : Q; f : Q
}.

(** [m.inverse()]; [None] stands for the matrix of [NaN]s a singular
    matrix yields. *)
Definition inverse (m : DOMMatrix) : option DOMMatrix :=
  let det := (a m * d m - b m * c m)%Q in
  if Qeq_bool det 0 then None
  else Some (mkMatrix (d m / det) (- b m / det) (- c m / det) (a m / det)
                      ((c m * f m - d m * e m) / det)
                      ((b m * e m - a m * f m) / det))%Q.

(** [pt.matrixTransform(m)] for the point [(px, py)]. *)
Definition matrixTransform (px py : Q) (m : option DOMMatrix)
  : option Q * option Q :=
  match m with
  | Some m => (Some (a m * px + c m * py + e m)%Q,
               Some (b m * px + d m * py + f m)%Q)
  | None => (None, None)
  end.

End Dom.

(* ===================================================================== *)
(** ** The Editor component                                               *)
(* ===================================================================== *)

Module Editor.
Import Dom.

Record TransformState : Type := mkTransform {
  x : number; y : number; scale : number; rotate : number
}.

Record DragStart : Type := mkDragStart {
  startX : Q; startY : Q; initialX : number; initialY : number
}.

(** What the browser answers when asked: [getBBox] of an element
    ([None] when the call throws), and [getScreenCTM] of the svg root. *)
Record Browser : Type := mkBrowser {
  getBBox : nat -> option DOMRect;
  getScreenCTM : option DOMMatrix
}.

(** The component state.  [containerRef] is the container [div] with the
    live document fragment below it; [detached] holds the trees that are
    not part of the document (clones); elements are referred to by their
    identity. *)
Record state : Type := mkState {
  containerRef : option node;
  detached : list node;
  isEditing : bool;
  selectedEl : option nat;
  updateTrigger : nat;
  layers : list nat;
  transform : TransformState;
  isDragging : bool;
  dragStartRef : option DragStart
}.

Definition setContainer (c : option node) (s : state) : state :=
  mkState c (detached s) (isEditing s) (selectedEl s) (updateTrigger s)
          (layers s) (transform s) (isDragging s) (dragStartRef s).
Definition setDetached (l : list node) (s : state) : state :=
  mkState (containerRef s) l (isEditing s) (selectedEl s) (updateTrigger s)
          (layers s) (transform s) (isDragging s) (dragStartRef s).
Definition setSelectedEl (i : option nat) (s : state) : state :=
  mkState (containerRef s) (detached s) (isEditing s) i (updateTrigger s)
          (layers s) (transform s) (isDragging s) (dragStartRef s).
Definition bumpUpdateTrigger (s : state) : state :=
  mkState (containerRef s) (detached s) (isEditing s) (selectedEl s)
          (S (updateTrigger s)) (layers s) (transform s) (isDragging s)
          (dragStartRef s).
Definition setLayers (l : list nat) (s : state) : state :=
  mkState (containerRef s) (detached s) (isEditing s) (selectedEl s)
          (updateTrigger s) l (transform s) (isDragging s) (dragStartRef s).
Definition setTransform (t : TransformState) (s : state) : state :=
  mkState (containerRef s) (detached s) (isEditing s) (selectedEl s)
          (updateTrigger s) (layers s) t (isDragging s) (dragStartRef s).
Definition setIsDragging (v : bool) (s : state) : state :=
  mkState (containerRef s) (detached s) (isEditing s) (selectedEl s)
          (updateTrigger s) (layers s) (transform s) v (dragStartRef s).
Definition setDragStart (v : option DragStart) (s : state) : state :=
  mkState (containerRef s) (detached s) (isEditing s) (selectedEl s)
          (updateTrigger s) (layers s) (transform s) (isDragging s) v.

(** Mutation of the element object [i] of the live document. *)
Definition mutateLive (i : nat) (g : elem -> elem) (s : state) : state :=
  setContainer (option_map (updateElem i g) (containerRef s)) s.

(** Mutation of the element object [i] of the [k]-th detached tree. *)
Fixpoint updateNth {A : Type} (k : nat) (g : A -> A) (l : list A) : list A :=
  match l, k with
  | [], _ => []
  | v :: l', O => g v :: l'
  | v :: l', S k' => v :: updateNth k' g l'
  end.

Definition mutateDetached (k i : nat) (g : elem -> elem) (s : state) : state :=
  setDetached (updateNth k (updateElem i g) (detached s)) s.

Definition marker : string := "svg-selected".

Definition shapeTags : list string :=
  ["path"; "rect"; "circle"; "ellipse"; "line"; "polyline"; "polygon";
   "text"; "g"].

(** [rgbToHex]: colour strings to hex for the colour inputs. *)
Definition rgbToHex (col : string) : string :=
  if String.eqb col "" || String.eqb col "none" || String.eqb col "transparent"
  then "#ffffff"
  else if startsWith col "#" then col
  else
    match matchAllDigits "" col with
    | rs :: gs :: bs :: _ =>
        let r := parseInt rs in
        let g := parseInt gs in
        let b := parseInt bs in
        "#" ++ slice1 (intToString16 (shl 1 24 + shl r 16 + shl g 8 + b)%Z)
    | _ => "#000000"
    end.

(** [scanLayers] *)
Definition scanLayers (s : state) : state :=
  match containerRef s with
  | None => s
  | Some c =>
      match querySelector (SelTags ["svg"]) c with
      | None => setLayers [] s
      | Some svg =>
          setLayers (map (fun n => nid (el n))
                         (querySelectorAll (SelTags shapeTags) svg)) s
      end
  end.

(** The three patterns of the selection effect. *)
Definition translateRe : regex :=
  [Lit "translate("; Cap isNumChar; Plus isSepChar; Cap isNumChar; Lit ")"].
Definition rotateRe : regex := [Lit "rotate("; Cap isNumChar].
Definition scaleRe : regex := [Lit "scale("; Cap isNumChar; Lit ")"].

(** [m[i]] of a successful match; the whole match is [m[0]], the
    captures start at 1. *)
Definition group (caps : list string) (i : nat) : string :=
  nth (i - 1) caps "".

(** The body of the effect that runs when [selectedEl] changes. *)
Definition parseTransform (transformStr : string) : TransformState :=
  let translateMatch := regexMatch translateRe transformStr in
  let rotateMatch := regexMatch rotateRe transformStr in
  let scaleMatch := regexMatch scaleRe transformStr in
  {| x := match translateMatch with
          | Some m => parseFloat (group m 1) | None => num_zero end;
     y := match translateMatch with
          | Some m => parseFloat (group m 2) | None => num_zero end;
     rotate := match rotateMatch with
               | Some m => parseFloat (group m 1) | None => num_zero end;
     scale := match scaleMatch with
              | Some m => parseFloat (group m 1) | None => num_one end |}.

Definition transformAttr (i : nat) (s : state) : string :=
  match containerRef s with
  | Some c =>
      match findElem i c with
      | Some e => match getAttribute "transform" e with
                  | Some v => v | None => "" end
      | None => ""
      end
  | None => ""
  end.

Definition selectionEffect (s : state) : state :=
  match selectedEl s with
  | Some i => setTransform (parseTransform (transformAttr i s)) s
  | None => s
  end.

(** The pivot [applyTransform] computes: the centre of the bounding box,
    [(0, 0)] when [getBBox] throws. *)
Definition pivot (br : Browser) (i : nat) : number * number :=
  match getBBox br i with
  | Some bbox =>
      (numAdd (Dom.x bbox) (numHalf (width bbox)),
       numAdd (Dom.y bbox) (numHalf (height bbox)))
  | None => (num_zero, num_zero)
  end.

Definition transformString (newState : TransformState) (cx cy : number)
  : string :=
  "translate(" ++ numToString (x newState) ++ ", "
  ++ numToString (y newState) ++ ") rotate("
  ++ numToString (rotate newState) ++ ", " ++ numToString cx ++ ", "
  ++ numToString cy ++ ") scale(" ++ numToString (scale newState) ++ ")".

(** [applyTransform] *)
Definition applyTransform (br : Browser) (newState : TransformState)
    (s : state) : state :=
  match selectedEl s with
  | None => s
  | Some i =>
      let '(cx, cy) := pivot br i in
      let t := transformString newState cx cy in
      bumpUpdateTrigger
        (setTransform newState
           (mutateLive i (setAttribute "transform" t) s))
  end.

(** [handleWindowMouseMove], for a pointer at [(clientX, clientY)]. *)
Definition handleWindowMouseMove (br : Browser) (clientX clientY : Q)
    (s : state) : state :=
  match isDragging s, selectedEl s, dragStartRef s, containerRef s with
  | true, Some _, Some ds, Some c =>
      match querySelector (SelTags ["svg"]) c with
      | None => s
      | Some _ =>
          match getScreenCTM br with
          | None => s
          | Some ctm =>
              let inverseCtm := inverse ctm in
              let loc := matrixTransform clientX clientY inverseCtm in
              let startLoc :=
                matrixTransform (startX ds) (startY ds) inverseCtm in
              let dx := qlift2 Qminus (fst loc) (fst startLoc) in
              let dy := qlift2 Qminus (snd loc) (snd startLoc) in
              let newX := qlift2 Qplus (numToQ (initialX ds)) dx in
              let newY := qlift2 Qplus (numToQ (initialY ds)) dy in
              applyTransform br
                (mkTransform (roundTenth newX) (roundTenth newY)
                             (scale (transform s)) (rotate (transform s)))
                s
          end
      end
  | _, _, _, _ => s
  end.

(** [handleWindowMouseUp] *)
Definition handleWindowMouseUp (s : state) : state :=
  setDragStart None (setIsDragging false s).

(** [selectElement], one statement at a time: the loop that clears the
    marker, the marking of the new element, and the state updates. *)
Definition clearTargets (s : state) : list nat :=
  match containerRef s with
  | Some c => map (fun n => nid (el n)) (querySelectorAll (SelClass marker) c)
  | None => []
  end.

Definition clearMarker (s : state) (i : nat) : state :=
  mutateLive i (classListRemove marker) s.

Definition clearSelection (s : state) : state :=
  fold_left clearMarker (clearTargets s) s.

Definition selectElement (element : option nat) (s : state) : state :=
  match containerRef s with
  | None => s
  | Some _ =>
      let s1 := clearSelection s in
      match element with
      | Some i =>
          bumpUpdateTrigger
            (setSelectedEl (Some i) (mutateLive i (classListAdd marker) s1))
      | None => setSelectedEl None s1
      end
  end.

(** Every DOM state [selectElement] goes through, in order: after each
    removal of the loop, then after the marker is applied. *)
Fixpoint scanl {A B : Type} (g : A -> B -> A) (l : list B) (acc : A)
  : list A :=
  match l with
  | [] => []
  | v :: l' => g acc v :: scanl g l' (g acc v)
  end.

Definition selectElementTrace (element : option nat) (s : state)
  : list state :=
  match containerRef s with
  | None => []
  | Some _ =>
      scanl clearMarker (clearTargets s) s
      ++ match element with
         | Some i => [mutateLive i (classListAdd marker) (clearSelection s)]
         | None => []
         end
  end.

(** [handleMouseDown].  [element] is the shape found from the event
    target ([target.closest(...)], inside the container and not the svg
    root), [inContainer] tells whether the target is inside
    [.svg-container]. *)
Definition handleMouseDown (element : option nat) (inContainer : bool)
    (clientX clientY : Q) (s : state) : state :=
  if negb (isEditing s) then s
  else
    match element with
    | Some i =>
        if match selectedEl s with
           | Some j => Nat.eqb i j | None => false end
        then
          setDragStart
            (Some (mkDragStart clientX clientY (x (transform s))
                               (y (transform s))))
            (setIsDragging true s)
        else selectElement (Some i) s
    | None => if inContainer then selectElement None s else s
    end.

(** The [mousedown] listener of the container, for an event whose target
    is the element object [target] of the container's tree: the element
    looked for is the nearest shape at or above the target.  The
    container's own ancestors are the [div]s of the page, which neither
    selector matches. *)
Definition onMouseDown (target : nat) (clientX clientY : Q) (s : state)
  : state :=
  match containerRef s with
  | None => s
  | Some container =>
      let element :=
        match closest (SelTags shapeTags) target container with
        | Some n =>
            if contains container (nid (el n))
               && negb (String.eqb (tag (el n)) "svg")
            then Some (nid (el n))
            else None
        | None => None
        end in
      let inContainer :=
        match closest (SelClass "svg-container") target container with
        | Some _ => true
        | None => false
        end in
      handleMouseDown element inContainer clientX clientY s
  end.

(** [getSvgContent]: the clone is a detached tree of its own, and the
    marker is removed from the elements found in the clone. *)
Definition getSvgContent (s : state) : string * state :=
  match containerRef s with
  | None => ("", s)
  | Some c =>
      match querySelector (SelTags ["svg"]) c with
      | None => ("", s)
      | Some svg =>
          let k := List.length (detached s) in
          let s1 := setDetached (detached s ++ [cloneNode svg]) s in
          let targets :=
            map (fun n => nid (el n))
                (querySelectorAll (SelClass marker) (cloneNode svg)) in
          let s2 :=
            fold_left
              (fun st i => mutateDetached k i (classListRemove marker) st)
              targets s1 in
          (match nth_error (detached s2) k with
           | Some clone => serializeToString clone
           | None => ""
           end, s2)
      end
  end.

(** Either branch of [updateAttribute] on the element: set the
    attribute, and the style property of the same name when the inline
    style declares it. *)
Definition writeAttr (attr v : string) (e : elem) : elem :=
  let e1 := setAttribute attr v e in
  if String.eqb (getPropertyValue attr e1) "" then e1
  else setProperty attr v e1.

(** [updateAttribute]; [None] is JavaScript's [null]. *)
Definition updateAttribute (attr : string) (value : option string)
    (s : state) : state :=
  match selectedEl s with
  | None => s
  | Some i =>
      let isNone :=
        match value with
        | None => true
        | Some v => String.eqb v "none"
        end in
      let s1 :=
        if isNone then mutateLive i (writeAttr attr "none") s
        else mutateLive i (writeAttr attr (match value with
                                           | Some v => v
                                           | None => "none" end)) s in
      setLayers (layers s1) (bumpUpdateTrigger s1)
  end.

(** [handleDeleteElement] *)
Definition handleDeleteElement (s : state) : state :=
  match selectedEl s with
  | Some i =>
      scanLayers
        (setSelectedEl None
           (setContainer (option_map (removeElem i) (containerRef s)) s))
  | None => s
  end.

(** The handlers that pass the serialised document on.  [handleDownload]
    answers the file offered for download (name, MIME type, content),
    [handleCopyCode] the text written to the clipboard and the value
    the [copied] flag is set to (a timer lowers the flag two seconds
    later); both do nothing when [getSvgContent] answers the empty
    string.  [dataId] is [data.id]. *)
Definition handleDownload (dataId : string) (s : state)
  : option (string * string * string) * state :=
  let (content, s1) := getSvgContent s in
  if String.eqb content "" then (None, s1)
  else (Some ("vectorcraft-edit-" ++ substring 0 6 dataId ++ ".svg",
              "image/svg+xml", content), s1).

Definition handleCopyCode (s : state) : option (string * bool) * state :=
  let (content, s1) := getSvgContent s in
  if String.eqb content "" then (None, s1) else (Some (content, true), s1).

(** The handlers that call back into the parent component.  The props
    [onSave], [onBack] and [onRefine] act on the parent's state [A];
    [isRefining] is the prop of that name, [refinePrompt] the text of
    the refinement field. *)
Section Props.
Context {A : Type}.
Variable onSave : string -> A -> A.
Variable onBack : A -> A.
Variable onRefine : string -> string -> A -> A.

Definition handleManualSave (s : state) (parent : A) : state * A :=
  let (content, s1) := getSvgContent s in
  if String.eqb content "" then (s1, parent) else (s1, onSave content parent).

Definition handleBackWithSave (s : state) (parent : A) : state * A :=
  let (content, s1) := getSvgContent s in
  (s1, onBack (if String.eqb content "" then parent
               else onSave content parent)).

Definition handleRefineSubmit (refinePrompt : string) (isRefining : bool)
    (s : state) (parent : A) : state * A :=
  if String.eqb (trim refinePrompt) "" || isRefining then (s, parent)
  else
    let (currentContent, s1) := getSvgContent s in
    if String.eqb currentContent "" then (s1, parent)
    else (s1, onRefine currentContent refinePrompt parent).
End Props.

(** The stroke width shown by the slider:
    [parseFloat(currentStrokeWidth) || 0]. *)
Definition strokeWidthNum (currentStrokeWidth : string) : number :=
  numOr (parseFloat currentStrokeWidth) num_zero.

(** The text field of the properties panel: rendered for a selected
    [text] or [tspan] element, with the value
    [selectedEl.textContent || ''] ([None]: not rendered). *)
Definition textField (s : state) : option string :=
  match selectedEl s with
  | None => None
  | Some i =>
      match containerRef s with
      | None => None
      | Some c =>
          match findNode i c with
          | None => None
          | Some n =>
              if String.eqb (tag (el n)) "text"
                 || String.eqb (tag (el n)) "tspan"
              then Some (textContent n)
              else None
          end
      end
  end.

(** The [onChange] handler of the text field, called with
    [e.target.value]. *)
Definition onTextChange (value : string) (s : state) : state :=
  match textField s, selectedEl s with
  | Some _, Some i =>
      scanLayers
        (bumpUpdateTrigger
           (setContainer
              (option_map (updateNode i (setTextContent value))
                          (containerRef s)) s))
  | _, _ => s
  end.

End Editor.

(* ===================================================================== *)
(** ** The App component: generation and refinement requests              *)
(* ===================================================================== *)

Module App.

Inductive GenerationStatus : Type := IDLE | LOADING | SUCCESS | ERROR.

Record GeneratedSvg : Type := mkSvg {
  id : string; content : string; prompt : string; timestamp : Z
}.

Record ApiError : Type := mkError { message : string; details : string }.

Inductive View : Type := home | editor.

Record state : Type := mkState {
  status : GenerationStatus;
  currentSvg : option GeneratedSvg;
  error : option ApiError;
  isRefining : bool;
  view : View
}.

(** How an awaited request ends: with the markup, or by throwing an
    error whose [message] may be empty. *)
Inductive outcome : Type :=
| Resolved (markup : string)
| Rejected (errMessage : string).

(** [a || b] on strings. *)
Definition orElse (a b : string) : string :=
  if String.eqb a "" then b else a.

(** [handleGenerate], up to the [await] ... *)
Definition handleGenerateStart (s : state) : state :=
  mkState LOADING None None (isRefining s) (view s).

(** ... and from the [await] on; [uuid] and [now] are the results of
    [crypto.randomUUID()] and [Date.now()]. *)
Definition handleGenerateSettle (promptText : string) (r : outcome)
    (uuid : string) (now : Z) (s : state) : state :=
  match r with
  | Resolved svgContent =>
      mkState SUCCESS (Some (mkSvg uuid svgContent promptText now))
              (error s) (isRefining s) home
  | Rejected msg =>
      mkState ERROR (currentSvg s)
              (Some (mkError "Generation Failed"
                       (orElse msg
                          "An unexpected error occurred while contacting Gemini.")))
              (isRefining s) (view s)
  end.

Definition handleGenerate (promptText : string) (r : outcome)
    (uuid : string) (now : Z) (s : state) : state :=
  handleGenerateSettle promptText r uuid now (handleGenerateStart s).

(** [handleRefine], likewise in two parts. *)
Definition handleRefineStart (s : state) : state :=
  mkState (status s) (currentSvg s) None true (view s).

Definition handleRefineSettle (instruction : string) (r : outcome)
    (uuid : string) (now : Z) (s : state) : state :=
  let s1 :=
    match r with
    | Resolved refinedContent =>
        mkState SUCCESS (Some (mkSvg uuid refinedContent instruction now))
                (error s) (isRefining s) (view s)
    | Rejected msg =>
        mkState (status s) (currentSvg s)
                (Some (mkError "Refinement Failed"
                         (orElse msg "Could not refine the SVG.")))
                (isRefining s) (view s)
    end in
  mkState (status s1) (currentSvg s1) (error s1) false (view s1).

Definition handleRefine (currentContent instruction : string) (r : outcome)
    (uuid : string) (now : Z) (s : state) : state :=
  match currentSvg s with
  | None => s
  | Some _ => handleRefineSettle instruction r uuid now (handleRefineStart s)
  end.

(** [handleSave] *)
Definition handleSave (newContent : string) (s : state) : state :=
  match currentSvg s with
  | Some cur =>
      mkState (status s)
              (Some (mkSvg (id cur) newContent (prompt cur) (timestamp cur)))
              (error s) (isRefining s) (view s)
  | None => s
  end.

(** What the render function shows: the error banner (title, detail),
    and the artifact handed to the editor. *)
Definition errorBanner (s : state) : option (string * string) :=
  match view s with
  | home =>
      match status s, error s, currentSvg s with
      | ERROR, Some er, None => Some (message er, details er)
      | _, _, _ => None
      end
  | editor =>
      match currentSvg s, error s with
      | Some _, Some er => Some (message er, details er)
      | _, _ => None
      end
  end.

Definition editorData (s : state) : option GeneratedSvg :=
  match view s with
  | editor => currentSvg s
  | home => None
  end.

(** The part of [handleRefine] that runs before the [await]. *)
Definition handleRefineBegin (s : state) : state :=
  match currentSvg s with
  | None => s
  | Some _ => handleRefineStart s
  end.

(** [setView] *)
Definition setView (v : View) (s : state) : state :=
  mkState (status s) (currentSvg s) (error s) (isRefining s) v.

(** What the home view shows below the input: the preview
    ([status === SUCCESS && currentSvg]) and the placeholder
    ([status === IDLE]). *)
Definition previewData (s : state) : option GeneratedSvg :=
  match view s, status s with
  | home, SUCCESS => currentSvg s
  | _, _ => None
  end.

Definition placeholderShown (s : state) : bool :=
  match view s, status s with
  | home, IDLE => true
  | _, _ => false
  end.

End App.

(* ===================================================================== *)
(** ** The two components together                                        *)
(* ===================================================================== *)

(** The events of a session, as the render function of [App] wires
    them: [InputSection] (and with it [handleGenerate]) is there on the
    home view; the preview with its edit button when the home view shows
    the artifact; the [Editor] with its save, back and refine handlers
    on the editor view when there is an artifact.  A request that was
    sent settles at some later time. *)
Module Session.

Record state : Type := mkSession {
  app : App.state;
  pendingGenerate : nat;
  pendingRefine : nat
}.

Definition initial : state :=
  mkSession (App.mkState App.IDLE None None false App.home) 0 0.

(** [onRefine] as the editor sees it: [handleRefine] up to its [await]. *)
Definition onRefine (currentContent instruction : string) (s : state)
  : state :=
  match App.currentSvg (app s) with
  | None => s
  | Some _ =>
      mkSession (App.handleRefineBegin (app s)) (pendingGenerate s)
                (S (pendingRefine s))
  end.

Definition onSave (content : string) (s : state) : state :=
  mkSession (App.handleSave content (app s)) (pendingGenerate s)
            (pendingRefine s).

Definition onBack (s : state) : state :=
  mkSession (App.setView App.home (app s)) (pendingGenerate s)
            (pendingRefine s).

Inductive event : Type :=
| Generate
| GenerateSettles (promptText : string) (r : App.outcome) (uuid : string)
                  (now : Z)
| OpenEditor
| ManualSave (ed : Editor.state)
| BackWithSave (ed : Editor.state)
| RefineSubmit (refinePrompt : string) (ed : Editor.state)
| RefineSettles (instruction : string) (r : App.outcome) (uuid : string)
                (now : Z).

Definition editorShown (s : state) : bool :=
  match App.editorData (app s) with Some _ => true | None => false end.

Definition enabled (ev : event) (s : state) : bool :=
  match ev with
  | Generate =>
      match App.view (app s) with App.home => true | App.editor => false end
  | GenerateSettles _ _ _ _ => negb (Nat.eqb (pendingGenerate s) 0)
  | OpenEditor =>
      match App.previewData (app s) with Some _ => true | None => false end
  | ManualSave _ | BackWithSave _ | RefineSubmit _ _ => editorShown s
  | RefineSettles _ _ _ _ => negb (Nat.eqb (pendingRefine s) 0)
  end.

Definition fire (ev : event) (s : state) : state :=
  match ev with
  | Generate =>
      mkSession (App.handleGenerateStart (app s)) (S (pendingGenerate s))
                (pendingRefine s)
  | GenerateSettles p r uuid now =>
      mkSession (App.handleGenerateSettle p r uuid now (app s))
                (pendingGenerate s - 1) (pendingRefine s)
  | OpenEditor =>
      mkSession (App.setView App.editor (app s)) (pendingGenerate s)
                (pendingRefine s)
  | ManualSave ed => snd (Editor.handleManualSave onSave ed s)
  | BackWithSave ed => snd (Editor.handleBackWithSave onSave onBack ed s)
  | RefineSubmit p ed =>
      snd (Editor.handleRefineSubmit onRefine p (App.isRefining (app s)) ed s)
  | RefineSettles i r uuid now =>
      mkSession (App.handleRefineSettle i r uuid now (app s))
                (pendingGenerate s) (pendingRefine s - 1)
  end.

(** The states a session can be in. *)
Inductive reachable : state -> Prop :=
| reach_initial : reachable initial
| reach_fire : forall ev s,
    reachable s -> enabled ev s = true -> reachable (fire ev s).

End Session.

(* ===================================================================== *)
(** ** The meaning of a transform attribute                               *)
(* ===================================================================== *)

(** What the renderer makes of a [transform] attribute: the product of
    the matrices of its functions, left to right (SVG 1.1, section 7.6).
    This is the yardstick for "the same effective transform"; it is not
    part of the editor. *)
Module Svg.

(** A transform function with arguments of type [A]: the pieces of text
    of an attribute as it stands, or the numbers the editor prints. *)
Inductive tfunc (A : Type) : Type :=
| Translate (tx : A) (ty : option A)
| Rotate (angle : A) (pivot : option (A * A))
| Scale (sx : A) (sy : option A).

Arguments Translate {A} tx ty.
Arguments Rotate {A} angle pivot.
Arguments Scale {A} sx sy.

Section Show.
Context {A : Type} (sh : A -> string) (sep : string).

Definition showFunc (fn : tfunc A) : string :=
  match fn with
  | Translate tx None => "translate(" ++ sh tx ++ ")"
  | Translate tx (Some ty) => "translate(" ++ sh tx ++ sep ++ sh ty ++ ")"
  | Rotate an None => "rotate(" ++ sh an ++ ")"
  | Rotate an (Some (cx, cy)) =>
      "rotate(" ++ sh an ++ sep ++ sh cx ++ sep ++ sh cy ++ ")"
  | Scale sx None => "scale(" ++ sh sx ++ ")"
  | Scale sx (Some sy) => "scale(" ++ sh sx ++ sep ++ sh sy ++ ")"
  end.

Fixpoint showList (l : list (tfunc A)) : string :=
  match l with
  | [] => ""
  | fn :: l' =>
      match l' with
      | [] => showFunc fn
      | _ => showFunc fn ++ " " ++ showList l'
      end
  end.
End Show.

(** A number written the way the attribute grammar wants it: an optional
    minus sign, digits, and an optional fraction. *)
Definition wfToken (s : string) : bool :=
  let s1 := match s with String "-" r => r | _ => s end in
  let '(ip, r) := spanDigits s1 in
  match r with
  | "" => negb (String.eqb ip "")
  | String "." fr => allChars isDigit fr && negb (String.eqb fr "")
  | _ => false
  end.

Record affine : Type := mkAffine {
  ma : R; mb : R; mc : R; md : R; me : R; mf : R
}.

(** [compose m n] applies [n] first, then [m]. *)
Definition compose (m n : affine) : affine :=
  mkAffine (ma m * ma n + mc m * mb n) (mb m * ma n + md m * mb n)
           (ma m * mc n + mc m * md n) (mb m * mc n + md m * md n)
           (ma m * me n + mc m * mf n + me m)
           (mb m * me n + md m * mf n + mf m)%R.

Definition identity : affine := mkAffine 1 0 0 1 0 0.
Definition mTranslate (tx ty : R) : affine := mkAffine 1 0 0 1 tx ty.
Definition mScale (sx sy : R) : affine := mkAffine sx 0 0 sy 0 0.
Definition mRotate (deg : R) : affine :=
  let t := (deg * PI / 180)%R in
  mkAffine (cos t) (sin t) (- sin t) (cos t) 0 0.
Definition mRotateAbout (deg cx cy : R) : affine :=
  compose (mTranslate cx cy) (compose (mRotate deg) (mTranslate (- cx) (- cy))).

Definition numToR (v : number) : option R :=
  match v with
  | Fin m e => Some (IZR m / IZR (10 ^ Z.of_nat e))%R
  | NaN => None
  end.

Section Denote.
Context {A : Type} (val : A -> option R).

Definition valOr (dflt : option R) (v : option A) : option R :=
  match v with Some t => val t | None => dflt end.

Definition denoteFunc (fn : tfunc A) : option affine :=
  match fn with
  | Translate tx ty =>
      match val tx, valOr (Some 0%R) ty with
      | Some u, Some v => Some (mTranslate u v)
      | _, _ => None
      end
  | Rotate an None => option_map mRotate (val an)
  | Rotate an (Some (cx, cy)) =>
      match val an, val cx, val cy with
      | Some t, Some u, Some v => Some (mRotateAbout t u v)
      | _, _, _ => None
      end
  | Scale sx sy =>
      match val sx, valOr (val sx) sy with
      | Some u, Some v => Some (mScale u v)
      | _, _ => None
      end
  end.

(** [None] when some argument is not a number: the attribute is in
    error. *)
Fixpoint denote (l : list (tfunc A)) : option affine :=
  match l with
  | [] => Some identity
  | fn :: l' =>
      match denoteFunc fn, denote l' with
      | Some m, Some n => Some (compose m n)
      | _, _ => None
      end
  end.
End Denote.

(** The attribute as it stands: arguments are pieces of text, read as
    numbers when they are well formed. *)
Definition tokenValue (t : string) : option R :=
  if wfToken t then numToR (parseFloat t) else None.

Definition effective (l : list (tfunc string)) : option affine :=
  denote tokenValue l.

(** At most one translate, one rotate about a pivot and one scale, in
    this order. *)
Definition inOrder (tr : option (string * string))
    (ro : option (string * (string * string))) (sc : option string)
  : list (tfunc string) :=
  (match tr with Some (tx, ty) => [Translate tx (Some ty)] | None => [] end)
  ++ (match ro with Some (an, pv) => [Rotate an (Some pv)] | None => [] end)
  ++ (match sc with Some sx => [Scale sx None] | None => [] end).

Definition finite (v : number) : bool :=
  match v with Fin _ _ => true | NaN => false end.

(** The attribute the editor writes: arguments are numbers. *)
Definition written (st : Editor.TransformState) (cx cy : number)
  : list (tfunc number) :=
  [Translate (Editor.x st) (Some (Editor.y st));
   Rotate (Editor.rotate st) (Some (cx, cy));
   Scale (Editor.scale st) None].

End Svg.

(* ===================================================================== *)
(** ** Vocabulary of the statements                                       *)
(* ===================================================================== *)

Module Colour.

(** Two hex digits of a byte, and its decimal text. *)
Definition hex2 (v : N) : string :=
  String (digitChar (v / 16)) (String (digitChar (v mod 16)) "").
Definition dec (v : N) : string := natToString 10 v.

(** The functional notation as computed styles print it:
    [rgb(r, g, b)] or [rgba(r, g, b, ...]. *)
Definition rgbText (alpha : bool) (r g b : N) (tail : string) : string :=
  (if alpha then "rgba(" else "rgb(")
  ++ dec r ++ ", " ++ dec g ++ ", " ++ dec b ++ tail.

(** The inputs the first test of [rgbToHex] catches. *)
Definition sentinel (col : string) : bool :=
  String.eqb col "" || String.eqb col "none" || String.eqb col "transparent".

(** The facts about a byte value that the conversion relies on. *)
Definition byteCheck (n : nat) : bool :=
  let v := N.of_nat n in
  allChars isDigit (dec v)
  && negb (String.eqb (dec v) "")
  && (parseInt (dec v) =? Z.of_N v)%Z
  && (shl (Z.of_N v) 16 =? Z.of_N (v * 65536))%Z
  && (shl (Z.of_N v) 8 =? Z.of_N (v * 256))%Z.

End Colour.

Module Values.

(** [a] is the finite number of value [q]. *)
Definition hasValue (a : number) (q : Q) : Prop :=
  match a with
  | Fin m e => (toQ m e == q)%Q
  | NaN => False
  end.

(** The pointer movement in the coordinates of the svg root: both
    positions go through the matrix [m], then the difference is taken. *)
Definition localDelta (m : Dom.DOMMatrix) (px py sx sy : Q) : Q * Q :=
  ((Dom.a m * px + Dom.c m * py + Dom.e m)
   - (Dom.a m * sx + Dom.c m * sy + Dom.e m),
   (Dom.b m * px + Dom.d m * py + Dom.f m)
   - (Dom.b m * sx + Dom.d m * sy + Dom.f m))%Q.

(** A number that is stored without trailing zeros in its fraction
    and that [Number::toString] prints in plain notation: zero, or of a
    magnitude from [1e-6] up to (not including) [1e21]. *)
Definition plain (v : number) : bool :=
  match v with
  | NaN => false
  | Fin m e =>
      (Nat.eqb e 0 || negb (m mod 10 =? 0)%Z)
      && ((m =? 0)%Z
          || ((10 ^ Z.of_nat e <=? Z.abs m * 10 ^ 6)%Z
              && (Z.abs m <? 10 ^ (21 + Z.of_nat e))%Z))
  end.

Definition plainState (st : Editor.TransformState) : bool :=
  plain (Editor.x st) && plain (Editor.y st)
  && plain (Editor.scale st) && plain (Editor.rotate st).

End Values.

Module Marks.
Import Dom Editor.

(** An update applied to the element object [i] only, and updates that
    leave the identity of the object alone. *)
Definition upd (i : nat) (g : elem -> elem) (e : elem) : elem :=
  if Nat.eqb (nid e) i then g e else e.
Definition keepsId (g : elem -> elem) : Prop := forall e, nid (g e) = nid e.

(** Removing the marker from the element objects [ids], one after the
    other, in a tree. *)
Definition unmark : elem -> elem := classListRemove marker.
Definition stripAll (ids : list nat) (c : node) : node :=
  fold_left (fun t i => updateElem i unmark t) ids c.
Definition idOf (n : node) : nat := nid (el n).

(** The marked elements below the root [c]. *)
Definition markedIds (c : node) : list nat :=
  map idOf (querySelectorAll (SelClass marker) c).

(** Element objects are distinct. *)
Definition wellFormed (c : node) : Prop := NoDup (map idOf (subtrees c)).

(** The container after [selectElement (Some b)]. *)
Definition selected (b : nat) (c : node) : node :=
  updateElem b (classListAdd marker) (stripAll (markedIds c) c).

End Marks.

Module Steps.
Import Dom Editor Marks.

(** [l1] is [l2] with some elements left out. *)
Inductive sublist {A : Type} : list A -> list A -> Prop :=
| sub_nil : sublist [] []
| sub_skip : forall a l1 l2, sublist l1 l2 -> sublist l1 (a :: l2)
| sub_keep : forall a l1 l2, sublist l1 l2 -> sublist (a :: l1) (a :: l2).

(** The element objects below the root, in document order. *)
Definition elemsBelow (c : node) : list elem := map el (descendants c).

(** One callback of the editor on the loaded document.  The attribute
    names [updateAttribute] is called with are the four presentation
    attributes of the properties panel. *)
Inductive step : state -> state -> Prop :=
| step_select : forall element s, step s (selectElement element s)
| step_mouseDown : forall element inContainer px py s,
    step s (handleMouseDown element inContainer px py s)
| step_mouseMove : forall br px py s,
    step s (handleWindowMouseMove br px py s)
| step_mouseUp : forall s, step s (handleWindowMouseUp s)
| step_effect : forall s, step s (selectionEffect s)
| step_apply : forall br newState s, step s (applyTransform br newState s)
| step_update : forall attr value s,
    In attr ["fill"; "stroke"; "stroke-width"; "opacity"] ->
    step s (updateAttribute attr value s)
| step_delete : forall s, step s (handleDeleteElement s)
| step_scan : forall s, step s (scanLayers s)
| step_serialize : forall s, step s (snd (getSvgContent s)).

(** Any number of callbacks, one after the other. *)
Inductive steps : state -> state -> Prop :=
| steps_refl : forall s, steps s s
| steps_next : forall s s1 s2, steps s s1 -> step s1 s2 -> steps s s2.

(** Distinct element objects, at most one of them marked. *)
Definition oneMarker (s : state) : Prop :=
  match containerRef s with
  | Some c => wellFormed c /\ (List.length (markedIds c) <= 1)%nat
  | None => True
  end.

End Steps.

Module Frames.
Import Dom Editor.

(** A document with the class lists left out: what remains are the
    elements with their identity, tag, attributes, style and text, in
    their places. *)
Definition withoutClasses (e : elem) : elem :=
  mkElem (nid e) (tag e) [] (attrs e) (style e) (text e).

Fixpoint eraseClasses (n : node) : node :=
  match n with
  | Node e kids => Node (withoutClasses e) (map eraseClasses kids)
  end.

(** The same with everything left out but identity and tag. *)
Definition bare (e : elem) : elem := mkElem (nid e) (tag e) [] [] [] "".

Fixpoint skeleton (n : node) : node :=
  match n with
  | Node e kids => Node (bare e) (map skeleton kids)
  end.

(** The layer list is what a scan of the document gives. *)
Definition layersFresh (s : state) : Prop := layers (scanLayers s) = layers s.

(** The elements of the document are distinct objects, and an element
    that carries the marker is the selected one. *)
Definition markerIsSelection (s : state) : Prop :=
  match containerRef s with
  | Some c =>
      Marks.wellFormed c
      /\ forall j, In j (Marks.markedIds c) -> selectedEl s = Some j
  | None => True
  end.

(** Two states that differ at most in the render counter. *)
Definition sameButTrigger (s1 s2 : state) : Prop :=
  containerRef s1 = containerRef s2 /\ detached s1 = detached s2
  /\ isEditing s1 = isEditing s2 /\ selectedEl s1 = selectedEl s2
  /\ layers s1 = layers s2 /\ transform s1 = transform s2
  /\ isDragging s1 = isDragging s2 /\ dragStartRef s1 = dragStartRef s2.

(** [chain c p n]: [p] lists the elements from [c] down to [n], each the
    parent of the next. *)
Inductive chain : node -> list node -> node -> Prop :=
| chain_here : forall n, chain n [n] n
| chain_below : forall e kids k p n,
    In k kids -> chain k p n -> chain (Node e kids) (Node e kids :: p) n.

End Frames.

Module Tokens.
Import Svg.

(** A non-empty piece of text over [[-\d.]], resp. over [[, ]]. *)
Definition numTok (s : string) : bool :=
  allChars isNumChar s && negb (String.eqb s "").
Definition sepTok (s : string) : bool :=
  allChars isSepChar s && negb (String.eqb s "").

Definition argsOk (p : string -> bool) (fn : tfunc string) : bool :=
  match fn with
  | Translate tx ty => p tx && match ty with Some t => p t | None => true end
  | Rotate an pv =>
      p an && match pv with Some (cx, cy) => p cx && p cy | None => true end
  | Scale sx sy => p sx && match sy with Some t => p t | None => true end
  end.

(** What the three patterns find in a list of transform functions. *)
Fixpoint firstTranslate (l : list (tfunc string)) : option (string * string) :=
  match l with
  | [] => None
  | Translate tx (Some ty) :: _ => Some (tx, ty)
  | _ :: l' => firstTranslate l'
  end.
Fixpoint firstRotate (l : list (tfunc string)) : option string :=
  match l with
  | [] => None
  | Rotate an _ :: _ => Some an
  | _ :: l' => firstRotate l'
  end.
Fixpoint firstScale (l : list (tfunc string)) : option string :=
  match l with
  | [] => None
  | Scale sx None :: _ => Some sx
  | _ :: l' => firstScale l'
  end.

(** No scale function of the list has the one-argument form; the list
    has no rotate. *)
Definition twoArgScalesOnly (l : list (tfunc string)) : bool :=
  forallb (fun fn => match fn with Scale _ None => false | _ => true end) l.
Definition noRotate (l : list (tfunc string)) : bool :=
  forallb (fun fn => match fn with Rotate _ _ => false | _ => true end) l.

(** The text stops a run of the class: it is empty or starts outside. *)
Definition stopsAt (cls : ascii -> bool) (rest : string) : bool :=
  match rest with
  | "" => true
  | String c _ => negb (cls c)
  end.

(** What follows the first function in the text of a list. *)
Definition tailText (sep : string) (l : list (tfunc string)) : string :=
  match l with
  | [] => ""
  | _ => " " ++ showList (fun t : string => t) sep l
  end.

(** The state read from the functions of [Svg.inOrder]: their arguments,
    and the identity values for the functions that are absent. *)
Definition parsedInOrder (tr : option (string * string))
    (ro : option (string * (string * string))) (sc : option string)
  : Editor.TransformState :=
  Editor.mkTransform
    (match tr with Some (tx, _) => parseFloat tx | None => num_zero end)
    (match tr with Some (_, ty) => parseFloat ty | None => num_zero end)
    (match sc with Some sx => parseFloat sx | None => num_one end)
    (match ro with Some (an, _) => parseFloat an | None => num_zero end).

End Tokens.

(** A small document and editor states, for instances of the statements. *)
Module Sample.
Import Dom Editor.

Definition rect : node :=
  Node (mkElem 2 "rect" [marker] [("fill", "red")] [("fill", "blue")] "") [].
Definition circle : node :=
  Node (mkElem 3 "circle" [] [("transform", "translate(10, 20)")] [] "") [].
Definition label : node := Node (mkElem 5 "text" [] [] [] "hi") [].
Definition group : node := Node (mkElem 4 "g" [] [] [] "") [label].
Definition svg : node := Node (mkElem 1 "svg" [] [] [] "") [rect; circle; group].
Definition container : node :=
  Node (mkElem 0 "div" ["svg-container"] [] [] "") [svg].

Definition identityTransform : TransformState :=
  mkTransform num_zero num_zero num_one num_zero.

(** The rectangle is selected. *)
Definition editing : state :=
  mkState (Some container) [] true (Some 2) 0 [2; 3; 4; 5]
          identityTransform false None.

(** The rectangle spans [(10, 20)] to [(40, 60)]; the other shapes have
    no box; the svg root is shown at scale 1, offset by [(100, 50)]. *)
Definition browser : Browser :=
  mkBrowser
    (fun i => if Nat.eqb i 2
              then Some (mkRect (Fin 10 0) (Fin 20 0) (Fin 30 0) (Fin 40 0))
              else None)
    (Some (mkMatrix 1 0 0 1 100 50)).

(** A document whose svg root itself carries the marker class. *)
Definition markedRoot : node :=
  Node (mkElem 0 "div" ["svg-container"] [] [] "")
    [Node (mkElem 1 "svg" [marker] [] [] "")
       [Node (mkElem 2 "rect" [marker] [] [] "") []]].
Definition markedRootState : state :=
  mkState (Some markedRoot) [] true (Some 2) 0 [2]
          identityTransform false None.

(** The circle selected, with a scale written before a translate. *)
Definition scaledFirst : state :=
  mkState
    (Some (updateElem 3
             (setAttribute "transform" "scale(2) translate(10, 20)")
             container))
    [] true (Some 3) 0 [2; 3; 4; 5] identityTransform false None.

(** The rectangle selected, turned half a circle about the origin. *)
Definition turnedAboutOrigin : state :=
  mkState
    (Some (updateElem 2 (setAttribute "transform" "rotate(180, 0, 0)")
             container))
    [] true (Some 2) 0 [2; 3; 4; 5] identityTransform false None.

End Sample.

(* ===================================================================== *)
(** * Properties                                                          *)
(* ===================================================================== *)

(** ** Strings *)

Section Strings.
Lemma append_assoc (s1 s2 s3 : string) : (s1 ++ s2) ++ s3 = s1 ++ (s2 ++ s3).
Proof. induction s1; simpl; congruence. Qed.

Lemma append_nil_r (s : string) : s ++ "" = s.
Proof. induction s; simpl; congruence. Qed.
End Strings.

(** ** Requests that fail *)

Section RequestFailures.
Import App.
Variables (promptText currentContent instruction msg uuid : string) (now : Z).

(** The failing branch of either request never writes the artifact,
    whatever happened while the request was pending. *)
Lemma settle_failure_keeps_artifact (s : state) :
  currentSvg (handleGenerateSettle promptText (Rejected msg) uuid now s)
    = currentSvg s
  /\ currentSvg (handleRefineSettle instruction (Rejected msg) uuid now s)
    = currentSvg s.
Proof. split; reflexivity. Qed.

End RequestFailures.


(** ** Colours for the colour inputs *)

Section RgbToHex.
Import Editor Colour.

Lemma rgbToHex_unfold (col : string) :
  rgbToHex col =
  if sentinel col then "#ffffff"
  else if startsWith col "#" then col
  else match matchAllDigits "" col with
       | rs :: gs :: bs :: _ =>
           "#" ++ slice1 (intToString16
                            (shl 1 24 + shl (parseInt rs) 16
                             + shl (parseInt gs) 8 + parseInt bs)%Z)
       | _ => "#000000"
       end.
Proof. reflexivity. Qed.

Lemma matchAllDigits_run (d : string) :
  allChars isDigit d = true ->
  forall cur rest,
    matchAllDigits cur (d ++ rest) = matchAllDigits (cur ++ d) rest.
Proof.
  induction d as [|c d IH]; simpl; intros H cur rest.
  - now rewrite append_nil_r.
  - apply andb_true_iff in H as [Hc Hd]. rewrite Hc, IH by assumption.
    now rewrite append_assoc.
Qed.

Lemma matchAllDigits_stop (cur : string) (c : ascii) (rest : string) :
  cur <> "" -> isDigit c = false ->
  matchAllDigits cur (String c rest) = cur :: matchAllDigits "" rest.
Proof. intros Hn Hc. simpl. rewrite Hc. destruct cur; [easy|reflexivity]. Qed.

Lemma matchAllDigits_skip (c : ascii) (rest : string) :
  isDigit c = false ->
  matchAllDigits "" (String c rest) = matchAllDigits "" rest.
Proof. intros Hc. simpl. now rewrite Hc. Qed.

Lemma byteCheck_all : forallb byteCheck (seq 0 256) = true.
Proof. vm_compute. reflexivity. Qed.

Lemma byte_facts (v : N) :
  (v <= 255)%N ->
  allChars isDigit (dec v) = true
  /\ dec v <> ""
  /\ parseInt (dec v) = Z.of_N v
  /\ shl (Z.of_N v) 16 = Z.of_N (v * 65536)
  /\ shl (Z.of_N v) 8 = Z.of_N (v * 256).
Proof.
  intros Hv.
  pose proof (proj1 (forallb_forall _ _) byteCheck_all (N.to_nat v)) as H.
  unfold byteCheck in H. rewrite N2Nat.id in H.
  assert (Hin : In (N.to_nat v) (seq 0 256)) by (apply in_seq; lia).
  specialize (H Hin).
  repeat (apply andb_true_iff in H as [H ?]).
  repeat split; try (now apply Z.eqb_eq); try assumption.
  intros E. rewrite E in *. discriminate.
Qed.

Lemma digitsLE_cons (fuel : nat) (q d0 : N) :
  (d0 < 16)%N -> (0 < q)%N ->
  digitsLE 16 (S fuel) (16 * q + d0) = d0 :: digitsLE 16 fuel q.
Proof.
  intros Hd Hq. cbn [digitsLE].
  destruct (N.eqb_spec (16 * q + d0) 0) as [E|_]; [lia|].
  f_equal.
  - rewrite N.add_comm, N.mul_comm, N.Div0.mod_add. now apply N.mod_small.
  - f_equal. rewrite N.add_comm, N.mul_comm, N.div_add by lia.
    rewrite N.div_small by assumption. reflexivity.
Qed.

Lemma hex_of_rgb (r g b : N) :
  (r <= 255)%N -> (g <= 255)%N -> (b <= 255)%N ->
  slice1 (natToString 16 (16777216 + r * 65536 + g * 256 + b))
  = hex2 r ++ hex2 g ++ hex2 b.
Proof.
  intros Hr Hg Hb.
  set (v := (16777216 + r * 65536 + g * 256 + b)%N).
  assert (Hlog : N.log2 v = 24%N).
  { apply N.log2_unique; [lia | ]. subst v.
    change (2 ^ 24)%N with 16777216%N.
    change (2 ^ N.succ 24)%N with 33554432%N. lia. }
  unfold natToString. destruct (N.eqb_spec v 0) as [E|_]; [subst v; lia|].
  rewrite Hlog.
  pose proof (N.div_mod r 16 ltac:(lia)) as Er.
  pose proof (N.div_mod g 16 ltac:(lia)) as Eg.
  pose proof (N.div_mod b 16 ltac:(lia)) as Eb.
  pose proof (N.mod_lt r 16 ltac:(lia)).
  pose proof (N.mod_lt g 16 ltac:(lia)).
  pose proof (N.mod_lt b 16 ltac:(lia)).
  assert (r / 16 < 16)%N by (apply N.Div0.div_lt_upper_bound; lia).
  assert (g / 16 < 16)%N by (apply N.Div0.div_lt_upper_bound; lia).
  assert (b / 16 < 16)%N by (apply N.Div0.div_lt_upper_bound; lia).
  replace v with
    (16 * (16 * (16 * (16 * (16 * (16 * 1 + r / 16) + r mod 16) + g / 16)
                 + g mod 16) + b / 16) + b mod 16)%N by (subst v; lia).
  change (S (N.to_nat 24)) with 25%nat.
  do 6 (rewrite digitsLE_cons by lia).
  reflexivity.
Qed.

Lemma rgbToHex_rgb (alpha : bool) (r g b : N) (c : ascii) (tail : string) :
  (r <= 255)%N -> (g <= 255)%N -> (b <= 255)%N ->
  isDigit c = false ->
  rgbToHex (rgbText alpha r g b (String c tail))
  = "#" ++ hex2 r ++ hex2 g ++ hex2 b.
Proof.
  intros Hr Hg Hb Hc.
  destruct (byte_facts r Hr) as (Dr & Nr & Pr & Sr & _).
  destruct (byte_facts g Hg) as (Dg & Ng & Pg & _ & Sg).
  destruct (byte_facts b Hb) as (Db & Nb & Pb & _ & _).
  assert (Hruns : forall pre, pre = "rgb(" \/ pre = "rgba(" ->
    matchAllDigits "" (pre ++ dec r ++ ", " ++ dec g ++ ", " ++ dec b
                           ++ String c tail)
    = dec r :: dec g :: dec b :: matchAllDigits "" tail).
  { intros pre [-> | ->]; cbn [append];
    rewrite !matchAllDigits_skip by reflexivity;
    rewrite (matchAllDigits_run _ Dr); cbn [append];
    rewrite (matchAllDigits_stop (dec r) "," _ Nr eq_refl);
    rewrite !matchAllDigits_skip by reflexivity;
    rewrite (matchAllDigits_run _ Dg); cbn [append];
    rewrite (matchAllDigits_stop (dec g) "," _ Ng eq_refl);
    rewrite !matchAllDigits_skip by reflexivity;
    rewrite (matchAllDigits_run _ Db); cbn [append];
    rewrite (matchAllDigits_stop (dec b) c _ Nb Hc); reflexivity. }
  assert (Hs : sentinel (rgbText alpha r g b (String c tail)) = false)
    by (destruct alpha; reflexivity).
  assert (Hh : startsWith (rgbText alpha r g b (String c tail)) "#" = false)
    by (destruct alpha; reflexivity).
  rewrite rgbToHex_unfold, Hs, Hh. unfold rgbText.
  rewrite Hruns by (destruct alpha; auto).
  rewrite Pr, Pg, Pb, Sr, Sg.
  change (shl 1 24) with (Z.of_N 16777216).
  rewrite <- !N2Z.inj_add.
  unfold intToString16.
  destruct (Z.ltb_spec (Z.of_N (16777216 + r * 65536 + g * 256 + b)) 0);
    [lia|].
  rewrite Zabs2N.id, hex_of_rgb by assumption; reflexivity.
Qed.

Lemma rgbToHex_sentinel (col : string) :
  sentinel col = true -> rgbToHex col = "#ffffff".
Proof. unfold sentinel, rgbToHex. now intros ->. Qed.

Lemma rgbToHex_hex (col : string) :
  sentinel col = false -> startsWith col "#" = true -> rgbToHex col = col.
Proof. unfold sentinel, rgbToHex. now intros -> ->. Qed.

Lemma rgbToHex_unparseable (col : string) :
  sentinel col = false -> startsWith col "#" = false ->
  (List.length (matchAllDigits "" col) < 3)%nat ->
  rgbToHex col = "#000000".
Proof.
  unfold sentinel, rgbToHex. intros -> -> H.
  destruct (matchAllDigits "" col) as [|? [|? [|? ?]]]; simpl in H;
    try reflexivity; lia.
Qed.

(** C9, as amended.  [rgbToHex] turns the functional notation
    [rgb(r, g, b)] / [rgba(r, g, b, ...)] with components up to 255 into
    [#rrggbb]; it answers [#ffffff] for the empty string, [none] and
    [transparent]; it returns a string that starts with [#] as it is;
    and it answers [#000000] for any other string with fewer than three
    runs of digits. *)
Theorem rgbToHex_cases :
  (forall alpha r g b c tail,
      (r <= 255)%N -> (g <= 255)%N -> (b <= 255)%N -> isDigit c = false ->
      rgbToHex (rgbText alpha r g b (String c tail))
      = "#" ++ hex2 r ++ hex2 g ++ hex2 b)
  /\ (forall col, sentinel col = true -> rgbToHex col = "#ffffff")
  /\ (forall col, sentinel col = false -> startsWith col "#" = true ->
                  rgbToHex col = col)
  /\ (forall col, sentinel col = false -> startsWith col "#" = false ->
                  (List.length (matchAllDigits "" col) < 3)%nat ->
                  rgbToHex col = "#000000").
Proof.
  split; [exact rgbToHex_rgb|].
  split; [exact rgbToHex_sentinel|].
  split; [exact rgbToHex_hex|exact rgbToHex_unparseable].
Qed.

Lemma rgbToHex_cases_witness :
  rgbToHex "rgb(255, 0, 18)" = "#ff0012"
  /\ rgbToHex "rgba(1, 2, 3, 0.5)" = "#010203"
  /\ rgbToHex "transparent" = "#ffffff"
  /\ rgbToHex "#abc" = "#abc"
  /\ rgbToHex "red" = "#000000".
Proof.
  destruct rgbToHex_cases as (Hrgb & Hs & Hh & Hu).
  split; [exact (Hrgb false 255%N 0%N 18%N ")"%char ""
                  ltac:(vm_compute; discriminate)
                  ltac:(vm_compute; discriminate)
                  ltac:(vm_compute; discriminate) eq_refl)|].
  split; [exact (Hrgb true 1%N 2%N 3%N ","%char " 0.5)"
                  ltac:(vm_compute; discriminate)
                  ltac:(vm_compute; discriminate)
                  ltac:(vm_compute; discriminate) eq_refl)|].
  split; [exact (Hs "transparent" eq_refl)|].
  split; [exact (Hh "#abc" eq_refl eq_refl)|].
  exact (Hu "red" eq_refl eq_refl ltac:(vm_compute; lia)).
Defined.

(** C9 as stated fails: the sentinel [none] and the unparseable [red]
    do not get the same fall-back value. *)
Lemma rgbToHex_two_defaults :
  ~ (exists dflt, rgbToHex "none" = dflt /\ rgbToHex "red" = dflt).
Proof. intros (dflt & H1 & H2). vm_compute in H1, H2. congruence. Qed.

End RgbToHex.
(** ** Trees of elements *)

Section DomFacts.
Import Dom Marks.

(** Induction on a tree, with the hypothesis for every child. *)
Lemma node_ind' (P : node -> Prop) :
  (forall e kids, Forall P kids -> P (Node e kids)) ->
  forall n, P n.
Proof.
  intros H. fix IH 1. intros [e kids]. apply H.
  induction kids as [|k kids IHk]; constructor; [apply IH | exact IHk].
Qed.

Lemma el_updateElem i g n : el (updateElem i g n) = upd i g (el n).
Proof. destruct n; reflexivity. Qed.

Lemma subtrees_updateElem i g n :
  subtrees (updateElem i g n) = map (updateElem i g) (subtrees n).
Proof.
  induction n as [e kids IH] using node_ind'. cbn [updateElem subtrees map].
  f_equal. induction IH as [|k kids Hk _ IHk]; [reflexivity|].
  cbn [map flat_map]. rewrite map_app, Hk, IHk. reflexivity.
Qed.

Lemma descendants_updateElem i g n :
  descendants (updateElem i g n) = map (updateElem i g) (descendants n).
Proof.
  destruct n as [e kids]. unfold descendants. cbn [updateElem children].
  induction kids as [|k kids IH]; [reflexivity|].
  cbn [map flat_map]. now rewrite map_app, subtrees_updateElem, IH.
Qed.

Lemma elems_updateElem i g n :
  map el (subtrees (updateElem i g n)) = map (upd i g) (map el (subtrees n)).
Proof.
  rewrite subtrees_updateElem, !map_map. apply map_ext. intros a.
  apply el_updateElem.
Qed.

Lemma nid_upd i g e : keepsId g -> nid (upd i g e) = nid e.
Proof. intros H. unfold upd. destruct (Nat.eqb _ _); [apply H|reflexivity]. Qed.

Lemma find_map_id {A} (p : A -> bool) (h : A -> A) (l : list A) :
  (forall a, p (h a) = p a) ->
  find p (map h l) = option_map h (find p l).
Proof.
  intros Hp. induction l as [|a l IH]; [reflexivity|]. simpl.
  rewrite Hp. destruct (p a); [reflexivity|exact IH].
Qed.

Lemma findElem_updateElem i j g c :
  keepsId g ->
  findElem j (updateElem i g c) = option_map (upd i g) (findElem j c).
Proof.
  intros Hg. unfold findElem. rewrite subtrees_updateElem.
  rewrite find_map_id.
  - destruct (find _ (subtrees c)); [|reflexivity]. simpl.
    now rewrite el_updateElem.
  - intros a. now rewrite el_updateElem, nid_upd.
Qed.

Lemma findElem_nid i c e : findElem i c = Some e -> nid e = i.
Proof.
  unfold findElem. destruct (find _ _) eqn:E; [|discriminate].
  intros [= <-]. apply find_some in E as [_ E]. now apply Nat.eqb_eq.
Qed.

Lemma findElem_updateElem_same i g c :
  keepsId g ->
  findElem i (updateElem i g c) = option_map g (findElem i c).
Proof.
  intros Hg. rewrite findElem_updateElem by assumption.
  destruct (findElem i c) eqn:E; [|reflexivity]. simpl. unfold upd.
  apply findElem_nid in E. now rewrite E, Nat.eqb_refl.
Qed.

Lemma findElem_updateElem_other i j g c :
  keepsId g -> j <> i ->
  findElem j (updateElem i g c) = findElem j c.
Proof.
  intros Hg Hne. rewrite findElem_updateElem by assumption.
  destruct (findElem j c) eqn:E; [|reflexivity]. simpl. unfold upd.
  apply findElem_nid in E. rewrite E.
  destruct (Nat.eqb_spec j i); [contradiction|reflexivity].
Qed.

Lemma keepsId_setAttribute k v : keepsId (setAttribute k v).
Proof. intros e. reflexivity. Qed.
Lemma keepsId_setProperty k v : keepsId (setProperty k v).
Proof. intros e. reflexivity. Qed.
Lemma keepsId_classListAdd c : keepsId (classListAdd c).
Proof. intros e. reflexivity. Qed.
Lemma keepsId_classListRemove c : keepsId (classListRemove c).
Proof. intros e. reflexivity. Qed.

Lemma assocGet_assocSet_eq k v l : assocGet k (assocSet k v l) = Some v.
Proof.
  induction l as [|[k' v'] l IH]; simpl.
  - now rewrite String.eqb_refl.
  - destruct (String.eqb k k') eqn:E; simpl; rewrite ?String.eqb_refl, ?E; auto.
Qed.

Lemma assocGet_assocSet_ne k k' v l :
  k' <> k -> assocGet k' (assocSet k v l) = assocGet k' l.
Proof.
  intros Hne. induction l as [|[k2 v2] l IH]; simpl.
  - destruct (String.eqb_spec k' k); [contradiction|reflexivity].
  - destruct (String.eqb_spec k k2) as [->|Hk]; simpl.
    + destruct (String.eqb_spec k' k2); [contradiction|reflexivity].
    + destruct (String.eqb k' k2); [reflexivity|exact IH].
Qed.
End DomFacts.
(** ** Decimal numbers and their values *)

Section Numbers.
Import Values.

Lemma pow10_pos (e : nat) : (0 < 10 ^ Z.of_nat e)%Z.
Proof. apply Z.pow_pos_nonneg; lia. Qed.

Lemma inject_Z_nonzero (z : Z) : z <> 0%Z -> ~ (inject_Z z == 0)%Q.
Proof. intros Hz E. unfold Qeq in E. simpl in E. lia. Qed.

Lemma pow10_nonzero (e : nat) : ~ (inject_Z (10 ^ Z.of_nat e) == 0)%Q.
Proof. apply inject_Z_nonzero. pose proof (pow10_pos e). lia. Qed.

Lemma toQ_step (m : Z) (e : nat) : (toQ (10 * m) (S e) == toQ m e)%Q.
Proof.
  unfold toQ. rewrite Nat2Z.inj_succ, Z.pow_succ_r by lia.
  rewrite !inject_Z_mult. field. apply pow10_nonzero.
Qed.

Lemma normalize_value (m : Z) (e : nat) : hasValue (normalize m e) (toQ m e).
Proof.
  revert m. induction e as [|e IH]; intros m; simpl.
  - reflexivity.
  - destruct (Z.eqb_spec (m mod 10) 0) as [E|E]; [|simpl; reflexivity].
    specialize (IH (m / 10)%Z).
    destruct (normalize (m / 10) e); simpl in *; [exact IH|].
    rewrite IH, <- toQ_step. 
    replace (10 * (m / 10))%Z with m; [reflexivity|].
    pose proof (Z.div_mod m 10 ltac:(lia)). lia.
Qed.

Lemma toQ_scale (m : Z) (e k : nat) :
  (toQ (m * 10 ^ Z.of_nat k) (e + k) == toQ m e)%Q.
Proof.
  induction k as [|k IH].
  - rewrite Nat.add_0_r, Z.mul_1_r. reflexivity.
  - rewrite Nat.add_succ_r, Nat2Z.inj_succ, Z.pow_succ_r by lia.
    replace (m * (10 * 10 ^ Z.of_nat k))%Z with (10 * (m * 10 ^ Z.of_nat k))%Z by lia.
    now rewrite toQ_step.
Qed.

Lemma toQ_plus (m1 m2 : Z) (e : nat) :
  (toQ (m1 + m2) e == toQ m1 e + toQ m2 e)%Q.
Proof.
  unfold toQ. rewrite inject_Z_plus. field. apply pow10_nonzero.
Qed.

Lemma hasValue_ext (a : number) (p q : Q) :
  (p == q)%Q -> hasValue a p -> hasValue a q.
Proof. destruct a; simpl; [easy|]. intros <-. easy. Qed.

Lemma numAdd_value (a b : number) (p q : Q) :
  hasValue a p -> hasValue b q -> hasValue (numAdd a b) (p + q).
Proof.
  destruct a as [|m1 e1], b as [|m2 e2]; try easy.
  intros Hp Hq. unfold numAdd.
  change (toQ m1 e1 == p)%Q in Hp. change (toQ m2 e2 == q)%Q in Hq.
  eapply hasValue_ext; [|apply normalize_value].
  rewrite toQ_plus, <- Hp, <- Hq.
  apply Qplus_comp.
  - replace (Nat.max e1 e2) with (e1 + (Nat.max e1 e2 - e1))%nat at 2 by lia.
    apply toQ_scale.
  - replace (Nat.max e1 e2) with (e2 + (Nat.max e1 e2 - e2))%nat at 2 by lia.
    apply toQ_scale.
Qed.

Lemma numHalf_value (a : number) (p : Q) :
  hasValue a p -> hasValue (numHalf a) (p / 2).
Proof.
  destruct a as [|m e]; [easy|]. intros Hp. unfold numHalf.
  change (toQ m e == p)%Q in Hp.
  eapply hasValue_ext; [|apply normalize_value].
  rewrite <- Hp, <- (toQ_step m e).
  unfold toQ. rewrite !inject_Z_mult. field. apply pow10_nonzero.
Qed.

Lemma roundTenth_value (q : Q) :
  hasValue (roundTenth (Some q))
           (inject_Z (Qfloor (q * inject_Z 10 + (1 # 2))) / inject_Z 10).
Proof.
  unfold roundTenth. eapply hasValue_ext; [|apply normalize_value].
  unfold toQ. reflexivity.
Qed.

(** [Math.round(q * 10) / 10] is a number of tenths, within a
    twentieth of [q]. *)
Lemma roundTenth_close (q : Q) :
  let r := (inject_Z (Qfloor (q * inject_Z 10 + (1 # 2))) / inject_Z 10)%Q in
  hasValue (roundTenth (Some q)) r
  /\ (q - (1 # 20) < r)%Q /\ (r <= q + (1 # 20))%Q.
Proof.
  cbn zeta. split; [apply roundTenth_value|].
  set (v := (q * inject_Z 10 + (1 # 2))%Q).
  pose proof (Qfloor_le v) as Hle. pose proof (Qlt_floor v) as Hlt.
  rewrite inject_Z_plus in Hlt. change (inject_Z 1) with 1%Q in Hlt.
  change (inject_Z 10) with 10%Q in *.
  subst v.
  generalize dependent (inject_Z (Qfloor (q * 10 + (1 # 2)))).
  intros F Hle Hlt. split.
  - apply Qlt_shift_div_l; [reflexivity|]. lra.
  - apply Qle_shift_div_r; [reflexivity|]. lra.
Qed.

Lemma roundTenth_comp (p q : Q) :
  (p == q)%Q -> roundTenth (Some p) = roundTenth (Some q).
Proof.
  intros H. unfold roundTenth. f_equal. apply Qfloor_comp. now rewrite H.
Qed.
End Numbers.
(** ** Writing the transform attribute *)

Section ApplyTransform.
Import Dom Editor Svg Marks Values.
Variables (br : Browser) (newState : TransformState).

(** The text written is the list translate, rotate, scale, printed with
    [", "] between arguments. *)
Lemma transformString_written (cx cy : number) :
  transformString newState cx cy
  = showList numToString ", " (written newState cx cy).
Proof.
  unfold transformString, written. cbn [showList showFunc].
  repeat (rewrite ?append_assoc; cbn [append]). reflexivity.
Qed.

Lemma applyTransform_container (s : state) (i : nat) :
  selectedEl s = Some i ->
  containerRef (applyTransform br newState s)
  = option_map
      (updateElem i
         (setAttribute "transform"
            (transformString newState (fst (pivot br i)) (snd (pivot br i)))))
      (containerRef s).
Proof.
  intros Hs. unfold applyTransform. rewrite Hs.
  destruct (pivot br i) as [cx cy]. reflexivity.
Qed.

Lemma applyTransform_transform (s : state) (i : nat) :
  selectedEl s = Some i -> transform (applyTransform br newState s) = newState.
Proof.
  intros H. unfold applyTransform. rewrite H. now destruct (pivot br i).
Qed.

Lemma setAttribute_frame (k v : string) (e : elem) :
  getAttribute k (setAttribute k v e) = Some v
  /\ (forall k', k' <> k ->
        getAttribute k' (setAttribute k v e) = getAttribute k' e)
  /\ classes (setAttribute k v e) = classes e
  /\ style (setAttribute k v e) = style e
  /\ text (setAttribute k v e) = text e.
Proof.
  unfold getAttribute, setAttribute. cbn.
  split; [apply assocGet_assocSet_eq|].
  split; [intros k' Hk; now apply assocGet_assocSet_ne|]. now repeat split.
Qed.

(** C2.  [applyTransform newState] does nothing when no element is
    selected.  With the element [i] selected it writes one attribute,
    [transform], on the element object [i] and on no other element of
    the document: the text is [translate(x, y) rotate(r, cx, cy)
    scale(s)] in this order, where [(cx, cy)] is the centre
    [(x + width / 2, y + height / 2)] of the box [getBBox] answers at
    this call, and [(0, 0)] when [getBBox] throws; the state's
    transform becomes [newState]. *)
Theorem applyTransform_spec (s : state) :
  (selectedEl s = None -> applyTransform br newState s = s)
  /\ (forall i c,
        selectedEl s = Some i -> containerRef s = Some c ->
        let cx := fst (pivot br i) in
        let cy := snd (pivot br i) in
        let t := transformString newState cx cy in
        let s' := applyTransform br newState s in
        exists c',
          containerRef s' = Some c'
          /\ map el (subtrees c')
             = map (upd i (setAttribute "transform" t)) (map el (subtrees c))
          /\ (forall j e, findElem j c = Some e ->
                findElem j c' =
                Some (if Nat.eqb j i then setAttribute "transform" t e else e))
          /\ (forall e,
                getAttribute "transform" (setAttribute "transform" t e)
                = Some t
                /\ (forall k, k <> "transform" ->
                      getAttribute k (setAttribute "transform" t e)
                      = getAttribute k e)
                /\ classes (setAttribute "transform" t e) = classes e
                /\ style (setAttribute "transform" t e) = style e
                /\ text (setAttribute "transform" t e) = text e)
          /\ t = showList numToString ", " (written newState cx cy)
          /\ (getBBox br i = None -> cx = num_zero /\ cy = num_zero)
          /\ (forall bbox bx bw bY bh,
                getBBox br i = Some bbox ->
                hasValue (Dom.x bbox) bx -> hasValue (width bbox) bw ->
                hasValue (Dom.y bbox) bY -> hasValue (height bbox) bh ->
                hasValue cx (bx + bw / 2) /\ hasValue cy (bY + bh / 2))
          /\ transform s' = newState
          /\ selectedEl s' = Some i
          /\ detached s' = detached s).
Proof.
  split.
  - intros Hs. unfold applyTransform. now rewrite Hs.
  - intros i c Hs Hc cx cy t s'.
    exists (updateElem i (setAttribute "transform" t) c).
    split; [subst s'; rewrite (applyTransform_container s i Hs), Hc;
            reflexivity|].
    split; [apply elems_updateElem|].
    split.
    { intros j e Hj. destruct (Nat.eqb_spec j i) as [->|Hne].
      - rewrite findElem_updateElem_same, Hj by apply keepsId_setAttribute.
        reflexivity.
      - rewrite findElem_updateElem_other by
          (assumption || apply keepsId_setAttribute). exact Hj. }
    split; [intros e; apply setAttribute_frame|].
    split; [apply transformString_written|].
    split.
    { intros Hb. subst cx cy. unfold pivot. now rewrite Hb. }
    split.
    { intros bbox bx bw bY bh Hb Hx Hw Hy Hh. subst cx cy. unfold pivot.
      rewrite Hb. cbn [fst snd].
      split; apply numAdd_value; try assumption; now apply numHalf_value. }
    subst s'. unfold applyTransform. rewrite Hs.
    destruct (pivot br i). repeat split. exact Hs.
Qed.
End ApplyTransform.

Lemma applyTransform_spec_witness :
let st := Editor.mkTransform (Fin 5 0) (Fin 15 1) num_one (Fin 90 0) in
Editor.transformAttr 2 (Editor.applyTransform Sample.browser st Sample.editing)
= "translate(5, 1.5) rotate(90, 25, 40) scale(1)"
/\ Editor.transformAttr 3
     (Editor.applyTransform Sample.browser st Sample.editing)
   = "translate(10, 20)".
Proof.
intros st.
destruct (proj2 (applyTransform_spec Sample.browser st Sample.editing)
            2%nat Sample.container eq_refl eq_refl)
  as (c' & Hc & _ & Hfind & _).
unfold Editor.transformAttr. rewrite Hc.
rewrite (Hfind 2%nat _ eq_refl), (Hfind 3%nat _ eq_refl). split; reflexivity.
Defined.

(** ** Presentation attributes *)

Section UpdateAttribute.
Import Dom Editor Marks.

Lemma keepsId_writeAttr attr v : keepsId (writeAttr attr v).
Proof.
  intros e. unfold writeAttr.
  destruct (String.eqb _ _); reflexivity.
Qed.

Lemma updateAttribute_container (attr : string) (value : option string)
    (s : state) (i : nat) :
  selectedEl s = Some i ->
  containerRef (updateAttribute attr value s)
  = option_map
      (updateElem i
         (writeAttr attr
            (match value with Some v => v | None => "none" end)))
      (containerRef s).
Proof.
  intros Hs. unfold updateAttribute. rewrite Hs.
  destruct value as [v|]; [|reflexivity].
  destruct (String.eqb_spec v "none") as [->|_]; reflexivity.
Qed.

Lemma writeAttr_none (attr : string) (e : elem) :
  getAttribute attr (writeAttr attr "none" e) = Some "none"
  /\ resolved attr (writeAttr attr "none" e) = Some "none".
Proof.
  unfold writeAttr, resolved.
  destruct (String.eqb (getPropertyValue attr (setAttribute attr "none" e)) "")
    eqn:E.
  - rewrite E. split; apply assocGet_assocSet_eq.
  - split; [apply assocGet_assocSet_eq|].
    unfold getPropertyValue, setProperty. cbn [style].
    now rewrite assocGet_assocSet_eq.
Qed.

End UpdateAttribute.


(** ** Deleting the selected element *)

Section TreeFacts.
Import Dom Marks.

Lemma in_subtrees_self n : In n (subtrees n).
Proof. destruct n. now left. Qed.

Lemma in_subtrees_trans c n m :
  In n (subtrees c) -> In m (subtrees n) -> In m (subtrees c).
Proof.
  induction c as [e kids IH] using node_ind'. intros Hn Hm.
  cbn [subtrees] in Hn. destruct Hn as [<- | Hn]; [exact Hm|].
  cbn [subtrees]. right. apply in_flat_map in Hn as (k & Hk & Hn).
  apply in_flat_map. exists k. split; [exact Hk|].
  rewrite Forall_forall in IH. now apply (IH k Hk).
Qed.

Lemma descendants_subtrees n m : In m (descendants n) -> In m (subtrees n).
Proof. destruct n. intros H. now right. Qed.

Lemma in_descendants_trans c n m :
  In n (descendants c) -> In m (subtrees n) -> In m (descendants c).
Proof.
  unfold descendants. intros Hn Hm.
  apply in_flat_map in Hn as (k & Hk & Hn). apply in_flat_map.
  exists k. split; [exact Hk|]. now apply (in_subtrees_trans k n m).
Qed.

Lemma querySelectorAll_in sel c n :
  In n (querySelectorAll sel c) -> In n (descendants c) /\ matches sel n = true.
Proof. unfold querySelectorAll. apply filter_In. Qed.

Lemma querySelector_in sel c n :
  querySelector sel c = Some n -> In n (descendants c) /\ matches sel n = true.
Proof.
  unfold querySelector. intros H. apply querySelectorAll_in.
  destruct (querySelectorAll sel c); [discriminate|].
  injection H as ->. now left.
Qed.

(** After [remove()], no element [i] is left below the root. *)
Lemma removeElem_gone i c n :
  In n (subtrees (removeElem i c)) ->
  n = removeElem i c \/ nid (el n) <> i.
Proof.
  revert n. induction c as [e kids IH] using node_ind'. intros n Hn.
  cbn [removeElem subtrees] in Hn. destruct Hn as [<- | Hn]; [now left|].
  right. induction IH as [|k kids Hk _ IHk]; [contradiction|].
  destruct (Nat.eqb_spec (nid (el k)) i) as [E|E]; [now apply IHk|].
  cbn [flat_map] in Hn. apply in_app_or in Hn as [Hn | Hn]; [|now apply IHk].
  destruct (Hk n Hn) as [-> | Hne]; [|exact Hne].
  destruct k. exact E.
Qed.

Lemma removeElem_descendants i c n :
  In n (descendants (removeElem i c)) -> nid (el n) <> i.
Proof.
  destruct c as [e kids]. unfold descendants. cbn [removeElem children].
  induction kids as [|k kids IH]; [contradiction|].
  destruct (Nat.eqb_spec (nid (el k)) i) as [E|E]; [exact IH|].
  cbn [flat_map]. intros Hn. apply in_app_or in Hn as [Hn | Hn]; [|now apply IH].
  destruct (removeElem_gone i k n Hn) as [-> | Hne]; [|exact Hne].
  destruct k. exact E.
Qed.
End TreeFacts.

Section Delete.
Import Dom Editor Marks.

Lemma scanLayers_layers (s : state) (c : node) :
  containerRef s = Some c ->
  forall j, In j (layers (scanLayers s)) ->
            exists n, In n (descendants c) /\ nid (el n) = j
                      /\ matches (SelTags shapeTags) n = true.
Proof.
  intros Hc j. unfold scanLayers. rewrite Hc.
  destruct (querySelector (SelTags ["svg"]) c) as [svg|] eqn:Hq;
    cbn [layers setLayers]; [|contradiction].
  intros Hj. apply in_map_iff in Hj as (n & <- & Hn).
  apply querySelectorAll_in in Hn as [Hn Hm].
  apply querySelector_in in Hq as [Hq _].
  exists n. split; [|now split].
  eapply in_descendants_trans; [exact Hq|]. now apply descendants_subtrees.
Qed.

Lemma scanLayers_idem (s : state) : scanLayers (scanLayers s) = scanLayers s.
Proof.
  unfold scanLayers. destruct (containerRef s) as [c|] eqn:Hc.
  - destruct (querySelector (SelTags ["svg"]) c) eqn:Hq;
      cbn [containerRef setLayers]; rewrite Hc, Hq; reflexivity.
  - now rewrite Hc.
Qed.

(** C8.  With the element [i] selected, [handleDeleteElement] detaches
    the element object [i] (no element below the container is [i]
    any more), clears the selection, and leaves [layers] as a fresh
    scan of the document, in which [i] does not appear. *)
Theorem handleDeleteElement_spec (s : state) (i : nat) (c : node) :
  selectedEl s = Some i ->
  containerRef s = Some c ->
  let s' := handleDeleteElement s in
  containerRef s' = Some (removeElem i c)
  /\ (forall n, In n (descendants (removeElem i c)) -> nid (el n) <> i)
  /\ selectedEl s' = None
  /\ layers s' = layers (scanLayers s')
  /\ ~ In i (layers s').
Proof.
  intros Hs Hc s'. subst s'. unfold handleDeleteElement. rewrite Hs, Hc.
  cbn [option_map].
  set (s1 := setSelectedEl None (setContainer (Some (removeElem i c)) s)).
  assert (Hc1 : containerRef s1 = Some (removeElem i c)) by reflexivity.
  split; [unfold scanLayers; rewrite Hc1;
          destruct (querySelector _ _); reflexivity|].
  split; [apply removeElem_descendants|].
  split; [unfold scanLayers; rewrite Hc1;
          destruct (querySelector _ _); reflexivity|].
  split; [now rewrite scanLayers_idem|].
  intros Hin. destruct (scanLayers_layers s1 _ Hc1 i Hin) as (n & Hn & Hi & _).
  now apply (removeElem_descendants i c n).
Qed.
End Delete.

Lemma handleDeleteElement_spec_witness :
Editor.layers (Editor.scanLayers Sample.editing) = [2; 3; 4; 5]%nat
/\ Editor.layers (Editor.handleDeleteElement Sample.editing) = [3; 4; 5]%nat
/\ ~ In 2%nat (Editor.layers (Editor.handleDeleteElement Sample.editing)).
Proof.
split; [reflexivity|]. split; [reflexivity|].
exact (proj2 (proj2 (proj2 (proj2
         (handleDeleteElement_spec Sample.editing 2 Sample.container
            eq_refl eq_refl))))).
Defined.

(** ** The selection marker *)

Section Marker.
Import Dom Editor Marks.

Lemma hasClass_unmark e : hasClass marker (unmark e) = false.
Proof.
  unfold hasClass, unmark, classListRemove. cbn [classes].
  induction (classes e) as [|t l IH]; [reflexivity|]. cbn [filter].
  destruct (String.eqb marker t) eqn:E; cbn [negb]; [exact IH|].
  cbn [existsb]. now rewrite E.
Qed.

Lemma hasClass_mark e : hasClass marker (classListAdd marker e) = true.
Proof.
  unfold classListAdd. destruct (hasClass marker e) eqn:E;
    unfold hasClass in *; cbn [classes]; [exact E|].
  rewrite existsb_app. cbn [existsb]. rewrite String.eqb_refl.
  now rewrite orb_true_r.
Qed.

Lemma el_stripAll ids n :
  el (stripAll ids n) = fold_left (fun e i => upd i unmark e) ids (el n).
Proof.
  unfold stripAll. revert n. induction ids as [|i ids IH]; intros n;
    [reflexivity|]. cbn [fold_left]. now rewrite IH, el_updateElem.
Qed.

Lemma descendants_stripAll ids c :
  descendants (stripAll ids c) = map (stripAll ids) (descendants c).
Proof.
  unfold stripAll. revert c. induction ids as [|i ids IH]; intros c.
  - cbn. now rewrite map_id.
  - cbn [fold_left]. rewrite IH, descendants_updateElem, map_map. reflexivity.
Qed.

Lemma subtrees_stripAll ids c :
  subtrees (stripAll ids c) = map (stripAll ids) (subtrees c).
Proof.
  unfold stripAll. revert c. induction ids as [|i ids IH]; intros c.
  - cbn. now rewrite map_id.
  - cbn [fold_left]. rewrite IH, subtrees_updateElem, map_map. reflexivity.
Qed.

Lemma fold_upd_unmark ids e :
  nid (fold_left (fun e i => upd i unmark e) ids e) = nid e
  /\ hasClass marker (fold_left (fun e i => upd i unmark e) ids e)
     = hasClass marker e && negb (existsb (Nat.eqb (nid e)) ids).
Proof.
  revert e. induction ids as [|i ids IH]; intros e; cbn [fold_left existsb].
  - now rewrite andb_true_r.
  - destruct (IH (upd i unmark e)) as [Hn Hc]. rewrite Hn, Hc.
    rewrite nid_upd by apply keepsId_classListRemove. split; [reflexivity|].
    unfold upd. destruct (Nat.eqb (nid e) i) eqn:E; cbn [orb negb].
    + now rewrite hasClass_unmark, andb_false_r.
    + reflexivity.
Qed.

Lemma idOf_stripAll ids n : idOf (stripAll ids n) = idOf n.
Proof. unfold idOf. rewrite el_stripAll. apply fold_upd_unmark. Qed.

Lemma marked_stripAll ids n :
  matches (SelClass marker) (stripAll ids n)
  = matches (SelClass marker) n && negb (existsb (Nat.eqb (idOf n)) ids).
Proof. cbn [matches]. rewrite el_stripAll. apply fold_upd_unmark. Qed.

Lemma in_markedIds c n :
  In n (descendants c) -> matches (SelClass marker) n = true ->
  existsb (Nat.eqb (idOf n)) (markedIds c) = true.
Proof.
  intros Hn Hm. apply existsb_exists. exists (idOf n).
  split; [|apply Nat.eqb_refl]. unfold markedIds. apply in_map.
  unfold querySelectorAll. now apply filter_In.
Qed.

Lemma filter_map_nil {A} (p : A -> bool) (h : A -> A) (l : list A) :
  (forall a, In a l -> p (h a) = false) -> filter p (map h l) = [].
Proof.
  induction l as [|a l IH]; intros H; [reflexivity|]. cbn.
  rewrite (H a) by now left. apply IH. intros b Hb. apply H. now right.
Qed.

Lemma filter_map_le {A} (p : A -> bool) (h : A -> A) (l : list A) :
  (forall a, p (h a) = true -> p a = true) ->
  (List.length (filter p (map h l)) <= List.length (filter p l))%nat.
Proof.
  intros H. induction l as [|a l IH]; [reflexivity|]. cbn.
  destruct (p (h a)) eqn:E.
  - rewrite (H a E). cbn. lia.
  - destruct (p a); cbn; lia.
Qed.

(** Once the loop has gone through every marked element, none is left. *)
Lemma markedIds_stripAll c : markedIds (stripAll (markedIds c) c) = [].
Proof.
  unfold markedIds at 1. unfold querySelectorAll.
  rewrite descendants_stripAll, filter_map_nil; [reflexivity|].
  intros n Hn. rewrite marked_stripAll.
  destruct (matches (SelClass marker) n) eqn:E; [|reflexivity].
  now rewrite (in_markedIds c n Hn E).
Qed.

(** Part of the way through the loop, there are no more marked
    elements than at the start. *)
Lemma markedIds_stripAll_le ids c :
  (List.length (markedIds (stripAll ids c)) <= List.length (markedIds c))%nat.
Proof.
  unfold markedIds, querySelectorAll. rewrite !length_map, descendants_stripAll.
  apply filter_map_le. intros n. rewrite marked_stripAll.
  now intros [H _]%andb_true_iff.
Qed.

Lemma wellFormed_stripAll ids c : wellFormed c -> wellFormed (stripAll ids c).
Proof.
  unfold wellFormed. rewrite subtrees_stripAll, map_map.
  now rewrite (map_ext _ idOf (idOf_stripAll ids)).
Qed.

Lemma wellFormed_descendants c :
  wellFormed c -> NoDup (map idOf (descendants c)).
Proof. destruct c as [e kids]. unfold wellFormed. cbn. now inversion 1. Qed.

Lemma filter_eqb_NoDup (b : nat) (l : list nat) :
  NoDup l -> filter (Nat.eqb b) l = if existsb (Nat.eqb b) l then [b] else [].
Proof.
  induction 1 as [|a l Ha Hl IH]; [reflexivity|]. cbn.
  destruct (Nat.eqb_spec b a) as [->|Hne]; cbn; [|exact IH].
  rewrite IH. destruct (existsb (Nat.eqb a) l) eqn:E; [|reflexivity].
  apply existsb_exists in E as (x & Hx & ->%Nat.eqb_eq). contradiction.
Qed.

Lemma mark_list b (l : list node) :
  (forall n, In n l -> matches (SelClass marker) n = false) ->
  map idOf (filter (matches (SelClass marker))
                   (map (updateElem b (classListAdd marker)) l))
  = filter (Nat.eqb b) (map idOf l).
Proof.
  induction l as [|n l IH]; intros H; [reflexivity|].
  specialize (IH (fun m Hm => H m (or_intror Hm))).
  assert (Hn : hasClass marker (el n) = false) by (apply (H n); now left).
  cbn [map filter matches]. rewrite el_updateElem. unfold upd.
  change (nid (el n)) with (idOf n). rewrite (Nat.eqb_sym b).
  destruct (Nat.eqb_spec (idOf n) b) as [E|E].
  - rewrite hasClass_mark. cbn [map]. rewrite IH. f_equal.
    unfold idOf. rewrite el_updateElem. unfold upd.
    fold (idOf n). rewrite E, Nat.eqb_refl. exact E.
  - rewrite Hn. exact IH.
Qed.

Lemma markedIds_nil c n :
  markedIds c = [] -> In n (descendants c) ->
  matches (SelClass marker) n = false.
Proof.
  unfold markedIds, querySelectorAll. intros H Hn.
  apply map_eq_nil in H.
  destruct (matches (SelClass marker) n) eqn:E; [|reflexivity].
  assert (Hin : In n (filter (matches (SelClass marker)) (descendants c)))
    by now apply filter_In.
  rewrite H in Hin. contradiction.
Qed.

(** Marking [b] in a tree without marks leaves [b], if it is in the
    tree, as the only marked element. *)
Lemma markedIds_mark b c :
  markedIds c = [] -> wellFormed c ->
  markedIds (updateElem b (classListAdd marker) c)
  = if existsb (Nat.eqb b) (map idOf (descendants c)) then [b] else [].
Proof.
  intros Hnone Hwf. rewrite <- (filter_eqb_NoDup b) by
    now apply wellFormed_descendants.
  unfold markedIds at 1. unfold querySelectorAll.
  rewrite descendants_updateElem. apply mark_list.
  intros n. now apply markedIds_nil.
Qed.
End Marker.

Section Selection.
Import Dom Editor Marks.

Lemma clearTargets_markedIds (s : state) :
  clearTargets s
  = match containerRef s with Some c => markedIds c | None => [] end.
Proof. reflexivity. Qed.

Lemma clearLoop_container (ids : list nat) (s : state) :
  containerRef (fold_left clearMarker ids s)
  = option_map (stripAll ids) (containerRef s).
Proof.
  revert s. induction ids as [|i ids IH]; intros s; cbn [fold_left].
  - now destruct (containerRef s).
  - rewrite IH. cbn [clearMarker mutateLive setContainer containerRef].
    now destruct (containerRef s).
Qed.

Lemma clearLoop_frame (ids : list nat) (s : state) :
  let s' := fold_left clearMarker ids s in
  selectedEl s' = selectedEl s /\ detached s' = detached s
  /\ transform s' = transform s /\ layers s' = layers s.
Proof.
  revert s. induction ids as [|i ids IH]; intros s; cbn [fold_left];
    [now repeat split|].
  destruct (IH (clearMarker s i)) as (H1 & H2 & H3 & H4).
  cbn zeta. now rewrite H1, H2, H3, H4.
Qed.

Lemma scanl_clear_container (ids : list nat) (s st : state) :
  In st (scanl clearMarker ids s) ->
  exists ids', containerRef st = option_map (stripAll ids') (containerRef s).
Proof.
  revert s. induction ids as [|i ids IH]; intros s; cbn [scanl];
    [contradiction|].
  intros [<- | Hin].
  - exists [i]. cbn. now destruct (containerRef s).
  - destruct (IH _ Hin) as (ids' & H). exists (i :: ids'). rewrite H.
    cbn [clearMarker mutateLive setContainer containerRef].
    now destruct (containerRef s).
Qed.

Lemma wellFormed_updateElem i g c :
  keepsId g -> wellFormed c -> wellFormed (updateElem i g c).
Proof.
  intros Hg. unfold wellFormed. rewrite subtrees_updateElem, map_map.
  erewrite map_ext; [exact (fun H => H)|]. intros n. unfold idOf.
  now rewrite el_updateElem, nid_upd.
Qed.

Lemma descendant_ids_updateElem i g c :
  keepsId g ->
  map idOf (descendants (updateElem i g c)) = map idOf (descendants c).
Proof.
  intros Hg. rewrite descendants_updateElem, map_map. apply map_ext.
  intros n. unfold idOf. now rewrite el_updateElem, nid_upd.
Qed.

Lemma descendant_ids_stripAll ids c :
  map idOf (descendants (stripAll ids c)) = map idOf (descendants c).
Proof.
  rewrite descendants_stripAll, map_map. apply map_ext, idOf_stripAll.
Qed.

Lemma selectElement_container (element : option nat) (s : state) (c : node) :
  containerRef s = Some c ->
  containerRef (selectElement element s)
  = Some match element with
         | Some b => selected b c
         | None => stripAll (markedIds c) c
         end
  /\ selectedEl (selectElement element s) = element.
Proof.
  intros Hc. unfold selectElement, clearSelection. rewrite Hc.
  rewrite clearTargets_markedIds, Hc.
  destruct element as [b|];
    cbn [containerRef selectedEl bumpUpdateTrigger setSelectedEl mutateLive
         setContainer];
    rewrite ?clearLoop_container, Hc; now split.
Qed.

Lemma markedIds_selected b c :
  wellFormed c ->
  markedIds (selected b c)
  = if existsb (Nat.eqb b) (map idOf (descendants c)) then [b] else [].
Proof.
  intros Hwf. unfold selected.
  rewrite markedIds_mark, descendant_ids_stripAll;
    [reflexivity | apply markedIds_stripAll | now apply wellFormed_stripAll].
Qed.

Lemma wellFormed_selected b c : wellFormed c -> wellFormed (selected b c).
Proof.
  intros Hwf. apply wellFormed_updateElem; [apply keepsId_classListAdd|].
  now apply wellFormed_stripAll.
Qed.

Lemma markedIds_selected_only b c j :
  wellFormed c -> In j (markedIds (selected b c)) -> j = b.
Proof.
  intros Hwf. rewrite markedIds_selected by assumption.
  destruct (existsb _ _); [|contradiction]. now intros [<- | []].
Qed.

Lemma markedIds_selected_length b c :
  wellFormed c -> (List.length (markedIds (selected b c)) <= 1)%nat.
Proof.
  intros Hwf. rewrite markedIds_selected by assumption.
  destruct (existsb _ _); cbn; lia.
Qed.

Lemma markedIds_selected_in b c :
  wellFormed c -> In b (map idOf (descendants c)) ->
  markedIds (selected b c) = [b].
Proof.
  intros Hwf Hin. rewrite markedIds_selected by assumption.
  destruct (existsb _ _) eqn:E; [reflexivity|].
  assert (existsb (Nat.eqb b) (map idOf (descendants c)) = true)
    by (apply existsb_exists; exists b; split; [exact Hin|apply Nat.eqb_refl]).
  congruence.
Qed.

Lemma length_le_1_eq (l : list nat) (j k : nat) :
  (List.length l <= 1)%nat -> In j l -> In k l -> j = k.
Proof.
  intros H Hj Hk. destruct l as [|x [|y l]]; cbn in *;
    [contradiction| |lia].
  destruct Hj as [<- | []], Hk as [<- | []]. reflexivity.
Qed.
End Selection.

(** ** Serialising the document *)

Section Serializer.
Import Dom Editor Marks.

Lemma updateNth_last {A} (g : A -> A) (l : list A) (v : A) :
  updateNth (List.length l) g (l ++ [v])%list = (l ++ [g v])%list.
Proof. induction l as [|a l IH]; cbn; [reflexivity|now rewrite IH]. Qed.

Lemma stripLoop_detached (k : nat) (ids : list nat) (s : state) :
  let s' := fold_left (fun st i => mutateDetached k i unmark st) ids s in
  detached s' = updateNth k (stripAll ids) (detached s)
  /\ containerRef s' = containerRef s
  /\ selectedEl s' = selectedEl s
  /\ layers s' = layers s
  /\ transform s' = transform s.
Proof.
  revert s. induction ids as [|i ids IH]; intros s; cbn [fold_left].
  - cbn zeta. repeat split. unfold stripAll. cbn [fold_left].
    generalize (detached s). clear. intros l. revert k.
    induction l as [|a l IH]; intros [|k]; cbn; try reflexivity.
    now rewrite <- IH.
  - destruct (IH (mutateDetached k i unmark s)) as (H1 & H2 & H3 & H4 & H5).
    cbn zeta. rewrite H1, H2, H3, H4, H5. repeat split.
    cbn [mutateDetached setDetached detached].
    generalize (detached s). clear. intros l. revert k.
    induction l as [|a l IH]; intros [|k]; cbn; try reflexivity.
    now rewrite IH.
Qed.

(** Serialising touches the copy only. *)
Lemma getSvgContent_frame (s : state) :
  containerRef (snd (getSvgContent s)) = containerRef s.
Proof.
  unfold getSvgContent.
  destruct (containerRef s) as [c|] eqn:Hc; [|exact Hc].
  destruct (querySelector (SelTags ["svg"]) c); [|exact Hc].
  cbn [snd].
  match goal with
  | |- context [fold_left ?g ?ids ?s1] =>
      destruct (stripLoop_detached (List.length (detached s)) ids s1)
        as (_ & H1 & _)
  end.
  unfold unmark in H1. rewrite H1. exact Hc.
Qed.

Lemma fold_upd_other (g : elem -> elem) (ids : list nat) (e : elem) :
  ~ In (nid e) ids -> fold_left (fun e i => upd i g e) ids e = e.
Proof.
  revert e. induction ids as [|i ids IH]; intros e Hn; [reflexivity|].
  cbn [fold_left]. unfold upd at 2.
  destruct (Nat.eqb_spec (nid e) i) as [E|E]; [exfalso; apply Hn; now left|].
  apply IH. intros H. apply Hn. now right.
Qed.

Lemma markedIds_descendants c j :
  In j (markedIds c) -> In j (map idOf (descendants c)).
Proof.
  unfold markedIds, querySelectorAll. intros H.
  apply in_map_iff in H as (n & <- & Hn). apply in_map.
  now apply filter_In in Hn.
Qed.

(** The marker is removed below the root of the copy only. *)
Lemma stripAll_root c :
  wellFormed c -> el (stripAll (markedIds c) c) = el c.
Proof.
  intros Hwf. rewrite el_stripAll. apply fold_upd_other. intros Hin.
  apply markedIds_descendants in Hin. destruct c as [e kids].
  unfold wellFormed in Hwf. cbn in Hwf. inversion Hwf as [|? ? Hnot _].
  apply Hnot. exact Hin.
Qed.

(** C3, as amended.  When the container holds an svg root,
    [getSvgContent] returns the serialisation of a copy of that root
    in which no element below the root carries the marker; the root
    element of the copy is the root as it is in the document (with
    distinct element objects); the copy is a detached tree, and the
    live document, the selection, the layers and the transform state
    are what they were. *)
Theorem getSvgContent_spec (s : state) :
  (forall c svg,
      containerRef s = Some c ->
      querySelector (SelTags ["svg"]) c = Some svg ->
      let clone := stripAll (markedIds svg) svg in
      fst (getSvgContent s) = serializeToString clone
      /\ (forall n, In n (descendants clone) ->
                    hasClass marker (el n) = false)
      /\ (wellFormed svg -> el clone = el svg)
      /\ detached (snd (getSvgContent s)) = (detached s ++ [clone])%list)
  /\ containerRef (snd (getSvgContent s)) = containerRef s
  /\ selectedEl (snd (getSvgContent s)) = selectedEl s
  /\ layers (snd (getSvgContent s)) = layers s
  /\ transform (snd (getSvgContent s)) = transform s.
Proof.
  unfold getSvgContent.
  destruct (containerRef s) as [c|] eqn:Hc;
    [|split; [intros; discriminate|now repeat split]].
  destruct (querySelector (SelTags ["svg"]) c) as [svg|] eqn:Hq;
    [|split; [intros; congruence|now repeat split]].
  cbn [fst snd].
  match goal with
  | |- context [fold_left ?g ?ids ?s1] =>
      destruct (stripLoop_detached (List.length (detached s)) ids s1)
        as (Hd & H1 & H2 & H3 & H4)
  end.
  unfold cloneNode, unmark in *. fold idOf in *. fold (markedIds svg) in *.
  cbn [detached containerRef selectedEl layers transform setDetached]
    in Hd, H1, H2, H3, H4.
  rewrite updateNth_last in Hd.
  split; [|now rewrite H1, H2, H3, H4, Hc].
  intros c' svg' [= <-] Hq'. rewrite Hq in Hq'. injection Hq' as <-.
  cbn zeta.
  rewrite Hd, nth_error_app2, Nat.sub_diag by lia. cbn [nth_error].
  split; [reflexivity|].
  split; [|split; [apply stripAll_root|reflexivity]].
  intros n Hn. apply (markedIds_nil (stripAll (markedIds svg) svg));
    [apply markedIds_stripAll|exact Hn].
Qed.
End Serializer.

Lemma getSvgContent_spec_witness :
fst (Editor.getSvgContent Sample.editing)
= Dom.serializeToString
    (Marks.stripAll [2%nat] Sample.svg)
/\ Editor.containerRef (snd (Editor.getSvgContent Sample.editing))
   = Some Sample.container.
Proof.
destruct (getSvgContent_spec Sample.editing) as (H & Hc & _).
destruct (H Sample.container Sample.svg eq_refl eq_refl) as (Hout & _).
split; [exact Hout|exact Hc].
Defined.

(** C3 as stated fails when the svg root itself carries the marker. *)
Lemma getSvgContent_keeps_root_marker :
exists clone,
  fst (Editor.getSvgContent Sample.markedRootState)
  = Dom.serializeToString clone
  /\ Dom.hasClass Editor.marker (Dom.el clone) = true
  /\ fst (Editor.getSvgContent Sample.markedRootState)
     = "<svg class=" ++ Dom.dquote ++ "svg-selected" ++ Dom.dquote
       ++ "><rect></rect></svg>".
Proof.
exists (Dom.Node (Dom.mkElem 1 "svg" [Editor.marker] [] [] "")
          [Dom.Node (Dom.mkElem 2 "rect" [] [] [] "") []]).
repeat split.
Qed.

(** ** The marker through the callbacks of the editor *)

Section Invariant.
Import Dom Editor Marks Steps.

Lemma sublist_refl {A} (l : list A) : sublist l l.
Proof. induction l; [apply sub_nil|apply sub_keep]; assumption. Qed.

Lemma sublist_app {A} (l1 l2 k1 k2 : list A) :
  sublist l1 l2 -> sublist k1 k2 -> sublist (l1 ++ k1) (l2 ++ k2).
Proof.
  induction 1; cbn [app]; intros Hk;
    [exact Hk | apply sub_skip | apply sub_keep]; auto.
Qed.

Lemma sublist_nil_l {A} (l : list A) : sublist [] l.
Proof. induction l; [apply sub_nil|apply sub_skip]; assumption. Qed.

Lemma sublist_map {A B} (h : A -> B) (l1 l2 : list A) :
  sublist l1 l2 -> sublist (map h l1) (map h l2).
Proof.
  induction 1; cbn; [apply sub_nil | apply sub_skip | apply sub_keep];
    assumption.
Qed.

Lemma sublist_filter {A} (p : A -> bool) (l1 l2 : list A) :
  sublist l1 l2 -> sublist (filter p l1) (filter p l2).
Proof.
  induction 1 as [|v l1 l2 H IH|v l1 l2 H IH]; cbn; [apply sub_nil| |].
  - destruct (p v); [apply sub_skip|]; assumption.
  - destruct (p v); [apply sub_keep|]; assumption.
Qed.

Lemma sublist_length {A} (l1 l2 : list A) :
  sublist l1 l2 -> (List.length l1 <= List.length l2)%nat.
Proof. induction 1; cbn; lia. Qed.

Lemma sublist_In {A} (l1 l2 : list A) (a : A) :
  sublist l1 l2 -> In a l1 -> In a l2.
Proof. induction 1; cbn; intuition. Qed.

Lemma sublist_NoDup {A} (l1 l2 : list A) :
  sublist l1 l2 -> NoDup l2 -> NoDup l1.
Proof.
  induction 1; intros Hn; [constructor| |].
  - inversion Hn; auto.
  - inversion Hn as [|? ? Hnot Hn']; subst. constructor; [|auto].
    intros Hin. apply Hnot. eapply sublist_In; eassumption.
Qed.

(** [remove()] leaves out elements and changes none. *)
Lemma removeElem_kids i e kids :
  Forall (fun k => sublist (map el (subtrees (removeElem i k)))
                           (map el (subtrees k))) kids ->
  sublist (elemsBelow (removeElem i (Node e kids)))
          (elemsBelow (Node e kids)).
Proof.
  unfold elemsBelow, descendants. cbn [removeElem children].
  induction 1 as [|k kids Hk _ IHk]; [apply sub_nil|].
  cbn [flat_map]. rewrite map_app.
  destruct (Nat.eqb (nid (el k)) i).
  - change (map el (flat_map subtrees ?l))
      with ([] ++ map el (flat_map subtrees l))%list at 1.
    apply sublist_app; [apply sublist_nil_l|exact IHk].
  - cbn [flat_map]. rewrite map_app. apply sublist_app; assumption.
Qed.

Lemma removeElem_sublist i c :
  sublist (map el (subtrees (removeElem i c))) (map el (subtrees c)).
Proof.
  induction c as [e kids IH] using node_ind'.
  pose proof (removeElem_kids i e kids IH) as H.
  cbn [removeElem subtrees map]. apply sub_keep. exact H.
Qed.

Lemma removeElem_below i c :
  sublist (elemsBelow (removeElem i c)) (elemsBelow c).
Proof.
  destruct c as [e kids]. apply removeElem_kids.
  apply Forall_forall. intros k _. apply removeElem_sublist.
Qed.

Lemma wellFormed_removeElem i c : wellFormed c -> wellFormed (removeElem i c).
Proof.
  unfold wellFormed. apply sublist_NoDup.
  change idOf with (fun n => nid (el n)). rewrite <- !(map_map el nid).
  apply sublist_map, removeElem_sublist.
Qed.

Lemma markedIds_elems c :
  markedIds c = map nid (filter (hasClass marker) (elemsBelow c)).
Proof.
  unfold markedIds, querySelectorAll, elemsBelow.
  induction (descendants c) as [|n l IH]; [reflexivity|]. cbn.
  destruct (hasClass marker (el n)); cbn; now rewrite IH.
Qed.

Lemma markedIds_removeElem i c :
  (List.length (markedIds (removeElem i c)) <= List.length (markedIds c))%nat.
Proof.
  rewrite !markedIds_elems, !length_map.
  apply sublist_length, sublist_filter, removeElem_below.
Qed.

Lemma markedIds_updateElem_frame i g c :
  keepsId g -> (forall e, classes (g e) = classes e) ->
  markedIds (updateElem i g c) = markedIds c.
Proof.
  intros Hid Hcl. unfold markedIds, querySelectorAll.
  rewrite descendants_updateElem.
  induction (descendants c) as [|n l IH]; [reflexivity|]. cbn [map filter].
  assert (Hm : matches (SelClass marker) (updateElem i g n)
               = matches (SelClass marker) n).
  { cbn [matches]. rewrite el_updateElem. unfold upd, hasClass.
    destruct (Nat.eqb _ _); [now rewrite Hcl|reflexivity]. }
  rewrite Hm. destruct (matches (SelClass marker) n); [|exact IH].
  cbn [map]. rewrite IH. f_equal. unfold idOf.
  now rewrite el_updateElem, nid_upd.
Qed.

Lemma scanLayers_containerRef (s : state) :
  containerRef (scanLayers s) = containerRef s.
Proof.
  unfold scanLayers. destruct (containerRef s) as [c|] eqn:Hc; [|exact Hc].
  destruct (querySelector _ c); exact Hc.
Qed.

Lemma oneMarker_same (s s' : state) :
  containerRef s' = containerRef s -> oneMarker s -> oneMarker s'.
Proof. unfold oneMarker. now intros ->. Qed.

Lemma oneMarker_mutate (s : state) i g :
  keepsId g -> (forall e, classes (g e) = classes e) ->
  oneMarker s -> oneMarker (mutateLive i g s).
Proof.
  intros Hid Hcl. unfold oneMarker, mutateLive.
  cbn [containerRef setContainer].
  destruct (containerRef s) as [c|]; [|easy]. cbn [option_map].
  intros [Hwf Hlen]. split; [now apply wellFormed_updateElem|].
  now rewrite markedIds_updateElem_frame.
Qed.

Lemma oneMarker_select element (s : state) :
  oneMarker s -> oneMarker (selectElement element s).
Proof.
  unfold oneMarker at 1. destruct (containerRef s) as [c|] eqn:Hc.
  - intros [Hwf Hlen].
    destruct (selectElement_container element s c Hc) as [Hc' _].
    unfold oneMarker. rewrite Hc'. destruct element as [b|].
    + split; [now apply wellFormed_selected|].
      now apply markedIds_selected_length.
    + split; [now apply wellFormed_stripAll|].
      rewrite markedIds_stripAll. cbn. lia.
  - intros _. unfold selectElement. rewrite Hc. unfold oneMarker.
    now rewrite Hc.
Qed.

Lemma oneMarker_apply br newState (s : state) :
  oneMarker s -> oneMarker (applyTransform br newState s).
Proof.
  intros H. unfold applyTransform. destruct (selectedEl s) as [i|]; [|exact H].
  destruct (pivot br i) as [cx cy].
  match goal with
  | |- oneMarker (bumpUpdateTrigger (setTransform _ ?s1)) =>
      apply (oneMarker_same s1); [reflexivity|]
  end.
  apply oneMarker_mutate; [apply keepsId_setAttribute|reflexivity|exact H].
Qed.

(** The marker invariant holds after every callback of the editor. *)
Lemma oneMarker_step (s s' : state) : step s s' -> oneMarker s -> oneMarker s'.
Proof.
  intros Hstep H. destruct Hstep.
  - now apply oneMarker_select.
  - unfold handleMouseDown. destruct (negb (isEditing s)); [exact H|].
    destruct element as [i|].
    + destruct (match selectedEl s with
                | Some j => Nat.eqb i j | None => false end);
        [exact H|now apply oneMarker_select].
    + destruct inContainer; [now apply oneMarker_select|exact H].
  - unfold handleWindowMouseMove.
    destruct (isDragging s); [|exact H].
    destruct (selectedEl s); [|exact H].
    destruct (dragStartRef s); [|exact H].
    destruct (containerRef s) as [c|] eqn:Hc; [|exact H].
    destruct (querySelector _ c); [|exact H].
    destruct (getScreenCTM br); [|exact H].
    now apply oneMarker_apply.
  - exact H.
  - unfold selectionEffect. destruct (selectedEl s); exact H.
  - now apply oneMarker_apply.
  - unfold updateAttribute. destruct (selectedEl s) as [i|]; [|exact H].
    match goal with
    | |- oneMarker (setLayers _ (bumpUpdateTrigger ?s1)) =>
        apply (oneMarker_same s1); [reflexivity|]
    end.
    destruct (match value with
              | Some v => String.eqb v "none" | None => true end);
      (apply oneMarker_mutate;
       [apply keepsId_writeAttr
       |intros e; unfold writeAttr; destruct (String.eqb _ _); reflexivity
       |exact H]).
  - unfold handleDeleteElement. destruct (selectedEl s) as [i|]; [|exact H].
    match goal with
    | |- oneMarker (scanLayers ?s1) =>
        apply (oneMarker_same s1); [apply scanLayers_containerRef|]
    end.
    unfold oneMarker in *. cbn [containerRef setSelectedEl setContainer].
    destruct (containerRef s) as [c|]; [|easy]. cbn [option_map].
    destruct H as [Hwf Hlen]. split; [now apply wellFormed_removeElem|].
    etransitivity; [apply markedIds_removeElem|exact Hlen].
  - apply (oneMarker_same s); [apply scanLayers_containerRef|exact H].
  - apply (oneMarker_same s); [|exact H].
    apply (getSvgContent_frame s).
Qed.

Lemma oneMarker_steps (s s' : state) :
  steps s s' -> oneMarker s -> oneMarker s'.
Proof.
  induction 1 as [|s s1 s2 _ IH Hstep]; intros H; [exact H|].
  apply (oneMarker_step s1 s2 Hstep). now apply IH.
Qed.

End Invariant.


(** ** Dragging the selected element *)

Section Dragging.
Import Dom Editor Marks Values.
Variable br : Browser.

Lemma handleWindowMouseMove_unfold (s : state) (i : nat) (ds : DragStart)
    (c svg : node) (ctm : DOMMatrix) (px py : Q) :
  isDragging s = true -> selectedEl s = Some i -> dragStartRef s = Some ds ->
  containerRef s = Some c ->
  querySelector (SelTags ["svg"]) c = Some svg ->
  getScreenCTM br = Some ctm ->
  handleWindowMouseMove br px py s
  = let inverseCtm := inverse ctm in
    let loc := matrixTransform px py inverseCtm in
    let startLoc := matrixTransform (startX ds) (startY ds) inverseCtm in
    applyTransform br
      (mkTransform
         (roundTenth (qlift2 Qplus (numToQ (initialX ds))
                        (qlift2 Qminus (fst loc) (fst startLoc))))
         (roundTenth (qlift2 Qplus (numToQ (initialY ds))
                        (qlift2 Qminus (snd loc) (snd startLoc))))
         (scale (transform s)) (rotate (transform s)))
      s.
Proof.
  intros H1 H2 H3 H4 H5 H6. unfold handleWindowMouseMove.
  now rewrite H1, H2, H3, H4, H5, H6.
Qed.

End Dragging.


(** ** The three patterns on a list of transform functions *)

Section Matcher.
Import Tokens.

Lemma regexMatch_fail (re : regex) (c : ascii) (s : string) :
  matchHere re [] (String c s) = None ->
  regexMatch re (String c s) = regexMatch re s.
Proof. intros H. cbn [regexMatch]. now rewrite H. Qed.

Lemma regexMatch_here (re : regex) (s : string) (caps : list string) :
  matchHere re [] s = Some caps -> regexMatch re s = Some caps.
Proof. intros H. destruct s; cbn [regexMatch]; now rewrite H. Qed.

Lemma regexMatch_empty (p : string) (c : ascii) (re : regex) :
  regexMatch (Lit (String c p) :: re) "" = None.
Proof. reflexivity. Qed.

(** A run of the class followed by something outside it: the greedy
    repetition takes the whole run when the rest of the pattern then
    succeeds. *)
Lemma plusMatch_stop cls k taken rest :
  stopsAt cls rest = true -> plusMatch cls k taken rest = None.
Proof.
  destruct rest as [|c rest]; [reflexivity|]. cbn.
  now intros ->%negb_true_iff.
Qed.

Lemma plusMatch_accept cls k tok rest taken r :
  allChars cls tok = true -> tok <> "" -> stopsAt cls rest = true ->
  k (taken ++ tok) rest = Some r ->
  plusMatch cls k taken (tok ++ rest) = Some r.
Proof.
  revert taken. induction tok as [|c tok IH]; intros taken Hall Hne Hstop Hk;
    [contradiction|].
  cbn in Hall. apply andb_true_iff in Hall as [Hc Hall].
  cbn [append plusMatch]. rewrite Hc.
  destruct tok as [|c' tok].
  - cbn [append]. rewrite plusMatch_stop by assumption. exact Hk.
  - rewrite IH; [reflexivity|assumption|discriminate|assumption|].
    now rewrite append_assoc.
Qed.

(** When the rest of the pattern rejects every text that starts with
    a character from [q], no split of a run of [q]-characters works. *)
Lemma plusMatch_reject cls k (q : ascii -> bool) tok c0 rest taken :
  (forall cap c s, q c = true -> k cap (String c s) = None) ->
  allChars q tok = true -> q c0 = true -> cls c0 = false ->
  plusMatch cls k taken (tok ++ String c0 rest) = None.
Proof.
  intros Hk. revert taken. induction tok as [|c tok IH];
    intros taken Hall Hq Hcls; cbn [append plusMatch].
  - now rewrite Hcls.
  - cbn in Hall. apply andb_true_iff in Hall as [Hc Hall].
    destruct (cls c); [|reflexivity].
    rewrite IH by assumption.
    destruct tok as [|c' tok]; cbn [append]; apply Hk; [assumption|].
    cbn in Hall. now apply andb_true_iff in Hall as [? _].
Qed.

(** Text whose characters all differ from the first character of the
    pattern is passed over. *)
Lemma regexMatch_skip (a0 : ascii) (p : string) (re : regex)
    (tok rest : string) :
  allChars (fun c => negb (Ascii.eqb a0 c)) tok = true ->
  regexMatch (Lit (String a0 p) :: re) (tok ++ rest)
  = regexMatch (Lit (String a0 p) :: re) rest.
Proof.
  induction tok as [|c tok IH]; intros Hall; [reflexivity|].
  cbn in Hall. apply andb_true_iff in Hall as [Hc Hall].
  cbn [append]. rewrite regexMatch_fail; [now apply IH|].
  cbn. apply negb_true_iff in Hc. now rewrite Hc.
Qed.

Lemma allChars_impl (p q : ascii -> bool) (s : string) :
  (forall c, p c = true -> q c = true) ->
  allChars p s = true -> allChars q s = true.
Proof.
  intros H. induction s as [|c s IH]; [reflexivity|]. cbn.
  intros [Hc Hs]%andb_true_iff. now rewrite (H c Hc), IH.
Qed.

Lemma numChar_not (c : ascii) :
  isNumChar c = true ->
  negb (Ascii.eqb "t" c) = true /\ negb (Ascii.eqb "r" c) = true
  /\ negb (Ascii.eqb "s" c) = true /\ isSepChar c = false
  /\ negb (Ascii.eqb ")" c) = true.
Proof.
  destruct c as [[] [] [] [] [] [] [] []]; cbn; intros H;
    try discriminate H; repeat split.
Qed.

Lemma sepChar_not (c : ascii) :
  isSepChar c = true ->
  negb (Ascii.eqb "t" c) = true /\ negb (Ascii.eqb "r" c) = true
  /\ negb (Ascii.eqb "s" c) = true /\ isNumChar c = false
  /\ negb (Ascii.eqb ")" c) = true.
Proof.
  destruct c as [[] [] [] [] [] [] [] []]; cbn; intros H;
    try discriminate H; repeat split.
Qed.

Lemma numTok_spec (s : string) :
  numTok s = true -> allChars isNumChar s = true /\ s <> "".
Proof.
  unfold numTok. intros [H1 H2]%andb_true_iff. split; [exact H1|].
  intros ->. discriminate.
Qed.

Lemma sepTok_spec (s : string) :
  sepTok s = true ->
  allChars isSepChar s = true
  /\ exists c s', s = String c s' /\ isSepChar c = true.
Proof.
  unfold sepTok. intros [H1 H2]%andb_true_iff. split; [exact H1|].
  destruct s as [|c s']; [discriminate|]. exists c, s'.
  cbn in H1. now apply andb_true_iff in H1 as [? _].
Qed.
End Matcher.

Section Patterns.
Import Svg Editor Tokens.

Lemma regexMatch_skip_num a0 p re tok rest :
  (a0 = "t" \/ a0 = "r" \/ a0 = "s")%char ->
  numTok tok = true ->
  regexMatch (Lit (String a0 p) :: re) (tok ++ rest)
  = regexMatch (Lit (String a0 p) :: re) rest.
Proof.
  intros Ha [Hall _]%numTok_spec. apply regexMatch_skip.
  revert Hall. apply allChars_impl. intros c Hc.
  destruct (numChar_not c Hc) as (Ht & Hr & Hs & _).
  now destruct Ha as [-> | [-> | ->]].
Qed.

Lemma regexMatch_skip_sep a0 p re tok rest :
  (a0 = "t" \/ a0 = "r" \/ a0 = "s")%char ->
  sepTok tok = true ->
  regexMatch (Lit (String a0 p) :: re) (tok ++ rest)
  = regexMatch (Lit (String a0 p) :: re) rest.
Proof.
  intros Ha [Hall _]%sepTok_spec. apply regexMatch_skip.
  revert Hall. apply allChars_impl. intros c Hc.
  destruct (sepChar_not c Hc) as (Ht & Hr & Hs & _).
  now destruct Ha as [-> | [-> | ->]].
Qed.

Variable sep : string.
Hypothesis Hsep : sepTok sep = true.

Local Abbreviation show := (showFunc (fun t : string => t) sep).

Ltac tokens H :=
  cbn [argsOk] in H;
  repeat match type of H with
         | (_ && _) = true => 
             let H1 := fresh "Htok" in
             apply andb_true_iff in H as [H1 H]
         end.

Ltac pass :=
  repeat first
    [ rewrite regexMatch_fail by reflexivity
    | rewrite regexMatch_skip_num by (auto; fail)
    | rewrite regexMatch_skip_sep by (auto; fail) ].

Ltac flatten := repeat rewrite append_assoc; cbn [append].

(** [scale\(([-\d.]+)\)] reads a one-argument scale and nothing else. *)
Lemma scale_item (fn : tfunc string) (rest : string) :
  argsOk numTok fn = true ->
  regexMatch scaleRe (show fn ++ rest)
  = match fn with
    | Scale sx None => Some [sx]
    | _ => regexMatch scaleRe rest
    end.
Proof.
  intros Hok. unfold scaleRe.
  destruct fn as [tx [ty|] | an [[cx cy]|] | sx [sy|]]; cbn [showFunc];
    flatten.
  - apply andb_true_iff in Hok as [H1 H2]. cbn in H2. now pass.
  - apply andb_true_iff in Hok as [H1 H2]. now pass.
  - cbn in Hok. apply andb_true_iff in Hok as [H1 [H2 H3]%andb_true_iff].
    now pass.
  - apply andb_true_iff in Hok as [H1 H2]. now pass.
  - apply andb_true_iff in Hok as [H1 H2]. cbn in H2.
    destruct (sepTok_spec sep Hsep) as (Hs & c0 & sep' & Es & Hc0).
    rewrite regexMatch_fail.
    + now pass.
    + cbn [matchHere stripPrefix Ascii.eqb Bool.eqb].
      rewrite Es. cbn [append].
      apply (plusMatch_reject _ _ (fun c => negb (Ascii.eqb ")" c))).
      * intros cap c s Hc.
        change (matchHere [Lit ")"] ([] ++ [cap]) (String c s) = None).
        cbn [matchHere stripPrefix].
        apply negb_true_iff in Hc. now rewrite Hc.
      * destruct (numTok_spec _ H1) as [Ha _]. revert Ha.
        apply allChars_impl. intros c Hc. apply (numChar_not c Hc).
      * apply (sepChar_not c0 Hc0).
      * apply (sepChar_not c0 Hc0).
  - apply andb_true_iff in Hok as [H1 _].
    destruct (numTok_spec _ H1) as [Ha Hne].
    apply regexMatch_here. cbn [matchHere stripPrefix Ascii.eqb Bool.eqb].
    apply plusMatch_accept; try assumption; reflexivity.
Qed.

Lemma stopsAt_sep (cls : ascii -> bool) (r : string) :
  (forall c, isSepChar c = true -> cls c = false) ->
  stopsAt cls (sep ++ r) = true.
Proof.
  intros H. destruct (sepTok_spec sep Hsep) as (_ & c0 & sep' & -> & Hc0).
  cbn. now rewrite (H c0 Hc0).
Qed.

Lemma stopsAt_num (tok r : string) :
  numTok tok = true -> stopsAt isSepChar (tok ++ r) = true.
Proof.
  intros [Ha Hne]%numTok_spec. destruct tok as [|c tok]; [contradiction|].
  cbn in *. apply andb_true_iff in Ha as [Hc _].
  now rewrite (proj1 (proj2 (proj2 (proj2 (numChar_not c Hc))))).
Qed.

Lemma sep_not_num (c : ascii) : isSepChar c = true -> isNumChar c = false.
Proof. intros H. apply (sepChar_not c H). Qed.

(** [rotate\(([-\d.]+)] reads the angle of a rotate, with or without
    a pivot. *)
Lemma rotate_item (fn : tfunc string) (rest : string) :
  argsOk numTok fn = true ->
  regexMatch rotateRe (show fn ++ rest)
  = match fn with
    | Rotate an _ => Some [an]
    | _ => regexMatch rotateRe rest
    end.
Proof.
  intros Hok. unfold rotateRe.
  destruct fn as [tx [ty|] | an [[cx cy]|] | sx [sy|]]; cbn [showFunc];
    flatten.
  - apply andb_true_iff in Hok as [H1 H2]. cbn in H2. now pass.
  - apply andb_true_iff in Hok as [H1 H2]. now pass.
  - apply andb_true_iff in Hok as [H1 _].
    destruct (numTok_spec _ H1) as [Ha Hne].
    apply regexMatch_here. cbn [matchHere stripPrefix Ascii.eqb Bool.eqb].
    apply plusMatch_accept; try assumption; [|reflexivity].
    apply stopsAt_sep, sep_not_num.
  - apply andb_true_iff in Hok as [H1 _].
    destruct (numTok_spec _ H1) as [Ha Hne].
    apply regexMatch_here. cbn [matchHere stripPrefix Ascii.eqb Bool.eqb].
    apply plusMatch_accept; try assumption; reflexivity.
  - apply andb_true_iff in Hok as [H1 H2]. cbn in H2. now pass.
  - apply andb_true_iff in Hok as [H1 H2]. now pass.
Qed.

(** [translate\(([-\d.]+)[, ]+([-\d.]+)\)] reads a two-argument
    translate and nothing else. *)
Lemma translate_item (fn : tfunc string) (rest : string) :
  argsOk numTok fn = true ->
  regexMatch translateRe (show fn ++ rest)
  = match fn with
    | Translate tx (Some ty) => Some [tx; ty]
    | _ => regexMatch translateRe rest
    end.
Proof.
  intros Hok. unfold translateRe.
  destruct fn as [tx [ty|] | an [[cx cy]|] | sx [sy|]]; cbn [showFunc];
    flatten.
  - apply andb_true_iff in Hok as [H1 H2]. cbn in H2.
    destruct (numTok_spec _ H1) as [Ha1 Hne1].
    destruct (numTok_spec _ H2) as [Ha2 Hne2].
    destruct (sepTok_spec sep Hsep) as (Hs & c0 & sep' & Es & Hc0).
    apply regexMatch_here. cbn [matchHere stripPrefix Ascii.eqb Bool.eqb].
    apply plusMatch_accept; try assumption;
      [apply stopsAt_sep, sep_not_num|].
    apply plusMatch_accept; try assumption;
      [rewrite Es; discriminate | now apply stopsAt_num |].
    apply plusMatch_accept; try assumption; reflexivity.
  - apply andb_true_iff in Hok as [H1 _].
    destruct (numTok_spec _ H1) as [Ha1 Hne1].
    rewrite regexMatch_fail.
    + now pass.
    + cbn [matchHere stripPrefix Ascii.eqb Bool.eqb].
      apply (plusMatch_reject _ _ (fun c => negb (isSepChar c))).
      * intros cap c s Hc.
        change (plusMatch isSepChar
                  (fun _ r => matchHere [Cap isNumChar; Lit ")"]
                                ([] ++ [cap]) r) "" (String c s) = None).
        cbn [plusMatch]. apply negb_true_iff in Hc. now rewrite Hc.
      * revert Ha1. apply allChars_impl. intros c Hc.
        now rewrite (proj1 (proj2 (proj2 (proj2 (numChar_not c Hc))))).
      * reflexivity.
      * reflexivity.
  - cbn in Hok. apply andb_true_iff in Hok as [H1 [H2 H3]%andb_true_iff].
    now pass.
  - apply andb_true_iff in Hok as [H1 H2]. now pass.
  - apply andb_true_iff in Hok as [H1 H2]. cbn in H2. now pass.
  - apply andb_true_iff in Hok as [H1 H2]. now pass.
Qed.

Local Abbreviation showAll := (showList (fun t : string => t) sep).

Local Abbreviation tailText := (Tokens.tailText sep).

Lemma showList_cons (fn : tfunc string) (l : list (tfunc string)) :
  showAll (fn :: l) = show fn ++ tailText l.
Proof. destruct l; cbn [showList tailText]; now rewrite ?append_nil_r. Qed.

Lemma regexMatch_tailText (re : regex) (l : list (tfunc string)) :
  re = translateRe \/ re = rotateRe \/ re = scaleRe ->
  regexMatch re (tailText l) = regexMatch re (showAll l).
Proof.
  intros H. destruct l as [|fn l]; [reflexivity|].
  unfold tailText. cbn [append].
  destruct H as [-> | [-> | ->]]; now rewrite regexMatch_fail by reflexivity.
Qed.

Variable l : list (tfunc string).
Hypothesis Hl : forallb (argsOk numTok) l = true.

Lemma translate_list :
  regexMatch translateRe (showAll l)
  = option_map (fun p => [fst p; snd p]) (firstTranslate l).
Proof.
  induction l as [|fn l' IH]; [reflexivity|].
  cbn in Hl. apply andb_true_iff in Hl as [Hfn Hl'].
  rewrite showList_cons, translate_item by assumption.
  destruct fn as [tx [ty|] | an pv | sx sy]; cbn [firstTranslate];
    try reflexivity; rewrite regexMatch_tailText by auto; now apply IH.
Qed.

Lemma rotate_list :
  regexMatch rotateRe (showAll l)
  = option_map (fun t => [t]) (firstRotate l).
Proof.
  induction l as [|fn l' IH]; [reflexivity|].
  cbn in Hl. apply andb_true_iff in Hl as [Hfn Hl'].
  rewrite showList_cons, rotate_item by assumption.
  destruct fn as [tx ty | an pv | sx sy]; cbn [firstRotate];
    try reflexivity; rewrite regexMatch_tailText by auto; now apply IH.
Qed.

Lemma scale_list :
  regexMatch scaleRe (showAll l)
  = option_map (fun t => [t]) (firstScale l).
Proof.
  induction l as [|fn l' IH]; [reflexivity|].
  cbn in Hl. apply andb_true_iff in Hl as [Hfn Hl'].
  rewrite showList_cons, scale_item by assumption.
  destruct fn as [tx ty | an pv | sx [sy|]]; cbn [firstScale];
    try reflexivity; rewrite regexMatch_tailText by auto; now apply IH.
Qed.

(** What the selection effect reads from a transform attribute: the
    first two-argument translate, the angle of the first rotate, the
    first one-argument scale; the identity values where there is none. *)
Lemma parseTransform_showList :
  parseTransform (showAll l)
  = mkTransform
      (match firstTranslate l with
       | Some (tx, _) => parseFloat tx | None => num_zero end)
      (match firstTranslate l with
       | Some (_, ty) => parseFloat ty | None => num_zero end)
      (match firstScale l with
       | Some sx => parseFloat sx | None => num_one end)
      (match firstRotate l with
       | Some an => parseFloat an | None => num_zero end).
Proof.
  unfold parseTransform. rewrite translate_list, rotate_list, scale_list.
  destruct (firstTranslate l) as [[tx ty]|], (firstRotate l), (firstScale l);
    reflexivity.
Qed.
End Patterns.

(** ** What the parser does not read *)

Section ParserLimits.
Import Svg Editor Tokens.
Variable sep : string.
Hypothesis Hsep : sepTok sep = true.
Local Abbreviation showAll := (showList (fun t : string => t) sep).

Lemma firstScale_none l : twoArgScalesOnly l = true -> firstScale l = None.
Proof.
  induction l as [|fn l IH]; [reflexivity|]. cbn.
  intros [Hfn Hl]%andb_true_iff.
  destruct fn as [tx ty | an pv | sx [sy|]]; try discriminate; now apply IH.
Qed.

Lemma first_around_rotate l1 an pv l2 :
  firstTranslate (l1 ++ Rotate an pv :: l2) = firstTranslate (l1 ++ l2)
  /\ firstScale (l1 ++ Rotate an pv :: l2) = firstScale (l1 ++ l2)
  /\ (noRotate l1 = true -> firstRotate (l1 ++ Rotate an pv :: l2) = Some an).
Proof.
  induction l1 as [|fn l1 (IH1 & IH2 & IH3)]; [now repeat split|].
  cbn [app firstTranslate firstScale firstRotate noRotate forallb].
  destruct fn as [tx [ty|] | an' pv' | sx [sy|]]; repeat split;
    try assumption; try discriminate; try (intros H; now apply IH3).
Qed.

Lemma argsOk_pivot l1 an pv pv' l2 :
  forallb (argsOk numTok) (l1 ++ Rotate an pv :: l2) = true ->
  argsOk numTok (Rotate an pv') = true ->
  forallb (argsOk numTok) (l1 ++ Rotate an pv' :: l2) = true.
Proof.
  rewrite !forallb_app. cbn [forallb].
  intros [H1 [_ H2]%andb_true_iff]%andb_true_iff H.
  now rewrite H1, H, H2.
Qed.

End ParserLimits.



(** ** Reading a transform and writing it back *)

Section Matrices.
Import Svg.
Open Scope R_scope.

Lemma affine_eq (m n : affine) :
  ma m = ma n -> mb m = mb n -> mc m = mc n -> md m = md n ->
  me m = me n -> mf m = mf n -> m = n.
Proof. destruct m, n; cbn; intros; subst; reflexivity. Qed.

Lemma compose_identity_l (m : affine) : compose identity m = m.
Proof. apply affine_eq; cbn; lra. Qed.

Lemma compose_identity_r (m : affine) : compose m identity = m.
Proof. apply affine_eq; cbn; lra. Qed.

Lemma mRotateAbout_zero (u v : R) : mRotateAbout 0 u v = identity.
Proof.
  unfold mRotateAbout, mRotate.
  replace (0 * PI / 180) with 0 by lra. rewrite cos_0, sin_0.
  apply affine_eq; cbn; lra.
Qed.

Lemma numToR_zero : numToR num_zero = Some 0.
Proof. cbn. f_equal. lra. Qed.

Lemma numToR_one : numToR num_one = Some 1.
Proof. cbn. f_equal. lra. Qed.

Lemma numToR_finite (v : number) :
  finite v = true -> exists u, numToR v = Some u.
Proof. destruct v; [discriminate|]. intros _. eexists. reflexivity. Qed.
End Matrices.

Section TokenFacts.
Import Svg Tokens.

Lemma spanDigits_spec (s : string) :
  s = fst (spanDigits s) ++ snd (spanDigits s)
  /\ allChars isDigit (fst (spanDigits s)) = true.
Proof.
  induction s as [|c s [IH1 IH2]]; [now split|]. cbn [spanDigits].
  destruct (isDigit c) eqn:E; [|now split].
  destruct (spanDigits s) as [p r]. cbn [fst snd append allChars] in *.
  rewrite E. split; [now f_equal|exact IH2].
Qed.

Lemma digit_numChar c : isDigit c = true -> isNumChar c = true.
Proof. unfold isNumChar. intros ->. now rewrite orb_true_r. Qed.

Lemma allChars_app p s1 s2 :
  allChars p (s1 ++ s2) = allChars p s1 && allChars p s2.
Proof.
  induction s1 as [|c s1 IH]; [reflexivity|]. cbn.
  now rewrite IH, andb_assoc.
Qed.

(** A well-formed number is a piece of text the patterns capture whole. *)
Lemma wfToken_numTok (t : string) : wfToken t = true -> numTok t = true.
Proof.
  unfold wfToken, numTok.
  set (s1 := match t with String "-" r => r | _ => t end).
  assert (Ht : (t = s1 \/ t = String "-" s1)).
  { subst s1. destruct t as [|c r]; [now left|].
    destruct (Ascii.eqb_spec c "-") as [->|Hne]; [now right|].
    left. destruct c as [[] [] [] [] [] [] [] []]; try reflexivity.
    now contradiction Hne. }
  clearbody s1.
  destruct (spanDigits_spec s1) as [Hs Hd].
  destruct (spanDigits s1) as [ip r]. cbn [fst snd] in *.
  intros H.
  assert (Hall : allChars isNumChar s1 = true /\ s1 <> "").
  { rewrite Hs, allChars_app.
    rewrite (allChars_impl isDigit isNumChar ip digit_numChar Hd).
    destruct r as [|c fr].
    - split; [reflexivity|]. rewrite append_nil_r.
      destruct ip; [discriminate|discriminate].
    - destruct (Ascii.eqb_spec c ".") as [->|Hne].
      + apply andb_true_iff in H as [Hfr _]. cbn.
        rewrite (allChars_impl isDigit isNumChar fr digit_numChar Hfr).
        split; [reflexivity|]. destruct ip; discriminate.
      + exfalso. destruct c as [[] [] [] [] [] [] [] []];
          try discriminate H. now contradiction Hne. }
  destruct Hall as [Ha Hn].
  destruct Ht as [-> | ->]; cbn; rewrite Ha.
  - destruct s1; [contradiction|reflexivity].
  - reflexivity.
Qed.
End TokenFacts.

Section Reserialize.
Import Dom Svg Editor Tokens Marks.

Lemma argsOk_weaken (p q : string -> bool) (fn : tfunc string) :
  (forall t, p t = true -> q t = true) ->
  argsOk p fn = true -> argsOk q fn = true.
Proof.
  intros H. destruct fn as [tx [ty|] | an [[cx cy]|] | sx [sy|]]; cbn;
    rewrite ?andb_true_iff; intuition auto.
Qed.

Lemma forallb_weaken {A} (p q : A -> bool) (l : list A) :
  (forall a, p a = true -> q a = true) ->
  forallb p l = true -> forallb q l = true.
Proof.
  intros H. induction l as [|a l IH]; [reflexivity|]. cbn.
  intros [Ha Hl]%andb_true_iff. now rewrite (H a Ha), IH.
Qed.

Lemma tokenValue_wf (t : string) :
  wfToken t = true -> tokenValue t = numToR (parseFloat t).
Proof. unfold tokenValue. now intros ->. Qed.

Lemma denote_skip {A} (val : A -> option R) fn l :
  denoteFunc val fn = Some identity -> denote val (fn :: l) = denote val l.
Proof.
  intros H. cbn [denote]. rewrite H. destruct (denote val l); [|reflexivity].
  now rewrite compose_identity_l.
Qed.

Lemma denote_cons {A B} (v : A -> option R) (w : B -> option R) f g l k :
  denoteFunc v f = denoteFunc w g -> denote v l = denote w k ->
  denote v (f :: l) = denote w (g :: k).
Proof. intros H1 H2. cbn [denote]. now rewrite H1, H2. Qed.

Lemma default_translate :
  denoteFunc numToR (Translate num_zero (Some num_zero)) = Some identity.
Proof.
  cbn [denoteFunc valOr]. rewrite numToR_zero. reflexivity.
Qed.

Lemma default_rotate (cx cy : number) :
  finite cx = true -> finite cy = true ->
  denoteFunc numToR (Rotate num_zero (Some (cx, cy))) = Some identity.
Proof.
  intros [u Hu]%numToR_finite [v Hv]%numToR_finite.
  cbn [denoteFunc]. rewrite numToR_zero, Hu, Hv.
  now rewrite mRotateAbout_zero.
Qed.

Lemma default_scale :
  denoteFunc numToR (Scale num_one None) = Some identity.
Proof. cbn [denoteFunc valOr]. rewrite numToR_one. reflexivity. Qed.

Variables (br : Browser) (sep : string).
Hypothesis Hsep : sepTok sep = true.
Variables (tr : option (string * string))
          (ro : option (string * (string * string)))
          (sc : option string).
Hypothesis Hwf : forallb (argsOk wfToken) (inOrder tr ro sc) = true.

Local Abbreviation parsed := (parsedInOrder tr ro sc).

Lemma parseTransform_inOrder :
  parseTransform (showList (fun t => t) sep (inOrder tr ro sc)) = parsed.
Proof.
  rewrite (parseTransform_showList sep Hsep)
    by (revert Hwf; apply forallb_weaken; intros fn;
        apply argsOk_weaken, wfToken_numTok).
  unfold parsedInOrder.
  destruct tr as [[tx ty]|], ro as [[an [cx cy]]|], sc as [sx|]; reflexivity.
Qed.

Lemma written_same_transform (cx cy : number) :
  finite cx = true -> finite cy = true ->
  match ro with
  | Some (_, (cxT, cyT)) => parseFloat cxT = cx /\ parseFloat cyT = cy
  | None => True
  end ->
  denote numToR (written parsed cx cy) = effective (inOrder tr ro sc).
Proof.
  intros Hcx Hcy Hpv. unfold written, effective, parsedInOrder, inOrder in *.
  cbn [x y scale rotate].
  destruct tr as [[tx ty]|]; cbn [app forallb argsOk] in Hwf |- *.
  - apply andb_true_iff in Hwf as [[Htx Hty]%andb_true_iff Hwf'].
    apply denote_cons;
      [cbn [denoteFunc valOr]; now rewrite !tokenValue_wf by assumption|].
    clear Htx Hty.
    destruct ro as [[an [cxT cyT]]|]; cbn [app forallb argsOk] in Hwf' |- *.
    + destruct Hpv as [<- <-].
      apply andb_true_iff in Hwf' as [[Han [Hx Hy]%andb_true_iff]%andb_true_iff Hwf''].
      apply denote_cons;
        [cbn [denoteFunc]; now rewrite !tokenValue_wf by assumption|].
      destruct sc as [sx|]; cbn [app forallb argsOk] in Hwf'' |- *.
      * apply andb_true_iff in Hwf'' as [[Hsx _]%andb_true_iff _].
        apply denote_cons; [|reflexivity].
        cbn [denoteFunc valOr]. now rewrite !tokenValue_wf by assumption.
      * now rewrite denote_skip by apply default_scale.
    + rewrite denote_skip by now apply default_rotate.
      destruct sc as [sx|]; cbn [app forallb argsOk] in Hwf' |- *.
      * apply andb_true_iff in Hwf' as [[Hsx _]%andb_true_iff _].
        apply denote_cons; [|reflexivity].
        cbn [denoteFunc valOr]. now rewrite !tokenValue_wf by assumption.
      * now rewrite denote_skip by apply default_scale.
  - rewrite denote_skip by apply default_translate.
    destruct ro as [[an [cxT cyT]]|]; cbn [app forallb argsOk] in Hwf |- *.
    + destruct Hpv as [<- <-].
      apply andb_true_iff in Hwf as [[Han [Hx Hy]%andb_true_iff]%andb_true_iff Hwf''].
      apply denote_cons;
        [cbn [denoteFunc]; now rewrite !tokenValue_wf by assumption|].
      destruct sc as [sx|]; cbn [app forallb argsOk] in Hwf'' |- *.
      * apply andb_true_iff in Hwf'' as [[Hsx _]%andb_true_iff _].
        apply denote_cons; [|reflexivity].
        cbn [denoteFunc valOr]. now rewrite !tokenValue_wf by assumption.
      * now rewrite denote_skip by apply default_scale.
    + rewrite denote_skip by now apply default_rotate.
      destruct sc as [sx|]; cbn [app forallb argsOk] in Hwf |- *.
      * apply andb_true_iff in Hwf as [[Hsx _]%andb_true_iff _].
        apply denote_cons; [|reflexivity].
        cbn [denoteFunc valOr]. now rewrite !tokenValue_wf by assumption.
      * now rewrite denote_skip by apply default_scale.
Qed.

End Reserialize.



(** The other restrictions of the amended statement are needed as well:
  a pivot that is not the centre of the box is replaced by the centre,
  and a two-argument scale is read as scale 1. *)
Lemma reserialize_moves_pivot :
let old := [Svg.Rotate "180" (Some ("0", "0"))] in
let new := [Svg.Translate "0" (Some "0");
            Svg.Rotate "180" (Some ("25", "40")); Svg.Scale "1" None] in
let s1 := Editor.selectionEffect Sample.turnedAboutOrigin in
let s2 := Editor.applyTransform Sample.browser (Editor.transform s1) s1 in
Editor.transformAttr 2 Sample.turnedAboutOrigin
= Svg.showList (fun t => t) ", " old
/\ Editor.transformAttr 2 s2 = Svg.showList (fun t => t) ", " new
/\ Svg.effective old <> Svg.effective new.
Proof.
cbn zeta. split; [reflexivity|]. split; [reflexivity|].
unfold Svg.effective, Svg.denote, Svg.denoteFunc, Svg.valOr, Svg.tokenValue.
replace (Svg.wfToken "180") with true by reflexivity.
replace (Svg.wfToken "0") with true by reflexivity.
replace (Svg.wfToken "1") with true by reflexivity.
replace (Svg.wfToken "25") with true by reflexivity.
replace (Svg.wfToken "40") with true by reflexivity.
replace (parseFloat "180") with (Fin 180 0) by reflexivity.
replace (parseFloat "0") with (Fin 0 0) by reflexivity.
replace (parseFloat "1") with (Fin 1 0) by reflexivity.
replace (parseFloat "25") with (Fin 25 0) by reflexivity.
replace (parseFloat "40") with (Fin 40 0) by reflexivity.
cbn [Svg.numToR]. change (10 ^ Z.of_nat 0)%Z with 1%Z.
intros H. injection H as _ _ _ _ He _.
revert He. unfold Svg.mRotateAbout, Svg.mRotate.
replace (180 / 1 * PI / 180)%R with PI by lra.
rewrite cos_PI, sin_PI. cbn. lra.
Qed.

Lemma reserialize_drops_second_scale_argument :
Editor.parseTransform "scale(2, 3)" = Sample.identityTransform
/\ Svg.effective [Svg.Scale "2" (Some "3")]
   <> Svg.denote Svg.numToR
        (Svg.written Sample.identityTransform num_zero num_zero).
Proof.
split; [reflexivity|].
unfold Svg.effective, Svg.written, Svg.denote, Svg.denoteFunc, Svg.valOr,
  Svg.tokenValue.
replace (Svg.wfToken "2") with true by reflexivity.
replace (Svg.wfToken "3") with true by reflexivity.
replace (parseFloat "2") with (Fin 2 0) by reflexivity.
replace (parseFloat "3") with (Fin 3 0) by reflexivity.
cbn [Svg.numToR Editor.x Editor.y Editor.scale Editor.rotate
     Sample.identityTransform num_zero num_one].
change (10 ^ Z.of_nat 0)%Z with 1%Z.
intros H. injection H as Ha _. revert Ha.
unfold Svg.mRotateAbout, Svg.mRotate.
replace (0 / 1 * PI / 180)%R with 0%R by lra.
rewrite cos_0, sin_0. cbn. lra.
Qed.


(** ** Decimal numbers, printed and read *)

Section Digits.
Import Values.

Lemma string_of_list_app (l1 l2 : list ascii) :
  string_of_list_ascii (l1 ++ l2)
  = string_of_list_ascii l1 ++ string_of_list_ascii l2.
Proof. induction l1 as [|c l1 IH]; cbn; [reflexivity|now rewrite IH]. Qed.

Lemma length_string_of_list (l : list ascii) :
  String.length (string_of_list_ascii l) = List.length l.
Proof. induction l; cbn; congruence. Qed.

Lemma length_append (s1 s2 : string) :
  String.length (s1 ++ s2) = (String.length s1 + String.length s2)%nat.
Proof. induction s1; cbn; congruence. Qed.

Lemma digitsValue_app (s1 s2 : string) (acc : Z) :
  digitsValue acc (s1 ++ s2) = digitsValue (digitsValue acc s1) s2.
Proof. revert acc. induction s1; cbn; intros; [reflexivity|apply IHs1]. Qed.

Lemma digitChar_facts (d : N) :
  (d < 10)%N ->
  isDigit (digitChar d) = true /\ digitVal (digitChar d) = Z.of_N d
  /\ (digitChar d = "0"%char -> d = 0%N).
Proof.
  intros Hd.
  assert (H : forallb (fun n => let d := N.of_nat n in
                         isDigit (digitChar d)
                         && (digitVal (digitChar d) =? Z.of_N d)%Z
                         && (negb (Ascii.eqb (digitChar d) "0") || (d =? 0)%N))
                      (seq 0 10) = true) by (vm_compute; reflexivity).
  pose proof (proj1 (forallb_forall _ _) H (N.to_nat d)) as H'.
  cbv beta zeta in H'. rewrite N2Nat.id in H'.
  assert (Hin : In (N.to_nat d) (seq 0 10)) by (apply in_seq; lia).
  apply H' in Hin. apply andb_true_iff in Hin as [[H1 H2]%andb_true_iff H3].
  split; [exact H1|]. split; [now apply Z.eqb_eq|].
  intros E. rewrite E in H3. cbn in H3. now apply N.eqb_eq.
Qed.

(** The digits of [n], most significant first. *)
Lemma digits_spec (fuel : nat) (n : N) :
  (n < 2 ^ N.of_nat fuel)%N ->
  let ds := digitsLE 10 fuel n in
  let D := string_of_list_ascii (map digitChar (rev ds)) in
  allChars isDigit D = true
  /\ digitsValue 0 D = Z.of_N n
  /\ ((0 < n)%N ->
      (10 ^ N.of_nat (List.length ds - 1) <= n < 10 ^ N.of_nat (List.length ds))%N
      /\ exists ds', ds = (n mod 10)%N :: ds').
Proof.
  revert n. induction fuel as [|fuel IH]; intros n Hn.
  - cbn in Hn. assert (n = 0%N) by lia. subst. cbn. repeat split; lia.
  - cbn [digitsLE]. destruct (N.eqb_spec n 0) as [->|Hne].
    { cbn. repeat split; lia. }
    assert (Hq : (n / 10 < 2 ^ N.of_nat fuel)%N).
    { rewrite Nat2N.inj_succ, N.pow_succ_r' in Hn.
      apply N.Div0.div_lt_upper_bound. lia. }
    destruct (IH _ Hq) as (Ha & Hv & Hl). cbv zeta in *.
    cbn [rev]. rewrite map_app, string_of_list_app. cbn [map string_of_list_ascii].
    assert (Hd : (n mod 10 < 10)%N) by (apply N.mod_lt; lia).
    destruct (digitChar_facts _ Hd) as (Hd1 & Hd2 & _).
    split.
    { clear - Ha Hd1.
      induction (string_of_list_ascii (map digitChar (rev (digitsLE 10 fuel (n / 10)))));
        cbn in *; [now rewrite Hd1|].
      apply andb_true_iff in Ha as [-> Ha]. now apply IHs. }
    split.
    { rewrite digitsValue_app, Hv. cbn [digitsValue]. rewrite Hd2.
      pose proof (N.div_mod n 10). lia. }
    intros _. split; [|eauto].
    cbn [List.length Nat.sub]. rewrite ?Nat.sub_0_r.
    destruct (N.eqb_spec (n / 10) 0) as [E|E].
    + assert (n < 10)%N by (apply N.div_small_iff in E; lia).
      assert (El : digitsLE 10 fuel (n / 10) = [])
        by (rewrite E; destruct fuel; reflexivity).
      rewrite El. cbn [List.length]. change (10 ^ N.of_nat 0)%N with 1%N.
      change (10 ^ N.of_nat 1)%N with 10%N. clear - Hne H. lia.
    + destruct Hl as [[Hlo Hhi] _]; [now apply N.neq_0_lt_0|].
      set (L := List.length (digitsLE 10 fuel (n / 10))) in *.
      assert (HL : (0 < L)%nat).
      { destruct L; [|lia]. cbn in Hhi. lia. }
      assert (E1 : (10 ^ N.of_nat L = 10 * 10 ^ N.of_nat (L - 1))%N).
      { rewrite <- N.pow_succ_r'. f_equal. lia. }
      assert (E2 : (10 ^ N.of_nat (S L) = 10 * 10 ^ N.of_nat L)%N).
      { rewrite Nat2N.inj_succ. apply N.pow_succ_r'. }
      rewrite E2. clear E2 HL.
      pose proof (N.div_mod n 10) as Hdm.
      generalize dependent (10 ^ N.of_nat (L - 1))%N.
      generalize dependent (10 ^ N.of_nat L)%N.
      generalize dependent (n / 10)%N. generalize dependent (n mod 10)%N.
      intros. lia.
Qed.
End Digits.

Section Decimal.
Import Values Svg Tokens.

(** The decimal digits [natToString 10] prints. *)
Lemma natToString_spec (n : N) :
  (0 < n)%N ->
  let D := natToString 10 n in
  allChars isDigit D = true
  /\ digitsValue 0 D = Z.of_N n
  /\ (10 ^ N.of_nat (String.length D - 1) <= n < 10 ^ N.of_nat (String.length D))%N
  /\ (0 < String.length D)%nat
  /\ exists l, list_ascii_of_string D = (l ++ [digitChar (n mod 10)])%list.
Proof.
  intros Hn D. subst D. unfold natToString.
  destruct (N.eqb_spec n 0) as [E|_]; [lia|].
  assert (Hf : (n < 2 ^ N.of_nat (S (N.to_nat (N.log2 n))))%N).
  { rewrite Nat2N.inj_succ, N2Nat.id. now apply N.log2_spec. }
  destruct (digits_spec _ _ Hf) as (Ha & Hv & Hl). cbv zeta in *.
  destruct (Hl Hn) as [Hb [ds' Hds]].
  rewrite length_string_of_list, length_map, length_rev.
  split; [exact Ha|]. split; [exact Hv|]. split; [exact Hb|].
  rewrite Hds. split; [cbn; lia|].
  exists (map digitChar (rev ds')).
  rewrite list_ascii_of_string_of_list_ascii. cbn [rev].
  now rewrite map_app.
Qed.

Lemma dropTrailingZeros_last (l : list ascii) (c : ascii) :
  c <> "0"%char -> dropTrailingZeros (l ++ [c]) = (l ++ [c])%list.
Proof.
  intros Hc. induction l as [|d l IH]; cbn [app dropTrailingZeros].
  - destruct (Ascii.eqb_spec c "0"); [contradiction|reflexivity].
  - rewrite IH. destruct l; reflexivity.
Qed.

Lemma dropTrailingZeros_zeros (l : list ascii) :
  exists z, l = (dropTrailingZeros l ++ repeat "0"%char z)%list
            /\ z = (List.length l - List.length (dropTrailingZeros l))%nat
            /\ (List.length (dropTrailingZeros l) <= List.length l)%nat.
Proof.
  induction l as [|c l (z & Hz & Hlen & Hle)]; [exists O; now cbn|].
  cbn [dropTrailingZeros]. destruct (dropTrailingZeros l) as [|d r] eqn:E.
  - cbn [app] in Hz. destruct (Ascii.eqb_spec c "0") as [->|Hne].
    + exists (S z). cbn. rewrite <- Hz. split; [reflexivity|].
      cbn in Hlen. split; lia.
    + exists z. cbn [app List.length] in *. rewrite <- Hz.
      split; [reflexivity|]. split; lia.
  - exists z. cbn [app List.length] in *. rewrite <- Hz.
    split; [reflexivity|]. split; lia.
Qed.

Lemma repeatChar_repeat (c : ascii) (n : nat) :
  repeatChar c n = string_of_list_ascii (repeat c n).
Proof. induction n; cbn; congruence. Qed.

Lemma spanDigits_run (d rest : string) :
  allChars isDigit d = true -> stopsAt isDigit rest = true ->
  spanDigits (d ++ rest) = (d, rest).
Proof.
  intros Hd Hr. induction d as [|c d IH]; cbn [append].
  - destruct rest as [|c r]; [reflexivity|]. cbn in *.
    now destruct (isDigit c).
  - cbn in Hd. apply andb_true_iff in Hd as [Hc Hd]. cbn [spanDigits].
    rewrite Hc, IH by assumption. reflexivity.
Qed.

Lemma digit_not_sign (c : ascii) :
  isDigit c = true -> c <> "-"%char /\ c <> "+"%char /\ c <> "."%char.
Proof. intros H. repeat split; intros ->; discriminate. Qed.

(** [parseFloat] on a sign, digits, and a fraction, followed by text
    that cannot continue the number. *)
Lemma parseFloat_decimal (neg : bool) (ip fp rest : string) :
  allChars isDigit ip = true -> ip <> "" ->
  allChars isDigit fp = true ->
  stopsAt isDigit rest = true -> stopsAt (Ascii.eqb ".") rest = true ->
  parseFloat ((if neg then "-" else "") ++ ip
              ++ (if String.eqb fp "" then "" else "." ++ fp) ++ rest)
  = normalize (if neg then - digitsValue 0 (ip ++ fp)
               else digitsValue 0 (ip ++ fp))%Z (String.length fp).
Proof.
  intros Hip Hne Hfp Hr1 Hr2.
  set (tail := (if String.eqb fp "" then "" else "." ++ fp) ++ rest).
  assert (Htail : stopsAt isDigit tail = true).
  { subst tail. destruct (String.eqb fp ""); [exact Hr1|reflexivity]. }
  assert (Hs1 : exists s1, (if neg then "-" else "") ++ ip ++ tail
                           = (if neg then String "-" s1 else s1)
                           /\ s1 = ip ++ tail).
  { exists (ip ++ tail). now destruct neg. }
  destruct Hs1 as (s1 & E & Es1). rewrite E. clear E.
  unfold parseFloat.
  assert (Hpre : (let '(neg0, s0) :=
                    match (if neg then String "-" s1 else s1) with
                    | String "-" r => (true, r)
                    | String "+" r => (false, r)
                    | _ => (false, if neg then String "-" s1 else s1)
                    end in (neg0, s0)) = (neg, s1)).
  { destruct neg; [reflexivity|]. subst s1.
    destruct ip as [|c ip]; [contradiction|]. cbn in Hip.
    apply andb_true_iff in Hip as [Hc _].
    destruct (digit_not_sign c Hc) as (H1 & H2 & _). cbn [append].
    destruct c as [[] [] [] [] [] [] [] []]; try reflexivity;
      congruence. }
  destruct (match (if neg then String "-" s1 else s1) with
            | String "-" r => (true, r)
            | String "+" r => (false, r)
            | _ => (false, if neg then String "-" s1 else s1)
            end) as [neg0 s0].
  injection Hpre as -> ->.
  rewrite Es1, (spanDigits_run ip tail Hip Htail).
  assert (Hfrac : match tail with
                  | String "." r => fst (spanDigits r)
                  | _ => ""
                  end = fp).
  { subst tail. destruct fp as [|c fp].
    - cbn [String.eqb append]. destruct rest as [|c r]; [reflexivity|].
      unfold stopsAt in Hr2.
      destruct (Ascii.eqb_spec "." c) as [|Hc]; [discriminate Hr2|].
      destruct c as [[] [] [] [] [] [] [] []]; try reflexivity.
      now contradiction Hc.
    - cbn [String.eqb append].
      change (String c (fp ++ rest)) with (String c fp ++ rest).
      now rewrite spanDigits_run. }
  rewrite Hfrac.
  destruct (ip ++ fp) eqn:Eip;
    [destruct ip; [contradiction|cbn in Eip; discriminate]|].
  rewrite <- Eip. reflexivity.
Qed.
End Decimal.

Section Layout.
Import Values Svg Tokens.

Lemma substring_all (s : string) : substring 0 (String.length s) s = s.
Proof. induction s as [|c s IH]; cbn; [reflexivity|now f_equal]. Qed.

Lemma substring_split (n : nat) (s : string) :
  (n <= String.length s)%nat ->
  substring 0 n s ++ substring n (String.length s - n) s = s.
Proof.
  revert s. induction n as [|n IH]; intros s Hn.
  - rewrite Nat.sub_0_r, substring_all. now destruct s.
  - destruct s as [|c s]; [cbn in Hn; lia|].
    cbn [substring append String.length Nat.sub].
    f_equal. apply IH. cbn in Hn. lia.
Qed.

Lemma substring_length (n k : nat) (s : string) :
  (n + k <= String.length s)%nat -> String.length (substring n k s) = k.
Proof.
  revert n k. induction s as [|c s IH]; intros n k H.
  - cbn in H. assert (n = O) by lia. assert (k = O) by lia. subst. reflexivity.
  - destruct n as [|n].
    + destruct k as [|k]; [reflexivity|]. cbn [substring String.length].
      f_equal. apply (IH O k). cbn in H. lia.
    + cbn [substring]. apply IH. cbn in H. lia.
Qed.

Lemma allChars_repeat (p : ascii -> bool) (c : ascii) (n : nat) :
  p c = true -> allChars p (repeatChar c n) = true.
Proof. intros H. induction n; cbn; [reflexivity|now rewrite H]. Qed.

Lemma length_repeatChar (c : ascii) (n : nat) :
  String.length (repeatChar c n) = n.
Proof. induction n; cbn; congruence. Qed.

Lemma digitsValue_zeros (n : nat) (s : string) :
  digitsValue 0 (repeatChar "0" n ++ s) = digitsValue 0 s.
Proof. induction n; cbn; [reflexivity|exact IHn]. Qed.

Lemma normalize_plain (m : Z) (e : nat) :
  (Nat.eqb e 0 || negb (m mod 10 =? 0)%Z) = true -> normalize m e = Fin m e.
Proof.
  destruct e as [|e]; [reflexivity|]. cbn [Nat.eqb orb normalize].
  now intros ->%negb_true_iff.
Qed.

(** The digits of a non-zero [m]: their number [L] gives the magnitude,
    and the last one is not [0] unless [10] divides [m]. *)
Lemma abs_digits (m : Z) :
  m <> 0%Z ->
  let D := natToString 10 (Z.abs_N m) in
  allChars isDigit D = true
  /\ digitsValue 0 D = Z.abs m
  /\ (10 ^ (Z.of_nat (String.length D) - 1) <= Z.abs m
      < 10 ^ Z.of_nat (String.length D))%Z
  /\ (0 < String.length D)%nat
  /\ ((m mod 10 =? 0)%Z = false ->
      string_of_list_ascii (dropTrailingZeros (list_ascii_of_string D)) = D)
  /\ exists z,
       D = string_of_list_ascii (dropTrailingZeros (list_ascii_of_string D))
           ++ repeatChar "0" z
       /\ z = (String.length D
               - String.length
                   (string_of_list_ascii
                      (dropTrailingZeros (list_ascii_of_string D))))%nat
       /\ (String.length
             (string_of_list_ascii
                (dropTrailingZeros (list_ascii_of_string D)))
           <= String.length D)%nat.
Proof.
  intros Hm D.
  assert (Hpos : (0 < Z.abs_N m)%N) by lia.
  destruct (natToString_spec _ Hpos) as (Ha & Hv & [Hlo Hhi] & HL & l & Hl).
  fold D in Ha, Hv, Hlo, Hhi, HL, Hl.
  split; [exact Ha|]. split; [rewrite Hv; lia|].
  split.
  { apply N2Z.inj_le in Hlo. apply N2Z.inj_lt in Hhi.
    rewrite N2Z.inj_pow in Hlo, Hhi. rewrite N2Z.inj_abs_N in Hlo, Hhi.
    rewrite nat_N_Z in Hlo, Hhi.
    replace (Z.of_nat (String.length D - 1))
      with (Z.of_nat (String.length D) - 1)%Z in Hlo by lia.
    split; assumption. }
  split; [exact HL|].
  split.
  { intros Hmod. rewrite Hl, dropTrailingZeros_last, <- Hl;
      [apply string_of_list_ascii_of_string|].
    assert (Hd : (Z.abs_N m mod 10 < 10)%N) by (apply N.mod_lt; lia).
    destruct (digitChar_facts _ Hd) as (_ & _ & Hz).
    intros E. apply Hz in E. apply Z.eqb_neq in Hmod. apply Hmod.
    apply (f_equal Z.of_N) in E. rewrite N2Z.inj_mod, N2Z.inj_abs_N in E.
    change (Z.of_N 10) with 10%Z in E. change (Z.of_N 0) with 0%Z in E.
    destruct (Z.abs_spec m) as [[_ Ea]|[_ Ea]]; rewrite Ea in E;
      [exact E|].
    apply Z.mod_divide in E; [|lia]. apply Z.mod_divide; [lia|].
    exact (proj1 (Z.divide_opp_r 10 m) E). }
  destruct (dropTrailingZeros_zeros (list_ascii_of_string D))
    as (z & Hz & Hlen & Hle).
  exists z.
  rewrite <- (string_of_list_ascii_of_string D) at 1.
  rewrite Hz at 1. rewrite string_of_list_app, <- repeatChar_repeat.
  rewrite !length_string_of_list.
  rewrite <- (length_string_of_list (list_ascii_of_string D)) in Hlen, Hle.
  rewrite string_of_list_ascii_of_string in Hlen, Hle.
  repeat split; assumption.
Qed.
End Layout.

Section RoundTrip.
Import Values Svg Tokens.

Lemma pow10_lt_exp (a b : Z) :
  (0 <= a)%Z -> (0 <= b)%Z -> (10 ^ a < 10 ^ b)%Z -> (a < b)%Z.
Proof. intros Ha Hb H. apply (Z.pow_lt_mono_r_iff 10); lia. Qed.

(** How a plain number is printed: a sign, digits, and a fraction of
    as many digits as the number has decimals. *)
Lemma numToString_layout (m : Z) (e : nat) :
  plain (Fin m e) = true ->
  exists ip fp,
    numToString (Fin m e)
    = (if (m <? 0)%Z then "-" else "") ++ ip
      ++ (if String.eqb fp "" then "" else "." ++ fp)
    /\ allChars isDigit ip = true /\ ip <> ""
    /\ allChars isDigit fp = true
    /\ digitsValue 0 (ip ++ fp) = Z.abs m
    /\ String.length fp = e.
Proof.
  unfold plain. intros [Hnorm Hmag]%andb_true_iff.
  unfold numToString. rewrite (normalize_plain m e Hnorm).
  destruct (Z.eqb_spec m 0) as [->|Hm].
  { exists "0", "". destruct e; [now repeat split|discriminate Hnorm]. }
  cbn [orb] in Hmag. apply andb_true_iff in Hmag as [Hlo Hhi].
  apply Z.leb_le in Hlo. apply Z.ltb_lt in Hhi.
  destruct (abs_digits m Hm) as (Ha & Hv & [Dlo Dhi] & HL & Hlast & z & Hz & Hzl & Hzle).
  cbv zeta in *.
  set (D := natToString 10 (Z.abs_N m)) in *.
  set (s := string_of_list_ascii (dropTrailingZeros (list_ascii_of_string D))) in *.
  set (L := String.length D) in *.
  assert (HnHi : (Z.of_nat L - Z.of_nat e <= 21)%Z).
  { assert (Z.of_nat L - 1 < 21 + Z.of_nat e)%Z; [|lia].
    apply pow10_lt_exp; lia. }
  assert (HnLo : (-6 < Z.of_nat L - Z.of_nat e)%Z).
  { assert (Z.of_nat e < Z.of_nat L + 6)%Z; [|lia].
    apply pow10_lt_exp; [lia|lia|]. rewrite Z.pow_add_r by lia.
    assert (0 < 10 ^ 6)%Z by lia. nia. }
  destruct e as [|e].
  - (* an integer *)
    exists D, "".
    replace ((Z.of_nat (String.length s) <=? Z.of_nat L - Z.of_nat 0)
             && (Z.of_nat L - Z.of_nat 0 <=? 21))%Z with true
      by (symmetry; apply andb_true_iff; split; apply Z.leb_le; lia).
    replace (Z.to_nat (Z.of_nat L - Z.of_nat 0) - String.length s)%nat
      with z by lia.
    rewrite <- Hz. cbn [String.eqb]. rewrite !append_nil_r.
    repeat split; try assumption.
    intros E. unfold L in HL. rewrite E in HL. cbn in HL. lia.
  - (* a fraction of [S e] digits *)
    assert (Hs : s = D).
    { apply Hlast. cbn [Nat.eqb orb] in Hnorm.
      now apply negb_true_iff in Hnorm. }
    rewrite Hs. fold L.
    replace ((Z.of_nat L <=? Z.of_nat L - Z.of_nat (S e))
             && (Z.of_nat L - Z.of_nat (S e) <=? 21))%Z with false
      by (symmetry; apply andb_false_iff; left; apply Z.leb_gt; lia).
    destruct (Z.ltb_spec 0 (Z.of_nat L - Z.of_nat (S e))) as [Hn|Hn].
    + replace (Z.of_nat L - Z.of_nat (S e) <=? 21)%Z with true
        by (symmetry; apply Z.leb_le; lia).
      cbn [andb].
      replace (Z.to_nat (Z.of_nat L - Z.of_nat (S e))) with (L - S e)%nat
        by lia.
      assert (Hsplit := substring_split (L - S e) D ltac:(fold L; lia)).
      fold L in Hsplit.
      set (ip := substring 0 (L - S e) D) in *.
      set (fp := substring (L - S e) (L - (L - S e)) D) in *.
      assert (Hlen : String.length fp = S e).
      { subst fp. rewrite substring_length; fold L; lia. }
      assert (Hip : String.length ip = (L - S e)%nat).
      { apply (f_equal String.length) in Hsplit.
        rewrite length_append, Hlen in Hsplit. fold L in Hsplit. lia. }
      exists ip, fp.
      assert (Hall := Ha). rewrite <- Hsplit, allChars_app in Hall.
      apply andb_true_iff in Hall as [Hall1 Hall2].
      assert (Hfp : String.eqb fp "" = false).
      { destruct fp; [discriminate Hlen|reflexivity]. }
      rewrite Hfp. repeat split; try assumption.
      * intros E. rewrite E in Hip. cbn in Hip. lia.
      * now rewrite Hsplit.
    + cbn [andb].
      replace ((-6 <? Z.of_nat L - Z.of_nat (S e))
               && (Z.of_nat L - Z.of_nat (S e) <=? 0))%Z with true
        by (symmetry; apply andb_true_iff; split;
            [apply Z.ltb_lt|apply Z.leb_le]; lia).
      set (zs := repeatChar "0" (Z.to_nat (- (Z.of_nat L - Z.of_nat (S e))))).
      exists "0", (zs ++ D).
      assert (Hlen : String.length (zs ++ D) = S e).
      { rewrite length_append. subst zs. rewrite length_repeatChar.
        fold L. lia. }
      assert (Hfp : String.eqb (zs ++ D) "" = false).
      { destruct (zs ++ D); [discriminate Hlen|reflexivity]. }
      rewrite Hfp. repeat split; try assumption; try discriminate.
      * rewrite allChars_app, Ha, andb_true_r.
        now apply allChars_repeat.
      * change ("0" ++ zs ++ D) with (repeatChar "0" 1 ++ zs ++ D).
        subst zs. now rewrite !digitsValue_zeros.
Qed.

(** Reading back what was printed, whatever text follows that cannot
    continue a number. *)
Lemma parseFloat_numToString (v : number) (rest : string) :
  plain v = true ->
  stopsAt isDigit rest = true -> stopsAt (Ascii.eqb ".") rest = true ->
  parseFloat (numToString v ++ rest) = v.
Proof.
  destruct v as [|m e]; [discriminate|]. intros Hp Hr1 Hr2.
  destruct (numToString_layout m e Hp) as (ip & fp & E & Hip & Hne & Hfp & Hv & Hlen).
  rewrite E, !append_assoc.
  replace (if (m <? 0)%Z then "-" else "")
    with (if (m <? 0)%Z then "-" else "") by reflexivity.
  rewrite (parseFloat_decimal (m <? 0)%Z ip fp rest) by assumption.
  rewrite Hv, Hlen.
  replace (if (m <? 0)%Z then (- Z.abs m)%Z else Z.abs m) with m
    by (destruct (Z.ltb_spec m 0); lia).
  apply normalize_plain. unfold plain in Hp.
  now apply andb_true_iff in Hp as [Hp _].
Qed.

Lemma wfToken_numToString (v : number) :
  plain v = true -> wfToken (numToString v) = true.
Proof.
  destruct v as [|m e]; [discriminate|]. intros Hp.
  destruct (numToString_layout m e Hp) as (ip & fp & E & Hip & Hne & Hfp & Hv & Hlen).
  rewrite E. unfold wfToken.
  assert (Hstrip : match (if (m <? 0)%Z then "-" else "") ++ ip
                         ++ (if String.eqb fp "" then "" else "." ++ fp) with
                   | String "-" r => r
                   | _ => (if (m <? 0)%Z then "-" else "") ++ ip
                          ++ (if String.eqb fp "" then "" else "." ++ fp)
                   end = ip ++ (if String.eqb fp "" then "" else "." ++ fp)).
  { destruct (m <? 0)%Z; [reflexivity|]. cbn [append].
    destruct ip as [|c ip]; [contradiction|]. cbn in Hip.
    apply andb_true_iff in Hip as [Hc _].
    destruct (digit_not_sign c Hc) as (H1 & _). cbn [append].
    destruct c as [[] [] [] [] [] [] [] []]; try reflexivity; congruence. }
  rewrite Hstrip.
  rewrite (spanDigits_run ip _ Hip)
    by (destruct (String.eqb fp ""); reflexivity).
  destruct fp as [|c fp]; cbn [String.eqb append].
  - destruct ip; [contradiction|reflexivity].
  - now rewrite Hfp.
Qed.
End RoundTrip.


(** ** Colours and widths of the properties panel *)

Section HexAgain.
Import Editor Colour.

Lemma startsWith_hash_not_sentinel (col : string) :
  startsWith col "#" = true -> sentinel col = false.
Proof.
  destruct col as [|c r]; [discriminate|]. unfold startsWith, sentinel.
  cbn [stripPrefix]. destruct (Ascii.eqb_spec "#" c) as [<-|]; [|discriminate].
  reflexivity.
Qed.

(** X1.  Whatever the input, [rgbToHex] answers a string that starts with
    [#], and converting its answer again changes nothing. *)
Theorem rgbToHex_idempotent (col : string) :
  startsWith (rgbToHex col) "#" = true
  /\ rgbToHex (rgbToHex col) = rgbToHex col.
Proof.
  assert (H : startsWith (rgbToHex col) "#" = true).
  { unfold rgbToHex.
    destruct (String.eqb col "" || String.eqb col "none"
              || String.eqb col "transparent"); [reflexivity|].
    destruct (startsWith col "#") eqn:E; [exact E|].
    destruct (matchAllDigits "" col) as [|rs [|gs [|bs l]]]; reflexivity. }
  split; [exact H|].
  apply rgbToHex_hex; [now apply startsWith_hash_not_sentinel|exact H].
Qed.
End HexAgain.

Section StrokeWidth.
Import Editor Values Tokens.

(** X4.  The slider value drops the unit of the computed stroke width: for
    a plain number [v], and a unit that starts with neither a digit
    nor a dot (nor the [e] or [E] of an exponent), such as [px], the
    number read from the text of [v] followed by the unit is [v]. *)
Theorem strokeWidthNum_drops_unit (v : number) (unit : string) :
  plain v = true ->
  stopsAt isDigit unit = true -> stopsAt (Ascii.eqb ".") unit = true ->
  stopsAt (fun c => Ascii.eqb "e" c || Ascii.eqb "E" c) unit = true ->
  strokeWidthNum (numToString v ++ unit) = v.
Proof.
  intros Hp H1 H2 _. unfold strokeWidthNum.
  rewrite parseFloat_numToString by assumption.
  destruct v as [|m e]; [discriminate|]. cbn [numOr].
  destruct (Z.eqb_spec m 0) as [->|_]; [|reflexivity].
  unfold plain in Hp. destruct e; [reflexivity|discriminate].
Qed.
End StrokeWidth.

Lemma strokeWidthNum_drops_unit_witness :
Editor.strokeWidthNum "2.5px" = Fin 25 1.
Proof.
exact (strokeWidthNum_drops_unit (Fin 25 1) "px" eq_refl eq_refl eq_refl
         eq_refl).
Defined.


(** ** The transform text, written and read back *)

Section Printed.
Import Values Svg Tokens.
Variable P : ascii -> bool.
Hypothesis Hdigit : forall c, isDigit c = true -> P c = true.
Hypothesis Hminus : P "-" = true.
Hypothesis Hdot : P "." = true.
Hypothesis He : P "e" = true.
Hypothesis Hplus : P "+" = true.
Hypothesis HN : P "N" = true.
Hypothesis Ha : P "a" = true.

Lemma allChars_digits (s : string) :
  allChars isDigit s = true -> allChars P s = true.
Proof. apply allChars_impl, Hdigit. Qed.

Lemma natToString_digits (n : N) : allChars isDigit (natToString 10 n) = true.
Proof.
  destruct (N.eqb_spec n 0) as [->|Hn]; [reflexivity|].
  apply natToString_spec. lia.
Qed.

Lemma allChars_list (q : ascii -> bool) (l : list ascii) :
  allChars q (string_of_list_ascii l) = forallb q l.
Proof. induction l; cbn; congruence. Qed.

Lemma dropTrailingZeros_forallb (q : ascii -> bool) (l : list ascii) :
  forallb q l = true -> forallb q (dropTrailingZeros l) = true.
Proof.
  induction l as [|c l IH]; [reflexivity|]. cbn [forallb dropTrailingZeros].
  intros [Hc Hl]%andb_true_iff. specialize (IH Hl).
  destruct (dropTrailingZeros l).
  - destruct (Ascii.eqb c "0"); cbn; [reflexivity|now rewrite Hc].
  - cbn [forallb] in *. now rewrite Hc.
Qed.

Lemma allChars_substring (q : ascii -> bool) (n k : nat) (s : string) :
  allChars q s = true -> allChars q (substring n k s) = true.
Proof.
  revert n k. induction s as [|c s IH]; intros n k H.
  - now destruct n, k.
  - cbn in H. apply andb_true_iff in H as [Hc Hs].
    destruct n as [|n]; [|cbn [substring]; now apply IH].
    destruct k as [|k]; [reflexivity|]. cbn [substring allChars].
    now rewrite Hc, IH.
Qed.

Lemma normalize_finite (m : Z) (e : nat) : exists m' e', normalize m e = Fin m' e'.
Proof.
  revert m. induction e as [|e IH]; intros m; cbn [normalize]; [eauto|].
  destruct (m mod 10 =? 0)%Z; eauto.
Qed.

(** Every character [Number::toString] prints is a digit or one of
    [-], [.], [e], [+], [N], [a]. *)
Lemma numToString_allChars (v : number) : allChars P (numToString v) = true.
Proof.
  destruct v as [|m0 e0]; [cbn; now rewrite HN, Ha|].
  unfold numToString. destruct (normalize_finite m0 e0) as (m & e & ->).
  destruct (m =? 0)%Z; [cbn; now rewrite (Hdigit "0")|].
  set (D := natToString 10 (Z.abs_N m)).
  set (s := string_of_list_ascii (dropTrailingZeros (list_ascii_of_string D))).
  assert (Hs : allChars isDigit s = true).
  { subst s. rewrite allChars_list. apply dropTrailingZeros_forallb.
    rewrite <- allChars_list, string_of_list_ascii_of_string.
    apply natToString_digits. }
  assert (Hsub : forall n k, allChars P (substring n k s) = true).
  { intros n k. apply allChars_digits. now apply allChars_substring. }
  assert (Hz : forall n, allChars P (repeatChar "0" n) = true).
  { intros n. apply allChars_repeat. now apply Hdigit. }
  rewrite allChars_app. apply andb_true_iff. split.
  { destruct (m <? 0)%Z; cbn; [now rewrite Hminus|reflexivity]. }
  repeat match goal with
         | |- allChars P (if ?b then _ else _) = true => destruct b
         end;
    repeat (rewrite ?allChars_app, ?Hsub, ?Hz, ?(allChars_digits s Hs);
            cbn [allChars andb]);
    rewrite ?Hdot, ?He, ?Hplus, ?Hminus, ?(Hdigit "0") by reflexivity;
    rewrite ?(allChars_digits _ (natToString_digits _));
    try reflexivity;
    match goal with
    | |- context [if ?b then "-" else "+"] => destruct b
    end; cbn; now rewrite ?Hminus, ?Hplus.
Qed.
End Printed.

Section Written.
Import Dom Editor Values Svg Tokens Marks.

Lemma sepTok_comma : sepTok ", " = true.
Proof. reflexivity. Qed.

Lemma numTok_numToString (v : number) :
  plain v = true -> numTok (numToString v) = true.
Proof. intros H. now apply wfToken_numTok, wfToken_numToString. Qed.

Lemma printed_not (a0 : ascii) (v : number) :
  (a0 = "t" \/ a0 = "r" \/ a0 = "s")%char ->
  allChars (fun c => negb (Ascii.eqb a0 c)) (numToString v) = true.
Proof.
  intros H. apply numToString_allChars;
    try (destruct H as [-> | [-> | ->]]; reflexivity).
  intros c Hc. destruct (numChar_not c (digit_numChar c Hc)) as (Ht & Hr & Hs & _).
  now destruct H as [-> | [-> | ->]].
Qed.

Ltac step :=
  first
    [ rewrite regexMatch_fail by reflexivity
    | rewrite regexMatch_skip_num by (auto using numTok_numToString; fail)
    | rewrite (regexMatch_skip _ _ _ (numToString _)) by (apply printed_not; auto) ].

(** What the three patterns find in the text [applyTransform] writes,
    whatever the pivot. *)
Lemma parseTransform_written (st : TransformState) (cx cy : number) :
  plainState st = true ->
  parseTransform (transformString st cx cy)
  = mkTransform (parseFloat (numToString (x st)))
                (parseFloat (numToString (y st)))
                (parseFloat (numToString (scale st)))
                (parseFloat (numToString (rotate st))).
Proof.
  unfold plainState.
  intros [[[Hx Hy]%andb_true_iff Hs]%andb_true_iff Hr]%andb_true_iff.
  apply numTok_numToString in Hx, Hy, Hs, Hr.
  set (X := numToString (x st)) in *. set (Y := numToString (y st)) in *.
  set (S0 := numToString (scale st)) in *.
  set (R0 := numToString (rotate st)) in *.
  unfold parseTransform, transformString.
  fold X Y S0 R0.
  set (tail := ") rotate(" ++ R0 ++ ", " ++ numToString cx ++ ", "
               ++ numToString cy ++ ") scale(" ++ S0 ++ ")").
  assert (Ht : regexMatch translateRe ("translate(" ++ X ++ ", " ++ Y ++ tail)
               = Some [X; Y]).
  { pose proof (translate_item ", " sepTok_comma (Translate X (Some Y))
                  (" rotate(" ++ R0 ++ ", " ++ numToString cx ++ ", "
                   ++ numToString cy ++ ") scale(" ++ S0 ++ ")")) as H.
    cbn [showFunc] in H. rewrite !append_assoc in H. cbn [append] in H.
    subst tail. cbn [append]. apply H. cbn [argsOk]. now rewrite Hx, Hy. }
  assert (Hro : regexMatch rotateRe ("translate(" ++ X ++ ", " ++ Y ++ tail)
                = Some [R0]).
  { unfold rotateRe. subst tail. cbn [append].
    repeat step.
    destruct (numTok_spec _ Hr) as [Har Hne].
    apply regexMatch_here. cbn [matchHere stripPrefix Ascii.eqb Bool.eqb].
    apply plusMatch_accept; try assumption; reflexivity. }
  assert (Hsc : regexMatch scaleRe ("translate(" ++ X ++ ", " ++ Y ++ tail)
                = Some [S0]).
  { unfold scaleRe. subst tail. cbn [append].
    repeat step.
    destruct (numTok_spec _ Hs) as [Has Hne].
    apply regexMatch_here. cbn [matchHere stripPrefix Ascii.eqb Bool.eqb].
    apply plusMatch_accept; try assumption; reflexivity. }
  rewrite Ht, Hro, Hsc. reflexivity.
Qed.
End Written.

Section ReadBack.
Import Dom Editor Values Svg Tokens Marks.

Lemma parseFloat_printed (v : number) :
  plain v = true -> parseFloat (numToString v) = v.
Proof.
  intros H. rewrite <- (append_nil_r (numToString v)).
  now apply parseFloat_numToString.
Qed.

Lemma parseFloat_printed_state (st : TransformState) :
  plainState st = true ->
  mkTransform (parseFloat (numToString (x st)))
              (parseFloat (numToString (y st)))
              (parseFloat (numToString (scale st)))
              (parseFloat (numToString (rotate st))) = st.
Proof.
  unfold plainState.
  intros [[[Hx Hy]%andb_true_iff Hs]%andb_true_iff Hr]%andb_true_iff.
  rewrite !parseFloat_printed by assumption. now destruct st.
Qed.

(** X2.  The text [applyTransform] writes is read back by the selection
    effect as the state that was written: for every state whose four
    numbers are plain, and every pivot (also one that is not a
    number), [parseTransform (transformString st cx cy) = st]. *)
Theorem transform_text_round_trip (st : TransformState) (cx cy : number) :
  plainState st = true -> parseTransform (transformString st cx cy) = st.
Proof.
  intros H. rewrite parseTransform_written by exact H.
  now apply parseFloat_printed_state.
Qed.

Lemma findElem_stripAll ids j c :
  findElem j (stripAll ids c)
  = option_map (fun e => fold_left (fun e i => upd i unmark e) ids e)
               (findElem j c).
Proof.
  unfold stripAll. revert c. induction ids as [|i ids IH]; intros c;
    cbn [fold_left].
  - now destruct (findElem j c).
  - rewrite IH, findElem_updateElem by apply keepsId_classListRemove.
    now destruct (findElem j c).
Qed.
End ReadBack.


(** ** Numbers that are not numbers *)

Section NotANumber.
Import Dom Editor Values Svg Tokens Marks.

(** A greedy repetition fails when the rest of the pattern fails at
    every place the repetition can stop. *)
Lemma plusMatch_none cls k tok rest taken :
  (forall cap c s, cls c = true -> k cap (String c s) = None) ->
  allChars cls tok = true -> stopsAt cls rest = true ->
  (forall cap, k cap rest = None) ->
  plusMatch cls k taken (tok ++ rest) = None.
Proof.
  intros Hin. revert taken.
  induction tok as [|c tok IH]; intros taken Hall Hstop Hend; cbn [append].
  - now apply plusMatch_stop.
  - cbn in Hall. apply andb_true_iff in Hall as [Hc Hall].
    cbn [plusMatch]. rewrite Hc, IH by assumption.
    destruct tok as [|c' tok]; cbn [append]; [apply Hend|].
    apply Hin. cbn in Hall. now apply andb_true_iff in Hall as [? _].
Qed.

Ltac skip :=
  cbn [append];
  first
    [ rewrite regexMatch_fail by reflexivity
    | rewrite (regexMatch_skip _ _ _ (numToString _)) by (apply printed_not; auto) ].

Variables (st : TransformState) (cx cy : number).

Lemma translate_at_start :
  regexMatch translateRe (transformString st cx cy)
  = matchHere translateRe [] (transformString st cx cy).
Proof.
  unfold transformString. cbn [append regexMatch].
  destruct (matchHere translateRe [] _); [reflexivity|].
  unfold translateRe. repeat skip. reflexivity.
Qed.

(** X11.  Numbers that are not numbers are not read back.  When [x] is
    [NaN] - or [y] is, [x] being plain - the text written has no
    translate the pattern accepts, and both [x] and [y] are read as
    0, whatever the other one was.  A [NaN] angle is read as 0 and a
    [NaN] scale as 1. *)
Theorem nan_reads_as_default :
  let p := parseTransform (transformString st cx cy) in
  (x st = NaN -> x p = num_zero /\ y p = num_zero)
  /\ (plain (x st) = true -> y st = NaN ->
      x p = num_zero /\ y p = num_zero)
  /\ (rotate st = NaN -> rotate p = num_zero)
  /\ (scale st = NaN -> scale p = num_one).
Proof.
  cbv zeta. unfold parseTransform. cbn [x y rotate scale].
  split; [|split; [|split]].
  - intros Hx. rewrite translate_at_start.
    unfold transformString. rewrite Hx. now cbn.
  - intros Hp Hy. rewrite translate_at_start.
    assert (E : matchHere translateRe [] (transformString st cx cy) = None);
      [|now rewrite E].
    unfold transformString. rewrite Hy.
    cbn [matchHere translateRe stripPrefix append Ascii.eqb Bool.eqb].
    destruct (numTok_spec _ (numTok_numToString _ Hp)) as [Ha _].
    apply plusMatch_none; [|exact Ha|reflexivity|].
    + intros cap c s Hc. cbn [matchHere plusMatch].
      now rewrite (proj1 (proj2 (proj2 (proj2 (numChar_not c Hc))))).
    + intros cap. reflexivity.
  - intros Hr.
    assert (E : regexMatch rotateRe (transformString st cx cy) = None);
      [|now rewrite E].
    unfold transformString, rotateRe. rewrite Hr. cbn [append].
    repeat skip. reflexivity.
  - intros Hs.
    assert (E : regexMatch scaleRe (transformString st cx cy) = None);
      [|now rewrite E].
    unfold transformString, scaleRe. rewrite Hs. cbn [append].
    repeat skip. reflexivity.
Qed.
End NotANumber.

Lemma nan_reads_as_default_witness :
Values.plain (Fin 5 0) = true
/\ Editor.transformString
     (Editor.mkTransform (Fin 5 0) NaN (Fin 2 0) (Fin 90 0)) num_zero num_zero
   = "translate(5, NaN) rotate(90, 0, 0) scale(2)"
/\ Editor.x (Editor.parseTransform
              (Editor.transformString
                 (Editor.mkTransform (Fin 5 0) NaN (Fin 2 0) (Fin 90 0))
                 num_zero num_zero)) = num_zero.
Proof.
split; [reflexivity|split; [reflexivity|]].
exact (proj1 (proj1 (proj2 (nan_reads_as_default
         (Editor.mkTransform (Fin 5 0) NaN (Fin 2 0) (Fin 90 0))
         num_zero num_zero)) eq_refl eq_refl)).
Defined.


(** ** What selecting leaves alone *)

Section Content.
Import Dom Editor Marks Frames Values.

Lemma eraseClasses_el n : el (eraseClasses n) = withoutClasses (el n).
Proof. now destruct n. Qed.

Lemma eraseClasses_updateElem i g c :
  (forall e, withoutClasses (g e) = withoutClasses e) ->
  eraseClasses (updateElem i g c) = eraseClasses c.
Proof.
  intros Hg. induction c as [e kids IH] using node_ind'.
  cbn [updateElem eraseClasses]. f_equal.
  - now destruct (Nat.eqb (nid e) i).
  - rewrite map_map. apply map_ext_in. intros k Hk.
    rewrite Forall_forall in IH. now apply IH.
Qed.

Lemma withoutClasses_unmark e : withoutClasses (unmark e) = withoutClasses e.
Proof. reflexivity. Qed.

Lemma withoutClasses_mark e :
  withoutClasses (classListAdd marker e) = withoutClasses e.
Proof. reflexivity. Qed.

Lemma eraseClasses_stripAll ids c :
  eraseClasses (stripAll ids c) = eraseClasses c.
Proof.
  unfold stripAll. revert c. induction ids as [|i ids IH]; intros c;
    cbn [fold_left]; [reflexivity|].
  rewrite IH. apply eraseClasses_updateElem, withoutClasses_unmark.
Qed.

Lemma subtrees_eraseClasses c :
  subtrees (eraseClasses c) = map eraseClasses (subtrees c).
Proof.
  induction c as [e kids IH] using node_ind'.
  cbn [eraseClasses subtrees map]. f_equal.
  induction IH as [|k kids Hk _ IHk]; [reflexivity|].
  cbn [map flat_map]. now rewrite map_app, Hk, IHk.
Qed.

Lemma findElem_eraseClasses j c :
  findElem j (eraseClasses c) = option_map withoutClasses (findElem j c).
Proof.
  unfold findElem. rewrite subtrees_eraseClasses.
  induction (subtrees c) as [|n l IH]; [reflexivity|]. cbn [map find].
  rewrite eraseClasses_el. cbn [withoutClasses nid].
  destruct (Nat.eqb (nid (el n)) j); [|exact IH]. cbn.
  now rewrite eraseClasses_el.
Qed.

(** The transform attribute of an element is found in the document
    without its class lists. *)
Lemma transformAttr_erase (s1 s2 : state) (i : nat) :
  option_map eraseClasses (containerRef s1)
  = option_map eraseClasses (containerRef s2) ->
  transformAttr i s1 = transformAttr i s2.
Proof.
  unfold transformAttr. intros H.
  destruct (containerRef s1) as [c1|], (containerRef s2) as [c2|];
    try discriminate H; [|reflexivity].
  injection H as H.
  assert (Hf : option_map withoutClasses (findElem i c1)
               = option_map withoutClasses (findElem i c2))
    by now rewrite <- !findElem_eraseClasses, H.
  destruct (findElem i c1) as [e1|], (findElem i c2) as [e2|];
    try discriminate Hf; [|reflexivity].
  apply (f_equal (fun o => option_map attrs o)) in Hf. cbn in Hf.
  injection Hf as Hf. unfold getAttribute. now rewrite Hf.
Qed.

Lemma selectElement_erase (element : option nat) (s : state) :
  option_map eraseClasses (containerRef (selectElement element s))
  = option_map eraseClasses (containerRef s).
Proof.
  destruct (containerRef s) as [c|] eqn:Hc.
  - destruct (selectElement_container element s c Hc) as [-> _].
    cbn [option_map]. f_equal. destruct element as [b|].
    + unfold selected.
      rewrite eraseClasses_updateElem by apply withoutClasses_mark.
      apply eraseClasses_stripAll.
    + apply eraseClasses_stripAll.
  - unfold selectElement. now rewrite Hc, Hc.
Qed.

Lemma selectElement_frame (element : option nat) (s : state) :
  let s' := selectElement element s in
  transform s' = transform s /\ layers s' = layers s
  /\ detached s' = detached s /\ isDragging s' = isDragging s
  /\ dragStartRef s' = dragStartRef s /\ isEditing s' = isEditing s.
Proof.
  unfold selectElement. destruct (containerRef s); [|now repeat split].
  unfold clearSelection.
  assert (H : forall ids s0,
             let s' := fold_left clearMarker ids s0 in
             transform s' = transform s0 /\ layers s' = layers s0
             /\ detached s' = detached s0 /\ isDragging s' = isDragging s0
             /\ dragStartRef s' = dragStartRef s0
             /\ isEditing s' = isEditing s0).
  { induction ids as [|i ids IH]; intros s0; cbn [fold_left];
      [now repeat split|].
    destruct (IH (clearMarker s0 i)) as (H1 & H2 & H3 & H4 & H5 & H6).
    cbn zeta. now rewrite H1, H2, H3, H4, H5, H6. }
  destruct (H (clearTargets s) s) as (H1 & H2 & H3 & H4 & H5 & H6).
  cbv zeta in *. destruct element as [b|]; cbn; now repeat split.
Qed.

Lemma selectElement_keeps (element : option nat) (s : state) :
  let s' := selectElement element s in
  option_map eraseClasses (containerRef s')
  = option_map eraseClasses (containerRef s)
  /\ transform s' = transform s /\ layers s' = layers s.
Proof.
  split; [apply selectElement_erase|].
  destruct (selectElement_frame element s) as (H1 & H2 & _). now split.
Qed.

Lemma handleMouseDown_keeps (element : option nat) (inContainer : bool)
    (px py : Q) (s : state) :
  let s' := handleMouseDown element inContainer px py s in
  option_map eraseClasses (containerRef s')
  = option_map eraseClasses (containerRef s)
  /\ transform s' = transform s /\ layers s' = layers s.
Proof.
  unfold handleMouseDown. destruct (negb (isEditing s)); [now repeat split|].
  destruct element as [i|].
  - destruct (match selectedEl s with
              | Some j => Nat.eqb i j | None => false end);
      [now repeat split|apply selectElement_keeps].
  - destruct inContainer; [apply selectElement_keeps|now repeat split].
Qed.

(** X5.  Selecting, pressing and releasing change nothing in the document
    but class lists: identity, tag, attributes, inline style and text
    of every element, and the tree they form, stay as they are; and
    they leave the transform state and the layer list alone. *)
Theorem selection_keeps_content (element : option nat) (inContainer : bool)
    (px py : Q) (s : state) :
  (let s' := selectElement element s in
   option_map eraseClasses (containerRef s')
   = option_map eraseClasses (containerRef s)
   /\ transform s' = transform s /\ layers s' = layers s)
  /\ (let s' := handleMouseDown element inContainer px py s in
      option_map eraseClasses (containerRef s')
      = option_map eraseClasses (containerRef s)
      /\ transform s' = transform s /\ layers s' = layers s)
  /\ (let s' := handleWindowMouseUp s in
      containerRef s' = containerRef s
      /\ transform s' = transform s /\ layers s' = layers s
      /\ selectedEl s' = selectedEl s).
Proof.
  split; [apply selectElement_keeps|].
  split; [apply handleMouseDown_keeps|now repeat split].
Qed.

(** X3.  Written, deselected or moved to another element, selected again:
    the transform state read is the one that was written. *)
Theorem reselect_restores_transform (br : Browser) (s : state) (i : nat)
    (c : node) (e : elem) (st : TransformState) (other : option nat) :
  containerRef s = Some c -> findElem i c = Some e ->
  selectedEl s = Some i -> plainState st = true ->
  let s1 := applyTransform br st s in
  let s2 := selectionEffect (selectElement other s1) in
  let s3 := selectionEffect (selectElement (Some i) s2) in
  transform (selectionEffect s1) = st /\ transform s3 = st.
Proof.
  intros Hc He Hsel Hp s1 s2 s3.
  assert (Hattr : transformAttr i s1
                  = transformString st (fst (pivot br i)) (snd (pivot br i))).
  { unfold transformAttr. subst s1.
    rewrite (applyTransform_container br st s i Hsel), Hc. cbn [option_map].
    rewrite findElem_updateElem_same, He by apply keepsId_setAttribute.
    cbn [option_map]. unfold getAttribute, setAttribute. cbn [attrs].
    now rewrite assocGet_assocSet_eq. }
  assert (Hsel1 : selectedEl s1 = Some i).
  { subst s1. unfold applyTransform. rewrite Hsel.
    now destruct (pivot br i). }
  split.
  { unfold selectionEffect. rewrite Hsel1. cbn [transform setTransform].
    rewrite Hattr, parseTransform_written by exact Hp.
    now apply parseFloat_printed_state. }
  assert (Heff : forall t, containerRef (selectionEffect t) = containerRef t).
  { intros t. unfold selectionEffect. now destruct (selectedEl t). }
  assert (Hc1 : exists c1, containerRef s1 = Some c1).
  { subst s1. rewrite (applyTransform_container br st s i Hsel), Hc.
    cbn. eauto. }
  destruct Hc1 as [c1 Hc1].
  assert (Hc2 : exists c2, containerRef s2 = Some c2).
  { subst s2. rewrite Heff.
    destruct (selectElement_container other s1 c1 Hc1) as [-> _]. eauto. }
  destruct Hc2 as [c2 Hc2].
  destruct (selectElement_container (Some i) s2 c2 Hc2) as [_ Hsel3].
  subst s3. unfold selectionEffect at 1. rewrite Hsel3.
  cbn [transform setTransform].
  rewrite (transformAttr_erase _ s1 i).
  - rewrite Hattr, parseTransform_written by exact Hp.
    now apply parseFloat_printed_state.
  - rewrite selectElement_erase. subst s2. rewrite Heff.
    apply selectElement_erase.
Qed.
End Content.

Lemma reselect_restores_transform_witness :
let st := Editor.mkTransform (Fin 5 0) (Fin (-15) 1) (Fin 2 0) (Fin 90 0) in
let s1 := Editor.applyTransform Sample.browser st Sample.editing in
let s2 := Editor.selectionEffect (Editor.selectElement (Some 3%nat) s1) in
Editor.transform s2 = Editor.mkTransform (Fin 10 0) (Fin 20 0) num_one num_zero
/\ Editor.transform
     (Editor.selectionEffect (Editor.selectElement (Some 2%nat) s2)) = st.
Proof.
intros st s1 s2. split; [reflexivity|].
exact (proj2 (reselect_restores_transform Sample.browser Sample.editing 2
                Sample.container _ st (Some 3%nat)
                eq_refl eq_refl eq_refl eq_refl)).
Defined.

Lemma transform_text_round_trip_witness :
Editor.parseTransform "translate(5, -1.5) rotate(90, 25, 40) scale(0.000002)"
= Editor.mkTransform (Fin 5 0) (Fin (-15) 1) (Fin 2 6) (Fin 90 0).
Proof.
exact (transform_text_round_trip
         (Editor.mkTransform (Fin 5 0) (Fin (-15) 1) (Fin 2 6) (Fin 90 0))
         (Fin 25 0) (Fin 40 0) eq_refl).
Defined.


(** ** The layer list *)

Section Skeleton.
Import Dom Editor Marks Frames Steps.

Lemma skeleton_el n : el (skeleton n) = bare (el n).
Proof. now destruct n. Qed.

Lemma skeleton_updateElem i g c :
  (forall e, bare (g e) = bare e) -> skeleton (updateElem i g c) = skeleton c.
Proof.
  intros Hg. induction c as [e kids IH] using node_ind'.
  cbn [updateElem skeleton]. f_equal.
  - now destruct (Nat.eqb (nid e) i).
  - rewrite map_map. apply map_ext_in. intros k Hk.
    rewrite Forall_forall in IH. now apply IH.
Qed.

Lemma skeleton_erase c : skeleton (eraseClasses c) = skeleton c.
Proof.
  induction c as [e kids IH] using node_ind'. cbn [eraseClasses skeleton].
  f_equal. rewrite map_map. apply map_ext_in. intros k Hk.
  rewrite Forall_forall in IH. now apply IH.
Qed.

Lemma subtrees_skeleton c : subtrees (skeleton c) = map skeleton (subtrees c).
Proof.
  induction c as [e kids IH] using node_ind'.
  cbn [skeleton subtrees map]. f_equal.
  induction IH as [|k kids Hk _ IHk]; [reflexivity|].
  cbn [map flat_map]. now rewrite map_app, Hk, IHk.
Qed.

Lemma descendants_skeleton c :
  descendants (skeleton c) = map skeleton (descendants c).
Proof.
  destruct c as [e kids]. unfold descendants. cbn [skeleton children].
  induction kids as [|k kids IH]; [reflexivity|].
  cbn [map flat_map]. now rewrite map_app, subtrees_skeleton, IH.
Qed.

Lemma filter_map_comm {A B} (p : B -> bool) (q : A -> bool) (h : A -> B)
    (l : list A) :
  (forall a, p (h a) = q a) -> filter p (map h l) = map h (filter q l).
Proof.
  intros H. induction l as [|a l IH]; [reflexivity|]. cbn [map filter].
  rewrite H. destruct (q a); cbn [map]; now rewrite IH.
Qed.

(** Selecting by tag sees the skeleton only. *)
Lemma querySelectorAll_skeleton ts c :
  querySelectorAll (SelTags ts) (skeleton c)
  = map skeleton (querySelectorAll (SelTags ts) c).
Proof.
  unfold querySelectorAll. rewrite descendants_skeleton.
  apply filter_map_comm. intros n. cbn [matches]. now rewrite skeleton_el.
Qed.

Lemma querySelector_skeleton ts c :
  querySelector (SelTags ts) (skeleton c)
  = option_map skeleton (querySelector (SelTags ts) c).
Proof.
  unfold querySelector. rewrite querySelectorAll_skeleton.
  now destruct (querySelectorAll (SelTags ts) c).
Qed.

Lemma scan_ids_skeleton ts c :
  map (fun n => nid (el n)) (querySelectorAll (SelTags ts) (skeleton c))
  = map (fun n => nid (el n)) (querySelectorAll (SelTags ts) c).
Proof.
  rewrite querySelectorAll_skeleton, map_map. apply map_ext. intros n.
  now rewrite skeleton_el.
Qed.

(** What a scan lists depends on the skeleton of the document only. *)
Lemma scanLayers_skeleton (s1 s2 : state) :
  option_map skeleton (containerRef s1) = option_map skeleton (containerRef s2) ->
  layers s1 = layers s2 ->
  layers (scanLayers s1) = layers (scanLayers s2).
Proof.
  unfold scanLayers. intros H Hl.
  destruct (containerRef s1) as [c1|], (containerRef s2) as [c2|];
    try discriminate H; [|exact Hl].
  injection H as H.
  assert (Hq : option_map skeleton (querySelector (SelTags ["svg"]) c1)
               = option_map skeleton (querySelector (SelTags ["svg"]) c2))
    by now rewrite <- !querySelector_skeleton, H.
  destruct (querySelector (SelTags ["svg"]) c1) as [v1|],
           (querySelector (SelTags ["svg"]) c2) as [v2|];
    try discriminate Hq; [|reflexivity].
  injection Hq as Hq. cbn [layers setLayers].
  now rewrite <- (scan_ids_skeleton shapeTags v1), Hq, scan_ids_skeleton.
Qed.

Lemma skeleton_of_erase (o1 o2 : option node) :
  option_map eraseClasses o1 = option_map eraseClasses o2 ->
  option_map skeleton o1 = option_map skeleton o2.
Proof.
  destruct o1 as [c1|], o2 as [c2|]; try discriminate; [|reflexivity].
  intros [= H]. cbn. f_equal.
  now rewrite <- (skeleton_erase c1), H, skeleton_erase.
Qed.

Lemma mutateLive_skeleton i g (s : state) :
  (forall e, bare (g e) = bare e) ->
  option_map skeleton (containerRef (mutateLive i g s))
  = option_map skeleton (containerRef s).
Proof.
  intros Hg. cbn. destruct (containerRef s); [|reflexivity]. cbn.
  now rewrite skeleton_updateElem.
Qed.

Lemma bare_writeAttr attr v e : bare (writeAttr attr v e) = bare e.
Proof. unfold writeAttr. now destruct (String.eqb _ _). Qed.

Lemma applyTransform_skeleton br st (s : state) :
  option_map skeleton (containerRef (applyTransform br st s))
  = option_map skeleton (containerRef s)
  /\ layers (applyTransform br st s) = layers s.
Proof.
  unfold applyTransform. destruct (selectedEl s) as [i|]; [|now split].
  destruct (pivot br i) as [cx cy]. split; [|reflexivity].
  apply (mutateLive_skeleton i (setAttribute "transform" _) s).
  reflexivity.
Qed.

Lemma getSvgContent_layers (s : state) :
  layers (snd (getSvgContent s)) = layers s.
Proof.
  unfold getSvgContent.
  destruct (containerRef s) as [c|]; [|reflexivity].
  destruct (querySelector (SelTags ["svg"]) c); [|reflexivity].
  cbn [snd].
  match goal with
  | |- context [fold_left ?g ?ids ?s1] =>
      destruct (stripLoop_detached (List.length (detached s)) ids s1)
        as (_ & _ & _ & H & _)
  end.
  unfold unmark in H. now rewrite H.
Qed.

Lemma layersFresh_same (s s' : state) :
  option_map skeleton (containerRef s') = option_map skeleton (containerRef s) ->
  layers s' = layers s -> layersFresh s -> layersFresh s'.
Proof.
  unfold layersFresh. intros Hc Hl H.
  now rewrite (scanLayers_skeleton s' s Hc Hl), H.
Qed.

Lemma layersFresh_step (s s' : state) :
  step s s' -> layersFresh s -> layersFresh s'.
Proof.
  intros Hstep H. destruct Hstep.
  - destruct (selectElement_keeps element s) as (Hc & _ & Hl).
    apply (layersFresh_same s); [now apply skeleton_of_erase|exact Hl|exact H].
  - destruct (handleMouseDown_keeps element inContainer px py s)
      as (Hc & _ & Hl).
    apply (layersFresh_same s); [now apply skeleton_of_erase|exact Hl|exact H].
  - assert (Hm : option_map skeleton
                   (containerRef (handleWindowMouseMove br px py s))
                 = option_map skeleton (containerRef s)
                 /\ layers (handleWindowMouseMove br px py s) = layers s).
    { unfold handleWindowMouseMove.
      destruct (isDragging s); [|now split].
      destruct (selectedEl s); [|now split].
      destruct (dragStartRef s); [|now split].
      destruct (containerRef s) as [c|] eqn:Hc; [|now rewrite Hc].
      destruct (querySelector _ c); [|now rewrite Hc].
      destruct (getScreenCTM br); [|now rewrite Hc].
      rewrite <- Hc. apply applyTransform_skeleton. }
    destruct Hm as [Hc Hl]. now apply (layersFresh_same s).
  - now apply (layersFresh_same s).
  - apply (layersFresh_same s); [| |exact H];
      unfold selectionEffect; now destruct (selectedEl s).
  - destruct (applyTransform_skeleton br newState s) as [Hc Hl].
    now apply (layersFresh_same s).
  - apply (layersFresh_same s); [| |exact H];
      unfold updateAttribute; destruct (selectedEl s) as [i|];
      try reflexivity;
      destruct (match value with
                | Some v => String.eqb v "none" | None => true end);
      cbn [containerRef layers setLayers bumpUpdateTrigger];
      try reflexivity;
      apply mutateLive_skeleton; intros e; apply bare_writeAttr.
  - unfold handleDeleteElement. destruct (selectedEl s); [|exact H].
    unfold layersFresh. now rewrite scanLayers_idem.
  - unfold layersFresh. now rewrite scanLayers_idem.
  - apply (layersFresh_same s); [|apply getSvgContent_layers|exact H].
    now rewrite getSvgContent_frame.
Qed.

(** X6.  A scan makes the layer list fresh, and every callback of the
    editor keeps it so: after any number of selections, presses,
    moves, releases, transforms, attribute updates, deletions and
    serialisations the list is what a new scan of the document would
    give. *)
Theorem layers_stay_fresh :
  (forall s, layersFresh (scanLayers s))
  /\ (forall s s', steps s s' -> layersFresh s -> layersFresh s').
Proof.
  split.
  - intros s. unfold layersFresh. now rewrite scanLayers_idem.
  - intros s s' Hs. induction Hs as [|s s1 s2 _ IH Hstep]; intros H;
      [exact H|].
    apply (layersFresh_step s1 s2 Hstep). now apply IH.
Qed.
End Skeleton.

Lemma layers_stay_fresh_witness :
let s1 := Editor.scanLayers Sample.editing in
let s2 := Editor.handleDeleteElement
            (Editor.selectElement (Some 4%nat) s1) in
Editor.layers s2 = [2%nat; 3%nat]
/\ Frames.layersFresh s2.
Proof.
intros s1 s2. split; [reflexivity|].
apply (proj2 layers_stay_fresh s1 s2).
- eapply Steps.steps_next; [eapply Steps.steps_next; [apply Steps.steps_refl|]|].
  + apply (Steps.step_select (Some 4%nat)).
  + apply Steps.step_delete.
- apply (proj1 layers_stay_fresh).
Defined.


(** ** Attribute updates *)

Section Attributes.
Import Dom Editor Marks Frames.

Lemma writeAttr_frame (attr v : string) (e : elem) :
  let e' := writeAttr attr v e in
  getAttribute attr e' = Some v
  /\ (forall k, k <> attr ->
        getAttribute k e' = getAttribute k e
        /\ getPropertyValue k e' = getPropertyValue k e)
  /\ classes e' = classes e /\ text e' = text e
  /\ tag e' = tag e /\ nid e' = nid e
  /\ (getPropertyValue attr e = "" -> style e' = style e).
Proof.
  unfold writeAttr.
  change (getPropertyValue attr (setAttribute attr v e))
    with (getPropertyValue attr e).
  destruct (String.eqb_spec (getPropertyValue attr e) "") as [E|E]; cbn zeta.
  - split; [apply assocGet_assocSet_eq|].
    split; [|now repeat split].
    intros k Hk. split; [now apply assocGet_assocSet_ne|reflexivity].
  - split; [apply assocGet_assocSet_eq|].
    split; [|repeat split; intros; contradiction].
    intros k Hk. split; [now apply assocGet_assocSet_ne|].
    unfold getPropertyValue, setProperty. cbn [style setAttribute].
    now rewrite assocGet_assocSet_ne.
Qed.

(** X8.  [updateAttribute attr value] does nothing without a selection.
    With the element [i] selected it leaves that element with the
    attribute [attr] set to the value ([none] for [null]); the other
    attributes, the other style properties, the classes, the text and
    the tag of the element are what they were, and so is its whole
    inline style when it declares nothing for [attr]; every other
    element, the tree, the selection, the layer list and the
    transform state are untouched. *)
Theorem updateAttribute_frame (attr : string) (value : option string)
    (s : state) :
  (selectedEl s = None -> updateAttribute attr value s = s)
  /\ (forall i c e,
        selectedEl s = Some i -> containerRef s = Some c ->
        findElem i c = Some e ->
        let v := match value with Some v => v | None => "none" end in
        let s' := updateAttribute attr value s in
        exists c' e',
          containerRef s' = Some c' /\ findElem i c' = Some e'
          /\ getAttribute attr e' = Some v
          /\ (forall k, k <> attr ->
                getAttribute k e' = getAttribute k e
                /\ getPropertyValue k e' = getPropertyValue k e)
          /\ classes e' = classes e /\ text e' = text e
          /\ tag e' = tag e
          /\ (getPropertyValue attr e = "" -> style e' = style e)
          /\ (forall j, j <> i -> findElem j c' = findElem j c)
          /\ skeleton c' = skeleton c
          /\ selectedEl s' = Some i /\ layers s' = layers s
          /\ transform s' = transform s).
Proof.
  split.
  { intros Hs. unfold updateAttribute. now rewrite Hs. }
  intros i c e Hs Hc He v s'.
  exists (updateElem i (writeAttr attr v) c), (writeAttr attr v e).
  destruct (writeAttr_frame attr v e) as (H1 & H2 & H3 & H4 & H5 & H6 & H7).
  split.
  { subst s'. now rewrite (updateAttribute_container attr value s i Hs), Hc. }
  split.
  { rewrite findElem_updateElem_same, He by apply keepsId_writeAttr.
    reflexivity. }
  split; [exact H1|]. split; [exact H2|]. split; [exact H3|].
  split; [exact H4|]. split; [exact H5|]. split; [exact H7|].
  split.
  { intros j Hj. apply findElem_updateElem_other;
      [apply keepsId_writeAttr|exact Hj]. }
  split.
  { apply skeleton_updateElem. intros e0. apply bare_writeAttr. }
  subst s'. unfold updateAttribute. rewrite Hs.
  destruct (match value with
            | Some v0 => String.eqb v0 "none" | None => true end);
    cbn; now repeat split.
Qed.
End Attributes.

Lemma updateAttribute_frame_witness :
let s' := Editor.updateAttribute "stroke" (Some "#00ff00") Sample.editing in
exists c' e',
  Editor.containerRef s' = Some c' /\ Dom.findElem 2 c' = Some e'
  /\ Dom.getAttribute "stroke" e' = Some "#00ff00"
  /\ Dom.getAttribute "fill" e' = Some "red"
  /\ Dom.style e' = [("fill", "blue")].
Proof.
intros s'.
destruct (proj2 (updateAttribute_frame "stroke" (Some "#00ff00")
                   Sample.editing)
            2%nat Sample.container _ eq_refl eq_refl eq_refl)
  as (c' & e' & Hc & He & Ha & Hk & _ & _ & _ & Hst & _).
exists c', e'. split; [exact Hc|]. split; [exact He|]. split; [exact Ha|].
split.
- rewrite (proj1 (Hk "fill" ltac:(discriminate))). reflexivity.
- rewrite Hst; reflexivity.
Defined.


(** ** The serialised document and its consumers *)

Section Exporting.
Import Dom Editor Marks Frames.

(** The text and the copy [getSvgContent] makes. *)
Lemma getSvgContent_clone (s : state) (c svg : node) :
  containerRef s = Some c ->
  querySelector (SelTags ["svg"]) c = Some svg ->
  fst (getSvgContent s) = serializeToString (stripAll (markedIds svg) svg)
  /\ detached (snd (getSvgContent s))
     = (detached s ++ [stripAll (markedIds svg) svg])%list.
Proof.
  intros Hc Hq. unfold getSvgContent. rewrite Hc, Hq. cbn [fst snd].
  match goal with
  | |- context [fold_left ?g ?ids ?s1] =>
      destruct (stripLoop_detached (List.length (detached s)) ids s1)
        as (Hd & _)
  end.
  unfold cloneNode, unmark in *. fold idOf in *. fold (markedIds svg) in *.
  cbn [detached setDetached] in Hd. rewrite updateNth_last in Hd.
  rewrite Hd, nth_error_app2, Nat.sub_diag by lia. now cbn [nth_error].
Qed.

Lemma getSvgContent_none (s : state) :
  match containerRef s with
  | Some c => querySelector (SelTags ["svg"]) c = None
  | None => True
  end ->
  getSvgContent s = ("", s).
Proof.
  unfold getSvgContent. destruct (containerRef s); [|reflexivity].
  now intros ->.
Qed.

Lemma serializeToString_nonempty (n : node) :
  String.eqb (serializeToString n) "" = false.
Proof. destruct n as [e kids]. reflexivity. Qed.

Lemma getSvgContent_rest (s : state) :
  let s' := snd (getSvgContent s) in
  containerRef s' = containerRef s /\ selectedEl s' = selectedEl s
  /\ layers s' = layers s /\ transform s' = transform s.
Proof.
  unfold getSvgContent.
  destruct (containerRef s) as [c|] eqn:Hc;
    [|cbn [snd]; now rewrite Hc].
  destruct (querySelector (SelTags ["svg"]) c);
    [|cbn [snd]; now rewrite Hc].
  cbn [snd].
  match goal with
  | |- context [fold_left ?g ?ids ?s1] =>
      destruct (stripLoop_detached (List.length (detached s)) ids s1)
        as (_ & H1 & H2 & H3 & H4)
  end.
  unfold unmark in *. cbv zeta in *. rewrite H1, H2, H3, H4.
  cbn. now rewrite Hc.
Qed.


Lemma querySelector_updateElem ts i g c :
  (forall e, tag (g e) = tag e) ->
  querySelector (SelTags ts) (updateElem i g c)
  = option_map (updateElem i g) (querySelector (SelTags ts) c).
Proof.
  intros Hg. unfold querySelector, querySelectorAll.
  rewrite descendants_updateElem.
  rewrite (filter_map_comm _ (matches (SelTags ts))).
  - now destruct (filter _ (descendants c)).
  - intros n. cbn [matches]. rewrite el_updateElem. unfold upd.
    destruct (Nat.eqb _ _); [now rewrite Hg|reflexivity].
Qed.

Lemma querySelector_stripAll ts ids c :
  querySelector (SelTags ts) (stripAll ids c)
  = option_map (stripAll ids) (querySelector (SelTags ts) c).
Proof.
  unfold stripAll. revert c. induction ids as [|i ids IH]; intros c;
    cbn [fold_left].
  - now destruct (querySelector (SelTags ts) c).
  - rewrite IH, querySelector_updateElem by reflexivity.
    now destruct (querySelector (SelTags ts) c).
Qed.

Lemma eraseClasses_updateElem_comm i g c :
  (forall e, withoutClasses (g e) = g (withoutClasses e)) ->
  eraseClasses (updateElem i g c) = updateElem i g (eraseClasses c).
Proof.
  intros Hg. induction c as [e kids IH] using node_ind'.
  cbn [updateElem eraseClasses]. f_equal.
  - cbn [withoutClasses nid]. destruct (Nat.eqb (nid e) i); [apply Hg|reflexivity].
  - rewrite !map_map. apply map_ext_in. intros k Hk.
    rewrite Forall_forall in IH. now apply IH.
Qed.

Lemma withoutClasses_writeAttr attr v e :
  withoutClasses (writeAttr attr v e) = writeAttr attr v (withoutClasses e).
Proof.
  unfold writeAttr.
  change (getPropertyValue attr (setAttribute attr v (withoutClasses e)))
    with (getPropertyValue attr (setAttribute attr v e)).
  now destruct (String.eqb _ _).
Qed.

(** X9.  Select an element, give it a fill, serialise: the text is that of
    a copy of the svg root which, class lists apart, is the svg root
    with the fill written on the selected element and nothing else
    changed.  The element has the new [fill] attribute and its other
    attributes as before; every other element has its identity, tag,
    attributes, style and text as before. *)
Theorem recolour_end_to_end (s : state) (c svg : node) (i : nat)
    (v : string) :
  containerRef s = Some c ->
  querySelector (SelTags ["svg"]) c = Some svg ->
  let s1 := selectElement (Some i) s in
  let s2 := updateAttribute "fill" (Some v) s1 in
  let out := getSvgContent s2 in
  exists clone,
    fst out = serializeToString clone
    /\ detached (snd out) = (detached s ++ [clone])%list
    /\ eraseClasses clone
       = eraseClasses (updateElem i (writeAttr "fill" v) svg)
    /\ (forall e, findElem i svg = Some e ->
          exists e', findElem i clone = Some e'
                     /\ getAttribute "fill" e' = Some v
                     /\ (forall k, k <> "fill" ->
                           getAttribute k e' = getAttribute k e)
                     /\ text e' = text e /\ tag e' = tag e)
    /\ (forall j, j <> i ->
          option_map withoutClasses (findElem j clone)
          = option_map withoutClasses (findElem j svg)).
Proof.
  intros Hc Hq s1 s2 out. subst out.
  destruct (selectElement_container (Some i) s c Hc) as [Hc1 Hs1].
  fold s1 in Hc1, Hs1.
  assert (Hc2 : containerRef s2
                = Some (updateElem i (writeAttr "fill" v) (selected i c))).
  { subst s2. now rewrite (updateAttribute_container "fill" (Some v) s1 i Hs1), Hc1. }
  set (svg2 := updateElem i (writeAttr "fill" v)
                 (updateElem i (classListAdd marker)
                    (stripAll (markedIds c) svg))).
  assert (Hq2 : querySelector (SelTags ["svg"])
                  (updateElem i (writeAttr "fill" v) (selected i c))
                = Some svg2).
  { unfold selected.
    rewrite querySelector_updateElem
      by (intros e; unfold writeAttr; now destruct (String.eqb _ _)).
    rewrite querySelector_updateElem by reflexivity.
    now rewrite querySelector_stripAll, Hq. }
  destruct (getSvgContent_clone s2 _ svg2 Hc2 Hq2) as [Ht Hd].
  set (clone := stripAll (markedIds svg2) svg2) in *.
  assert (Herase : eraseClasses clone
                   = eraseClasses (updateElem i (writeAttr "fill" v) svg)).
  { subst clone svg2. rewrite eraseClasses_stripAll.
    rewrite !(eraseClasses_updateElem_comm i (writeAttr "fill" v))
      by (intros e; apply withoutClasses_writeAttr).
    f_equal.
    rewrite eraseClasses_updateElem by apply withoutClasses_mark.
    apply eraseClasses_stripAll. }
  assert (Hfind : forall j,
             option_map withoutClasses (findElem j clone)
             = option_map withoutClasses
                 (findElem j (updateElem i (writeAttr "fill" v) svg)))
    by (intros j; now rewrite <- !findElem_eraseClasses, Herase).
  exists clone. split; [exact Ht|]. split.
  { rewrite Hd. f_equal. subst s2 s1. unfold updateAttribute.
    destruct (selectElement_frame (Some i) s) as (_ & _ & Hdet & _).
    destruct (selectedEl (selectElement (Some i) s)); [|exact Hdet].
    destruct (String.eqb v "none"); exact Hdet. }
  split; [exact Herase|]. split.
  - intros e He. specialize (Hfind i).
    rewrite findElem_updateElem_same, He in Hfind by apply keepsId_writeAttr.
    cbn [option_map] in Hfind.
    destruct (findElem i clone) as [e'|]; [|discriminate Hfind].
    injection Hfind as _ Htag Ha _ Htext. exists e'. split; [reflexivity|].
    destruct (writeAttr_frame "fill" v e) as (F1 & F2 & _ & F4 & F5 & _).
    unfold getAttribute in *. rewrite Ha.
    split; [exact F1|]. split; [intros k Hk; apply (F2 k Hk)|].
    split; congruence.
  - intros j Hj. rewrite Hfind.
    now rewrite findElem_updateElem_other by
      (assumption || apply keepsId_writeAttr).
Qed.
End Exporting.

Lemma recolour_end_to_end_witness :
let out := Editor.getSvgContent
             (Editor.updateAttribute "fill" (Some "#00ff00")
                (Editor.selectElement (Some 3%nat) Sample.editing)) in
exists clone e3,
  fst out = Dom.serializeToString clone
  /\ Dom.findElem 3 clone = Some e3
  /\ Dom.getAttribute "fill" e3 = Some "#00ff00"
  /\ Dom.getAttribute "transform" e3 = Some "translate(10, 20)"
  /\ option_map Frames.withoutClasses (Dom.findElem 2 clone)
     = option_map Frames.withoutClasses (Dom.findElem 2 Sample.svg).
Proof.
destruct (recolour_end_to_end Sample.editing Sample.container Sample.svg 3
            "#00ff00" eq_refl eq_refl) as (clone & Ht & _ & _ & Hi & Hj).
destruct (Hi _ eq_refl) as (e3 & He3 & Hfill & Hk & _).
exists clone, e3. split; [exact Ht|]. split; [exact He3|].
split; [exact Hfill|]. split.
- rewrite (Hk "transform" ltac:(discriminate)). reflexivity.
- apply Hj. discriminate.
Defined.



(** ** Transforms and drags, one after the other *)

Section Overwrite.
Import Dom Editor Marks Frames Values.

Lemma assocSet_assocSet k v1 v2 l :
  assocSet k v2 (assocSet k v1 l) = assocSet k v2 l.
Proof.
  induction l as [|[k' v'] l IH]; cbn [assocSet].
  - now rewrite String.eqb_refl.
  - destruct (String.eqb k k') eqn:E; cbn [assocSet].
    + now rewrite String.eqb_refl.
    + now rewrite E, IH.
Qed.

Lemma setAttribute_twice k v1 v2 e :
  setAttribute k v2 (setAttribute k v1 e) = setAttribute k v2 e.
Proof. unfold setAttribute. cbn. now rewrite assocSet_assocSet. Qed.

Lemma updateElem_twice i g1 g2 c :
  keepsId g1 ->
  updateElem i g2 (updateElem i g1 c) = updateElem i (fun e => g2 (g1 e)) c.
Proof.
  intros Hg. induction c as [e kids IH] using node_ind'.
  cbn [updateElem]. f_equal.
  - destruct (Nat.eqb_spec (nid e) i) as [E|E].
    + now rewrite Hg, E, Nat.eqb_refl.
    + destruct (Nat.eqb_spec (nid e) i); [contradiction|reflexivity].
  - rewrite map_map. apply map_ext_in. intros k Hk.
    rewrite Forall_forall in IH. now apply IH.
Qed.

Lemma updateElem_ext i g g' c :
  (forall e, g e = g' e) -> updateElem i g c = updateElem i g' c.
Proof.
  intros Hg. induction c as [e kids IH] using node_ind'.
  cbn [updateElem]. f_equal.
  - now rewrite Hg.
  - apply map_ext_in. intros k Hk. rewrite Forall_forall in IH. now apply IH.
Qed.

Lemma sameButTrigger_refl (s : state) : sameButTrigger s s.
Proof. now repeat split. Qed.

Lemma applyTransform_twice br st1 st2 (s : state) :
  sameButTrigger (applyTransform br st2 (applyTransform br st1 s))
                 (applyTransform br st2 s).
Proof.
  unfold applyTransform at 2 3.
  destruct (selectedEl s) as [i|] eqn:Hs;
    [|unfold applyTransform; rewrite Hs; apply sameButTrigger_refl].
  destruct (pivot br i) as [cx cy] eqn:Hp.
  unfold applyTransform.
  cbn [selectedEl bumpUpdateTrigger setTransform mutateLive setContainer].
  rewrite Hs, Hp. unfold sameButTrigger. cbn.
  repeat split.
  destruct (containerRef s) as [c|]; [|reflexivity]. cbn. f_equal.
  rewrite updateElem_twice by apply keepsId_setAttribute.
  apply updateElem_ext. intros e. apply setAttribute_twice.
Qed.

Variable br : Browser.

Lemma handleWindowMouseMove_cases (s : state) :
  (forall px py, handleWindowMouseMove br px py s = s)
  \/ (forall px py, exists st,
        handleWindowMouseMove br px py s = applyTransform br st s
        /\ scale st = scale (transform s) /\ rotate st = rotate (transform s)
        /\ (forall s2,
              isDragging s2 = isDragging s -> selectedEl s2 = selectedEl s ->
              dragStartRef s2 = dragStartRef s ->
              option_map skeleton (containerRef s2)
              = option_map skeleton (containerRef s) ->
              scale (transform s2) = scale (transform s) ->
              rotate (transform s2) = rotate (transform s) ->
              handleWindowMouseMove br px py s2 = applyTransform br st s2)).
Proof.
  unfold handleWindowMouseMove at 1 2.
  destruct (isDragging s) eqn:Hd; [|now left].
  destruct (selectedEl s) as [i|] eqn:Hs; [|now left].
  destruct (dragStartRef s) as [ds|] eqn:Hds; [|now left].
  destruct (containerRef s) as [c|] eqn:Hc; [|now left].
  destruct (querySelector (SelTags ["svg"]) c) as [svg|] eqn:Hq; [|now left].
  destruct (getScreenCTM br) as [ctm|] eqn:Hctm; [|now left].
  right. intros px py. eexists. split; [reflexivity|]. split; [reflexivity|].
  split; [reflexivity|].
  intros s2 H1 H2 H3 H4 H5 H6. unfold handleWindowMouseMove.
  rewrite H1, H2, H3.
  destruct (containerRef s2) as [c2|]; [|discriminate H4].
  injection H4 as H4.
  assert (Hq2 : querySelector (SelTags ["svg"]) c2 <> None).
  { intros E.
    assert (Hs2 : querySelector (SelTags ["svg"]) (skeleton c2) = None)
      by now rewrite querySelector_skeleton, E.
    rewrite H4, querySelector_skeleton, Hq in Hs2. discriminate Hs2. }
  destruct (querySelector (SelTags ["svg"]) c2); [|contradiction].
  rewrite Hctm, H5, H6. reflexivity.
Qed.

Lemma applyTransform_rest st (s : state) :
  let s' := applyTransform br st s in
  isDragging s' = isDragging s /\ selectedEl s' = selectedEl s
  /\ dragStartRef s' = dragStartRef s
  /\ (selectedEl s <> None -> transform s' = st).
Proof.
  unfold applyTransform. destruct (selectedEl s) as [i|] eqn:Hs.
  - destruct (pivot br i). cbn. now rewrite Hs.
  - cbv zeta. rewrite Hs. repeat split. intros H. now contradiction H.
Qed.

(** X12.  A drag does not drift: the outcome of a second move is that of
    this move alone (but for the render counter), whatever the first
    move was.  A move after the release does nothing.  And pressing
    the selected element and releasing it without a move leaves the
    state as it was. *)
Theorem drag_session (s : state) :
  (forall p1x p1y p2x p2y,
      sameButTrigger
        (handleWindowMouseMove br p2x p2y (handleWindowMouseMove br p1x p1y s))
        (handleWindowMouseMove br p2x p2y s))
  /\ (forall px py,
        handleWindowMouseMove br px py (handleWindowMouseUp s)
        = handleWindowMouseUp s)
  /\ (forall i inContainer px py,
        isEditing s = true -> selectedEl s = Some i ->
        isDragging s = false -> dragStartRef s = None ->
        handleWindowMouseUp (handleMouseDown (Some i) inContainer px py s)
        = s).
Proof.
  split; [|split].
  - intros p1x p1y p2x p2y.
    destruct (handleWindowMouseMove_cases s) as [H|H].
    { rewrite !H. apply sameButTrigger_refl. }
    destruct (H p1x p1y) as (st1 & E1 & Hsc & Hro & _).
    destruct (H p2x p2y) as (st2 & E2 & _ & _ & H2).
    destruct (applyTransform_rest st1 s) as (R1 & R2 & R3 & R4).
    cbv zeta in *.
    rewrite E1, E2, (H2 (applyTransform br st1 s)); try assumption.
    + apply applyTransform_twice.
    + apply applyTransform_skeleton.
    + destruct (selectedEl s) as [i|] eqn:Hs.
      * rewrite R4 by discriminate. exact Hsc.
      * unfold applyTransform. now rewrite Hs.
    + destruct (selectedEl s) as [i|] eqn:Hs.
      * rewrite R4 by discriminate. exact Hro.
      * unfold applyTransform. now rewrite Hs.
  - reflexivity.
  - intros i inContainer px py He Hs Hd Hds. unfold handleMouseDown.
    rewrite He, Hs, Nat.eqb_refl. cbn [negb].
    destruct s. cbn in *. now subst.
Qed.
End Overwrite.

Lemma drag_session_witness :
Editor.handleWindowMouseUp
  (Editor.handleMouseDown (Some 2%nat) true 130 80 Sample.editing)
= Sample.editing.
Proof.
exact (proj2 (proj2 (drag_session Sample.browser Sample.editing))
         2%nat true 130%Q 80%Q eq_refl eq_refl eq_refl eq_refl).
Defined.

Section Zoom.
Import Dom Editor Marks Frames Values.
Variable br : Browser.

Lemma Qeq_bool_false_neq (p : Q) : Qeq_bool p 0 = false -> ~ (p == 0)%Q.
Proof. intros H E. apply Qeq_bool_iff in E. congruence. Qed.

End Zoom.



(** ** Deleting a subtree; the highlight *)

Section Removal.
Import Dom Editor Marks Frames Steps.

Lemma removeElem_el i c : el (removeElem i c) = el c.
Proof. now destruct c. Qed.

Lemma removeElem_cons i e k ks :
  children (removeElem i (Node e (k :: ks)))
  = if Nat.eqb (nid (el k)) i then children (removeElem i (Node e ks))
    else removeElem i k :: children (removeElem i (Node e ks)).
Proof. reflexivity. Qed.

Lemma removeElem_node i e ks :
  removeElem i (Node e ks) = Node e (children (removeElem i (Node e ks))).
Proof. reflexivity. Qed.

(** Removing an element that is not there changes nothing. *)
Lemma removeElem_absent i c :
  ~ In i (map idOf (descendants c)) -> removeElem i c = c.
Proof.
  induction c as [e kids IH] using node_ind'. intros Hn.
  rewrite removeElem_node. f_equal.
  unfold descendants in Hn. cbn [children] in Hn.
  induction IH as [|k ks Hk _ IHks]; [reflexivity|].
  cbn [flat_map] in Hn. rewrite map_app in Hn.
  rewrite removeElem_cons.
  destruct k as [ek kk]. cbn [subtrees map el] in Hn.
  destruct (Nat.eqb_spec (nid ek) i) as [E|E].
  - exfalso. apply Hn. left. exact E.
  - cbn [el]. destruct (Nat.eqb_spec (nid ek) i); [contradiction|].
    f_equal.
    + apply Hk. intros H. apply Hn. right. apply in_or_app. now left.
    + apply IHks. intros H. apply Hn. right. apply in_or_app. now right.
Qed.

Lemma NoDup_ids_eq (l : list node) (n m : node) :
  NoDup (map idOf l) -> In n l -> In m l -> idOf n = idOf m -> n = m.
Proof.
  induction l as [|a l IH]; [contradiction|]. cbn [map].
  intros Hnd [->|Hn] [->|Hm] E; try reflexivity.
  - inversion Hnd as [|? ? Hnot _]. exfalso. apply Hnot. rewrite E.
    now apply in_map.
  - inversion Hnd as [|? ? Hnot _]. exfalso. apply Hnot. rewrite <- E.
    now apply in_map.
  - inversion Hnd. now apply IH.
Qed.

Lemma NoDup_app_parts {A} (l1 l2 : list A) :
  NoDup (l1 ++ l2) ->
  NoDup l1 /\ NoDup l2 /\ (forall a, In a l1 -> ~ In a l2).
Proof.
  induction l1 as [|a l1 IH]; cbn [app]; intros H.
  - split; [constructor|]. split; [exact H|]. intros a [].
  - inversion H as [|? ? Hnot Hnd]; subst.
    destruct (IH Hnd) as (H1 & H2 & H3).
    split; [constructor; [|exact H1]|].
    { intros Hin. apply Hnot. apply in_or_app. now left. }
    split; [exact H2|].
    intros b [<-|Hb]; [|now apply H3].
    intros Hin. apply Hnot. apply in_or_app. now right.
Qed.

(** The document order splits around the removed element and what is
    below it. *)
Lemma removeElem_split i n c :
  NoDup (map idOf (descendants c)) ->
  In n (descendants c) -> idOf n = i ->
  exists l1 l2,
    elemsBelow c = (l1 ++ map el (subtrees n) ++ l2)%list
    /\ elemsBelow (removeElem i c) = (l1 ++ l2)%list.
Proof.
  induction c as [e kids IH] using node_ind'.
  unfold elemsBelow, descendants. rewrite removeElem_node.
  cbn [children].
  induction IH as [|k ks Hk _ IHks]; [contradiction|].
  cbn [flat_map]. rewrite map_app. intros Hnd Hin Hi.
  destruct (NoDup_app_parts _ _ Hnd) as (Hnd1 & Hnd2 & Hdis).
  rewrite removeElem_cons.
  apply in_app_or in Hin as [Hin|Hin].
  - (* the element is [k] or below it: the later siblings stay *)
    assert (Hi' : In i (map idOf (subtrees k)))
      by (rewrite <- Hi; now apply in_map).
    assert (Hrest : children (removeElem i (Node e ks)) = ks).
    { assert (H : removeElem i (Node e ks) = Node e ks).
      { apply removeElem_absent. unfold descendants. cbn [children].
        now apply Hdis. }
      now rewrite H. }
    rewrite Hrest.
    destruct (Nat.eqb_spec (nid (el k)) i) as [E|E].
    + assert (n = k).
      { apply (NoDup_ids_eq (subtrees k)); try assumption.
        - destruct k; now left.
        - unfold idOf in *. congruence. }
      subst n. exists [], (map el (flat_map subtrees ks)).
      split; [now rewrite map_app|reflexivity].
    + assert (Hin' : In n (descendants k)).
      { destruct k as [ek kk]. cbn [subtrees] in Hin.
        destruct Hin as [<-|Hin]; [|exact Hin].
        exfalso. apply E. exact Hi. }
      assert (Hndk : NoDup (map idOf (descendants k))).
      { destruct k as [ek kk]. cbn [subtrees map] in Hnd1.
        now inversion Hnd1. }
      destruct (Hk Hndk Hin' Hi) as (a & b & Ha & Hb).
      unfold elemsBelow in Ha, Hb.
      exists (el k :: a), (b ++ map el (flat_map subtrees ks))%list.
      cbn [flat_map]. rewrite !map_app.
      assert (Hsub : forall m, map el (subtrees m)
                               = el m :: map el (descendants m))
        by (intros [em km]; reflexivity).
      rewrite (Hsub k), (Hsub (removeElem i k)), removeElem_el, Ha, Hb.
      cbn [app]. rewrite <- !app_assoc. split; reflexivity.
  - (* the element is below a later sibling: [k] stays *)
    assert (Hno : ~ In i (map idOf (subtrees k))).
    { intros H. apply (Hdis i H). rewrite <- Hi. now apply in_map. }
    assert (Ek : Nat.eqb (nid (el k)) i = false).
    { apply Nat.eqb_neq. intros E. apply Hno. destruct k as [ek kk].
      left. exact E. }
    assert (Hk' : removeElem i k = k).
    { apply removeElem_absent. intros H. apply Hno.
      destruct k as [ek kk]. right. exact H. }
    rewrite Ek, Hk'.
    destruct (IHks Hnd2 Hin Hi) as (l1 & l2 & H1 & H2).
    exists (map el (subtrees k) ++ l1)%list, l2.
    cbn [flat_map]. rewrite !map_app, H1, H2, <- !app_assoc.
    split; reflexivity.
Qed.
End Removal.

Section DeleteSubtree.
Import Dom Editor Marks Frames Steps.

Lemma subtrees_ids c :
  map idOf (subtrees c) = idOf c :: map nid (elemsBelow c).
Proof.
  destruct c as [e kids]. unfold elemsBelow, descendants.
  cbn [subtrees map children]. unfold idOf at 1. f_equal.
  now rewrite map_map.
Qed.

Lemma handleDeleteElement_idem (s : state) :
  handleDeleteElement (handleDeleteElement s) = handleDeleteElement s.
Proof.
  assert (H : forall t, selectedEl (scanLayers t) = selectedEl t).
  { intros t. unfold scanLayers. destruct (containerRef t); [|reflexivity].
    now destruct (querySelector _ _). }
  destruct (selectedEl s) as [i|] eqn:Hs.
  - assert (E : selectedEl (handleDeleteElement s) = None).
    { unfold handleDeleteElement. rewrite Hs. now rewrite H. }
    unfold handleDeleteElement at 1. now rewrite E.
  - unfold handleDeleteElement. now rewrite Hs, Hs.
Qed.

(** X14.  Deleting the selected element takes it out with everything below
    it and nothing else: the document order of the elements splits
    around the element's subtree, what comes before and after stays
    as it is and in its order, no element of the subtree is in the
    document or in the layer list any more; and a second deletion
    does nothing. *)
Theorem handleDeleteElement_subtree (s : state) (i : nat) (c n : node) :
  selectedEl s = Some i -> containerRef s = Some c -> wellFormed c ->
  In n (descendants c) -> idOf n = i ->
  let s' := handleDeleteElement s in
  exists c' l1 l2,
    containerRef s' = Some c' /\ el c' = el c
    /\ elemsBelow c = (l1 ++ map el (subtrees n) ++ l2)%list
    /\ elemsBelow c' = (l1 ++ l2)%list
    /\ (forall m, In m (subtrees n) ->
          ~ In (idOf m) (map idOf (subtrees c'))
          /\ ~ In (idOf m) (layers s'))
    /\ handleDeleteElement s' = s'.
Proof.
  intros Hs Hc Hwf Hn Hi s'.
  assert (Hnd : NoDup (map idOf (descendants c))).
  { unfold wellFormed in Hwf. destruct c as [e kids].
    cbn [subtrees map] in Hwf. now inversion Hwf. }
  destruct (removeElem_split i n c Hnd Hn Hi) as (l1 & l2 & H1 & H2).
  assert (Hc' : containerRef s' = Some (removeElem i c)).
  { subst s'. unfold handleDeleteElement. rewrite Hs.
    rewrite scanLayers_containerRef. cbn. now rewrite Hc. }
  exists (removeElem i c), l1, l2.
  split; [exact Hc'|]. split; [apply removeElem_el|].
  split; [exact H1|]. split; [exact H2|].
  split; [|apply handleDeleteElement_idem].
  intros m Hm.
  assert (Hgone : ~ In (idOf m) (map idOf (subtrees (removeElem i c)))).
  { rewrite subtrees_ids, H2. unfold wellFormed in Hwf.
    rewrite subtrees_ids, H1 in Hwf.
    replace (idOf (removeElem i c)) with (idOf c)
      by (unfold idOf; now rewrite removeElem_el).
    assert (Hin : In (idOf m) (map nid (map el (subtrees n)))).
    { rewrite map_map. now apply (in_map idOf). }
    inversion Hwf as [|? ? Hroot Hrest]; subst.
    rewrite !map_app in Hroot, Hrest.
    intros [E|Hl].
    - apply Hroot. rewrite E. apply in_or_app. right.
      apply in_or_app. now left.
    - rewrite map_app in Hl.
      destruct (NoDup_app_parts _ _ Hrest) as (_ & Hr2 & Hd1).
      destruct (NoDup_app_parts _ _ Hr2) as (_ & _ & Hd2).
      apply in_app_or in Hl as [Hl|Hl].
      + apply (Hd1 _ Hl). apply in_or_app. now left.
      + now apply (Hd2 _ Hin). }
  split; [exact Hgone|].
  intros Hl. apply Hgone.
  assert (Hfresh : layers s' = layers (scanLayers s')).
  { subst s'. unfold handleDeleteElement. rewrite Hs.
    now rewrite scanLayers_idem. }
  rewrite Hfresh in Hl.
  destruct (scanLayers_layers s' _ Hc' _ Hl) as (k & Hk & Hidk & _).
  rewrite <- Hidk. apply (in_map idOf). now apply descendants_subtrees.
Qed.

Lemma markedIds_removeElem_in i c j :
  In j (markedIds (removeElem i c)) -> In j (markedIds c) /\ j <> i.
Proof.
  intros H. split.
  - rewrite markedIds_elems in *.
    revert H. apply sublist_In, sublist_map, sublist_filter, removeElem_below.
  - apply markedIds_descendants in H. apply in_map_iff in H as (n & <- & Hn).
    now apply (removeElem_descendants i c n).
Qed.

Lemma markerIsSelection_same (s s' : state) :
  containerRef s' = containerRef s -> selectedEl s' = selectedEl s ->
  markerIsSelection s -> markerIsSelection s'.
Proof. unfold markerIsSelection. now intros -> ->. Qed.

Lemma markerIsSelection_mutate (s : state) i g :
  keepsId g -> (forall e, classes (g e) = classes e) ->
  markerIsSelection s -> markerIsSelection (mutateLive i g s).
Proof.
  intros Hid Hcl. unfold markerIsSelection, mutateLive.
  cbn [containerRef setContainer selectedEl].
  destruct (containerRef s) as [c|]; [|easy]. cbn [option_map].
  intros [Hwf Hm]. split; [now apply wellFormed_updateElem|].
  now rewrite markedIds_updateElem_frame.
Qed.

Lemma markerIsSelection_select element (s : state) :
  match containerRef s with Some c => wellFormed c | None => True end ->
  markerIsSelection (selectElement element s).
Proof.
  destruct (containerRef s) as [c|] eqn:Hc.
  - intros Hwf.
    destruct (selectElement_container element s c Hc) as [Hc' Hs'].
    unfold markerIsSelection. rewrite Hc', Hs'. destruct element as [b|].
    + split; [now apply wellFormed_selected|].
      intros j Hj. f_equal. symmetry.
      now apply (markedIds_selected_only b c).
    + split; [now apply wellFormed_stripAll|].
      rewrite markedIds_stripAll. intros j [].
  - intros _. unfold selectElement. rewrite Hc. unfold markerIsSelection.
    now rewrite Hc.
Qed.

Lemma markerIsSelection_wf (s : state) :
  markerIsSelection s ->
  match containerRef s with Some c => wellFormed c | None => True end.
Proof.
  unfold markerIsSelection. destruct (containerRef s); [|easy]. now intros [].
Qed.

Lemma markerIsSelection_apply br newState (s : state) :
  markerIsSelection s -> markerIsSelection (applyTransform br newState s).
Proof.
  intros H. unfold applyTransform.
  destruct (selectedEl s) as [i|] eqn:Hs; [|exact H].
  destruct (pivot br i) as [cx cy].
  match goal with
  | |- markerIsSelection (bumpUpdateTrigger (setTransform _ ?s1)) =>
      apply (markerIsSelection_same s1); [reflexivity|reflexivity|]
  end.
  apply markerIsSelection_mutate; [apply keepsId_setAttribute|reflexivity|exact H].
Qed.

Lemma markerIsSelection_step (s s' : state) :
  step s s' -> markerIsSelection s -> markerIsSelection s'.
Proof.
  intros Hstep H. destruct Hstep.
  - now apply markerIsSelection_select, markerIsSelection_wf.
  - unfold handleMouseDown. destruct (negb (isEditing s)); [exact H|].
    destruct element as [i|].
    + destruct (match selectedEl s with
                | Some j => Nat.eqb i j | None => false end);
        [exact H|now apply markerIsSelection_select, markerIsSelection_wf].
    + destruct inContainer;
        [now apply markerIsSelection_select, markerIsSelection_wf|exact H].
  - unfold handleWindowMouseMove.
    destruct (isDragging s); [|exact H].
    destruct (selectedEl s) eqn:Hs; [|exact H].
    destruct (dragStartRef s); [|exact H].
    destruct (containerRef s) as [c|] eqn:Hc; [|exact H].
    destruct (querySelector _ c); [|exact H].
    destruct (getScreenCTM br); [|exact H].
    now apply markerIsSelection_apply.
  - exact H.
  - unfold selectionEffect. destruct (selectedEl s); exact H.
  - now apply markerIsSelection_apply.
  - unfold updateAttribute. destruct (selectedEl s) as [i|] eqn:Hs; [|exact H].
    match goal with
    | |- markerIsSelection (setLayers _ (bumpUpdateTrigger ?s1)) =>
        apply (markerIsSelection_same s1); [reflexivity|reflexivity|]
    end.
    destruct (match value with
              | Some v => String.eqb v "none" | None => true end);
      (apply markerIsSelection_mutate;
       [apply keepsId_writeAttr
       |intros e; unfold writeAttr; destruct (String.eqb _ _); reflexivity
       |exact H]).
  - unfold handleDeleteElement. destruct (selectedEl s) as [i|] eqn:Hs;
      [|exact H].
    match goal with
    | |- markerIsSelection (scanLayers ?s1) =>
        apply (markerIsSelection_same s1);
          [apply scanLayers_containerRef
          |unfold scanLayers; destruct (containerRef s1); [|reflexivity];
           now destruct (querySelector _ _)|]
    end.
    unfold markerIsSelection in *.
    cbn [containerRef setSelectedEl setContainer selectedEl].
    destruct (containerRef s) as [c|]; [|easy]. cbn [option_map].
    destruct H as [Hwf Hm]. split; [now apply wellFormed_removeElem|].
    intros j Hj. apply markedIds_removeElem_in in Hj as [Hj Hne].
    specialize (Hm j Hj). rewrite Hs in Hm. congruence.
  - apply (markerIsSelection_same s); [apply scanLayers_containerRef| |exact H].
    unfold scanLayers. destruct (containerRef s); [|reflexivity].
    now destruct (querySelector _ _).
  - apply (markerIsSelection_same s); [apply getSvgContent_frame| |exact H].
    apply getSvgContent_rest.
Qed.

(** X7.  The highlight follows the selection.  In a document of distinct
    element objects, after any [selectElement] the only element that
    can carry the marker is the selected one; and every callback of
    the editor keeps it so - in particular no element is highlighted
    once the selected one was deleted or the selection cleared. *)
Theorem highlight_follows_selection :
  (forall element s,
      match containerRef s with Some c => wellFormed c | None => True end ->
      markerIsSelection (selectElement element s))
  /\ (forall s s', steps s s' -> markerIsSelection s -> markerIsSelection s')
  /\ (forall s, markerIsSelection s -> selectedEl s = None ->
                clearTargets s = []).
Proof.
  split; [exact markerIsSelection_select|]. split.
  - intros s s' Hs. induction Hs as [|s s1 s2 _ IH Hstep]; intros H;
      [exact H|].
    apply (markerIsSelection_step s1 s2 Hstep). now apply IH.
  - intros s H Hs. rewrite clearTargets_markedIds.
    unfold markerIsSelection in H. destruct (containerRef s) as [c|];
      [|reflexivity].
    destruct H as [_ Hm]. destruct (markedIds c) as [|j l]; [reflexivity|].
    specialize (Hm j (or_introl eq_refl)). congruence.
Qed.
End DeleteSubtree.

Lemma handleDeleteElement_subtree_witness :
let s := Editor.selectElement (Some 4%nat) Sample.editing in
let s' := Editor.handleDeleteElement s in
Editor.layers s' = [2%nat; 3%nat]
/\ ~ In 5%nat (Editor.layers s')
/\ Editor.handleDeleteElement s' = s'.
Proof.
intros s s'. split; [reflexivity|].
assert (Hwf : Marks.wellFormed (Marks.selected 4 Sample.container)).
{ unfold Marks.wellFormed. cbn. repeat constructor; cbn; intuition lia. }
destruct (handleDeleteElement_subtree s 4 (Marks.selected 4 Sample.container)
            (Dom.Node (Dom.classListAdd Editor.marker (Dom.el Sample.group))
                      [Sample.label])
            eq_refl eq_refl Hwf)
  as (c' & l1 & l2 & _ & _ & _ & _ & Hgone & Hidem).
- cbn. tauto.
- reflexivity.
- split; [|exact Hidem].
  apply (Hgone Sample.label). cbn. tauto.
Defined.

Lemma highlight_follows_selection_witness :
Editor.clearTargets
  (Editor.handleDeleteElement
     (Editor.selectElement (Some 3%nat) Sample.editing)) = [].
Proof.
assert (Hwf : Marks.wellFormed Sample.container).
{ unfold Marks.wellFormed. cbn. repeat constructor; cbn; intuition lia. }
destruct highlight_follows_selection as (Hsel & Hsteps & Hnone).
apply Hnone; [|reflexivity].
apply (Hsteps (Editor.selectElement (Some 3%nat) Sample.editing)).
- eapply Steps.steps_next; [apply Steps.steps_refl|apply Steps.step_delete].
- apply Hsel. exact Hwf.
Defined.


(** ** Editing the text of an element *)

Section TextContent.
Import Dom Editor Marks Frames Steps.

Lemma subtrees_head (m : node) :
  map el (subtrees m) = el m :: map el (descendants m).
Proof. now destruct m. Qed.

Lemma updateNode_absent i f c :
  ~ In i (map idOf (subtrees c)) -> updateNode i f c = c.
Proof.
  induction c as [e kids IH] using node_ind'. intros Hn.
  cbn [updateNode]. cbn [subtrees map] in Hn.
  destruct (Nat.eqb_spec (nid e) i) as [E|E];
    [exfalso; apply Hn; now left|].
  f_equal.
  assert (Hk : ~ In i (map idOf (flat_map subtrees kids)))
    by (intros H; apply Hn; now right).
  clear Hn. induction IH as [|k ks Hk' _ IHks]; [reflexivity|].
  cbn [flat_map] in Hk. rewrite map_app in Hk. cbn [map]. f_equal.
  - apply Hk'. intros H. apply Hk. apply in_or_app. now left.
  - apply IHks. intros H. apply Hk. apply in_or_app. now right.
Qed.

Lemma find_app {A} (p : A -> bool) (l1 l2 : list A) :
  find p (l1 ++ l2)
  = match find p l1 with Some a => Some a | None => find p l2 end.
Proof.
  induction l1 as [|a l1 IH]; [reflexivity|]. cbn [app find].
  now destruct (p a).
Qed.

Lemma find_absent i (l : list node) :
  ~ In i (map idOf l) -> find (fun n => Nat.eqb (nid (el n)) i) l = None.
Proof.
  induction l as [|a l IH]; [reflexivity|]. cbn [map find]. intros H.
  destruct (Nat.eqb_spec (nid (el a)) i) as [E|E].
  - exfalso. apply H. now left.
  - apply IH. intros Hin. apply H. now right.
Qed.

Lemma findNode_spec i c n :
  findNode i c = Some n -> In n (subtrees c) /\ idOf n = i.
Proof.
  unfold findNode. intros H. apply find_some in H as [H1 H2].
  split; [exact H1|]. now apply Nat.eqb_eq.
Qed.

Section Replace.
Variables (i : nat) (f : node -> node) (n : node).
Hypothesis Hid : idOf n = i.
Hypothesis Hf : idOf (f n) = i.

(** Replacing a subtree: the document order splits around it, and
    the element is found again with its new content. *)
Lemma updateNode_split c :
  wellFormed c -> In n (subtrees c) ->
  (exists l1 l2,
      map el (subtrees c) = (l1 ++ map el (subtrees n) ++ l2)%list
      /\ map el (subtrees (updateNode i f c))
         = (l1 ++ map el (subtrees (f n)) ++ l2)%list)
  /\ findNode i (updateNode i f c) = Some (f n).
Proof.
  unfold wellFormed.
  induction c as [e kids IH] using node_ind'. intros Hnd Hin.
  cbn [updateNode].
  destruct (Nat.eqb_spec (nid e) i) as [E|E].
  - assert (n = Node e kids).
    { apply (NoDup_ids_eq (subtrees (Node e kids))); try assumption.
      - now left.
      - unfold idOf in *. cbn [el]. congruence. }
    subst n. split.
    + exists [], []. now rewrite !app_nil_r.
    + unfold findNode. destruct (f (Node e kids)) as [e' k'] eqn:Ef.
      cbn [subtrees find el]. unfold idOf in Hf. cbn [el] in Hf.
      now rewrite Hf, Nat.eqb_refl.
  - cbn [subtrees] in Hin. destruct Hin as [<-|Hin];
      [exfalso; apply E; exact Hid|].
    cbn [subtrees map] in Hnd. apply NoDup_cons_iff in Hnd as [_ Hnd'].
    assert (Hkids :
      (exists l1 l2,
          map el (flat_map subtrees kids)
          = (l1 ++ map el (subtrees n) ++ l2)%list
          /\ map el (flat_map subtrees (map (updateNode i f) kids))
             = (l1 ++ map el (subtrees (f n)) ++ l2)%list)
      /\ find (fun m => Nat.eqb (nid (el m)) i)
              (flat_map subtrees (map (updateNode i f) kids))
         = Some (f n)).
    { induction IH as [|k ks Hk _ IHks]; [contradiction|].
      cbn [flat_map map] in *. rewrite map_app in Hnd'.
      destruct (NoDup_app_parts _ _ Hnd') as (Hnd1 & Hnd2 & Hdis).
      rewrite find_app, !map_app.
      apply in_app_or in Hin as [Hin|Hin].
      - destruct (Hk Hnd1 Hin) as [(a & b & Ha & Hb) Hfind].
        assert (Hrest : map (updateNode i f) ks = ks).
        { assert (Hno : ~ In i (map idOf (flat_map subtrees ks))).
          { apply Hdis. rewrite <- Hid. now apply in_map. }
          clear - Hno.
          induction ks as [|k' ks' IHk]; [reflexivity|].
          cbn [flat_map] in Hno. rewrite map_app in Hno. cbn [map].
          f_equal.
          - apply updateNode_absent. intros H. apply Hno.
            apply in_or_app. now left.
          - apply IHk. intros H. apply Hno. apply in_or_app. now right. }
        unfold findNode in Hfind. rewrite Hfind, Hrest. split; [|reflexivity].
        exists a, (b ++ map el (flat_map subtrees ks))%list.
        rewrite Ha, Hb, <- !app_assoc. split; reflexivity.
      - assert (Hno : ~ In i (map idOf (subtrees k))).
        { intros H. apply (Hdis i H). rewrite <- Hid. now apply in_map. }
        rewrite (updateNode_absent i f k Hno), (find_absent i _ Hno).
        destruct (IHks Hnd2 Hin) as [(a & b & Ha & Hb) Hfind].
        split; [|exact Hfind].
        exists (map el (subtrees k) ++ a)%list, b.
        rewrite Ha, Hb, <- !app_assoc. split; reflexivity. }
    destruct Hkids as [(a & b & Ha & Hb) Hfind]. split.
    + exists (e :: a), b. cbn [subtrees map el]. rewrite Ha, Hb.
      split; reflexivity.
    + unfold findNode. cbn [subtrees find el].
      destruct (Nat.eqb_spec (nid e) i); [contradiction|]. exact Hfind.
Qed.
End Replace.

Lemma scanLayers_fields (s : state) :
  scanLayers s = setLayers (layers (scanLayers s)) s.
Proof.
  unfold scanLayers. destruct (containerRef s);
    [destruct (querySelector _ _); reflexivity|now destruct s].
Qed.

(** X20.  Typing in the text field of the properties panel.  The field is
    there for a selected [text] or [tspan] element of the document.
    After a change the field shows what was typed; in the document,
    the selected element has the typed text as its character data and
    nothing below it - the [tspan]s and whatever else it contained
    are gone - while its tag, classes, attributes and style, all the
    other elements and their order are as before.  The element stays
    selected, the transform state and the drag are untouched, and the
    layer list is that of the new document. *)
Theorem text_edit_replaces_content (value old : string) (s : state)
    (c : node) :
  containerRef s = Some c -> wellFormed c -> textField s = Some old ->
  let s' := onTextChange value s in
  textField s' = Some value
  /\ (exists c' i n l1 l2,
        selectedEl s = Some i /\ findNode i c = Some n
        /\ old = textContent n
        /\ containerRef s' = Some c' /\ wellFormed c'
        /\ map el (subtrees c) = (l1 ++ map el (subtrees n) ++ l2)%list
        /\ map el (subtrees c') = (l1 ++ [setText value (el n)] ++ l2)%list)
  /\ selectedEl s' = selectedEl s /\ transform s' = transform s
  /\ detached s' = detached s /\ isDragging s' = isDragging s
  /\ dragStartRef s' = dragStartRef s
  /\ layersFresh s'.
Proof.
  intros Hc Hwf Hfield s'. subst s'. unfold onTextChange. rewrite Hfield.
  unfold textField in Hfield. rewrite Hc in Hfield.
  destruct (selectedEl s) as [i|] eqn:Hsel; [|discriminate].
  destruct (findNode i c) as [n|] eqn:Hfind; [|discriminate].
  destruct (String.eqb (tag (el n)) "text" || String.eqb (tag (el n)) "tspan")
    eqn:Htag; [|discriminate].
  injection Hfield as <-.
  destruct (findNode_spec i c n Hfind) as [Hin Hid].
  destruct (updateNode_split i (setTextContent value) n Hid Hid c Hwf Hin)
    as [(l1 & l2 & H1 & H2) Hnew].
  rewrite Hc. cbn [option_map].
  set (c' := updateNode i (setTextContent value) c) in *.
  set (t := bumpUpdateTrigger (setContainer (Some c') s)).
  rewrite (scanLayers_fields t).
  assert (Hwf' : wellFormed c').
  { unfold wellFormed in *.
    assert (E : forall m, map idOf (subtrees m) = map nid (map el (subtrees m)))
      by (intros m; now rewrite map_map).
    rewrite E in *. rewrite H1 in Hwf. rewrite H2.
    cbn [setTextContent subtrees flat_map map app].
    rewrite subtrees_head in Hwf.
    rewrite !map_app in *. cbn [map app setText nid] in *.
    revert Hwf. apply sublist_NoDup.
    apply sublist_app; [apply sublist_refl|].
    apply sub_keep.
    rewrite <- (app_nil_l (map nid l2)) at 1.
    apply sublist_app; [apply sublist_nil_l|apply sublist_refl]. }
  split; [|split; [|repeat split]].
  - unfold textField. cbn [selectedEl containerRef setLayers t
                           bumpUpdateTrigger setContainer].
    rewrite Hsel, Hnew. cbn [setTextContent el setText tag].
    rewrite Htag. unfold setTextContent.
    cbn [textContent text setText map String.concat].
    now rewrite append_nil_r.
  - exists c', i, n, l1, l2. repeat split; try assumption; reflexivity.
  - exact Hsel.
Qed.
End TextContent.

Lemma text_edit_replaces_content_witness :
let s := Editor.setSelectedEl (Some 5) Sample.editing in
Editor.textField s = Some "hi"
/\ Editor.textField (Editor.onTextChange "hello" s) = Some "hello".
Proof.
intros s. split; [reflexivity|].
refine (proj1 (text_edit_replaces_content "hello" "hi" s Sample.container
                 eq_refl _ eq_refl)).
unfold Marks.wellFormed. cbn. repeat constructor; cbn; intuition lia.
Defined.


(** ** Where a press lands *)

Section Ancestors.
Import Dom Editor Marks Frames Steps.

Lemma pathTo_absent t c :
  ~ In t (map idOf (subtrees c)) -> pathTo t c = [].
Proof.
  induction c as [e kids IH] using node_ind'. intros Hn.
  cbn [pathTo]. cbn [subtrees map] in Hn.
  destruct (Nat.eqb_spec (nid e) t) as [E|E];
    [exfalso; apply Hn; now left|].
  assert (Hk : ~ In t (map idOf (flat_map subtrees kids)))
    by (intros H; apply Hn; now right).
  clear Hn.
  assert (H0 : fold_right (fun k rest =>
                 match pathTo t k with [] => rest | p => p end) [] kids = []).
  { induction IH as [|k ks Hk' _ IHks]; [reflexivity|].
    cbn [flat_map] in Hk. rewrite map_app in Hk. cbn [fold_right].
    rewrite Hk' by (intros H; apply Hk; apply in_or_app; now left).
    apply IHks. intros H. apply Hk. apply in_or_app. now right. }
  now rewrite H0.
Qed.

Lemma chain_in c p n : chain c p n -> In n (subtrees c).
Proof.
  induction 1 as [[e kids]|e kids k p n Hk _ IH]; [now left|].
  cbn [subtrees]. right. apply in_flat_map. eauto.
Qed.

Lemma chain_all c p n m : chain c p n -> In m p -> In m (subtrees c).
Proof.
  induction 1 as [[e kids]|e kids k p n Hk _ IH]; cbn [In].
  - intros [<-|[]]. now left.
  - intros [<-|Hm]; [now left|]. cbn [subtrees]. right.
    apply in_flat_map. eauto.
Qed.

Lemma chain_head c p n : chain c p n -> exists q, p = c :: q.
Proof. destruct 1; eauto. Qed.

Lemma chain_last c p n : chain c p n -> exists q, rev p = n :: q.
Proof.
  induction 1 as [n|e kids k p n Hk _ [q IH]]; [now exists []|].
  cbn [rev]. rewrite IH. cbn [app]. eauto.
Qed.

(** Every element of the tree is at the end of a chain from the
    root. *)
Lemma chain_exists c n : In n (subtrees c) -> exists p, chain c p n.
Proof.
  induction c as [e kids IH] using node_ind'. cbn [subtrees].
  intros [<-|Hin]; [eexists; apply chain_here|].
  apply in_flat_map in Hin as (k & Hk & Hin).
  rewrite Forall_forall in IH. destruct (IH k Hk Hin) as [p Hp].
  eexists. eapply chain_below; eauto.
Qed.

(** [pathTo] computes the chain. *)
Lemma pathTo_chain c p n :
  wellFormed c -> chain c p n -> pathTo (idOf n) c = p.
Proof.
  unfold wellFormed. intros Hwf Hch. revert Hwf.
  induction Hch as [[e kids]|e kids k p n Hk Hch IH]; intros Hwf.
  - cbn [pathTo idOf el]. now rewrite Nat.eqb_refl.
  - cbn [pathTo]. cbn [subtrees map] in Hwf.
    apply NoDup_cons_iff in Hwf as [Hnot Hnd].
    assert (Hn : In (idOf n) (map idOf (subtrees k)))
      by (apply in_map; eapply chain_in; eauto).
    destruct (Nat.eqb_spec (nid e) (idOf n)) as [E|_].
    { exfalso. apply Hnot. unfold idOf at 1. cbn [el]. rewrite E.
      apply in_map. apply in_flat_map. exists k. split; [exact Hk|].
      eapply chain_in; eauto. }
    assert (Hp : p <> []) by (destruct (chain_head _ _ _ Hch) as [q ->]; discriminate).
    assert (H0 : fold_right (fun k rest =>
                   match pathTo (idOf n) k with [] => rest | p => p end)
                   [] kids = p).
    { clear Hnot. induction kids as [|k' ks IHks]; [contradiction|].
      cbn [flat_map] in Hnd. rewrite map_app in Hnd.
      destruct (NoDup_app_parts _ _ Hnd) as (Hnd1 & Hnd2 & Hdis).
      cbn [fold_right]. destruct Hk as [->|Hk].
      - rewrite (IH Hnd1). destruct p; [contradiction|reflexivity].
      - rewrite pathTo_absent; [now apply IHks|].
        intros H. apply (Hdis _ H). apply in_map. apply in_flat_map.
        exists k. split; [exact Hk|]. eapply chain_in; eauto. }
    rewrite H0. destruct p; [contradiction|reflexivity].
Qed.

Lemma shape_not_svg (m : node) :
  matches (SelTags shapeTags) m = true -> String.eqb (tag (el m)) "svg" = false.
Proof.
  cbn [matches shapeTags existsb]. intros H.
  repeat (apply orb_true_iff in H as [H|H];
          [apply String.eqb_eq in H; now rewrite H|]).
  discriminate.
Qed.

Lemma contains_in c m : In m (subtrees c) -> contains c (nid (el m)) = true.
Proof.
  intros H. unfold contains. apply existsb_exists. exists m.
  split; [exact H|apply Nat.eqb_refl].
Qed.

(** X21.  Where a press lands.  For a press on an element [n] of the
    document, take the chain of elements from the container down to
    [n].  The listener acts as [handleMouseDown] does on the nearest
    element of that chain, from [n] upwards, that has one of the nine
    shape tags - [n] itself when it is a shape - or on no element when
    the chain has no shape; the press counts as inside the container.
    The two further tests of the listener, that the container contains
    the element found and that it is not the [svg] root, never fail. *)
Theorem press_hits_nearest_shape (s : state) (c n : node)
    (clientX clientY : Q) :
  containerRef s = Some c -> wellFormed c ->
  hasClass "svg-container" (el c) = true ->
  In n (subtrees c) ->
  exists p,
    chain c p n
    /\ onMouseDown (idOf n) clientX clientY s
       = handleMouseDown
           (option_map idOf (find (matches (SelTags shapeTags)) (rev p)))
           true clientX clientY s
    /\ (matches (SelTags shapeTags) n = true ->
        onMouseDown (idOf n) clientX clientY s
        = handleMouseDown (Some (idOf n)) true clientX clientY s).
Proof.
  intros Hc Hwf Hcls Hin.
  destruct (chain_exists c n Hin) as [p Hp]. exists p.
  split; [exact Hp|].
  assert (Hmain : onMouseDown (idOf n) clientX clientY s
       = handleMouseDown
           (option_map idOf (find (matches (SelTags shapeTags)) (rev p)))
           true clientX clientY s).
  { unfold onMouseDown, closest. rewrite Hc, (pathTo_chain c p n Hwf Hp).
    assert (Hbox : find (matches (SelClass "svg-container")) (rev p) <> None).
    { destruct (chain_head _ _ _ Hp) as [q ->].
      intros Hnone.
      assert (Hf : matches (SelClass "svg-container") c = false).
      { apply (find_none _ _ Hnone c). apply in_rev.
        rewrite rev_involutive. now left. }
      cbn [matches] in Hf. congruence. }
    destruct (find (matches (SelClass "svg-container")) (rev p));
      [|contradiction].
    destruct (find (matches (SelTags shapeTags)) (rev p)) as [m|] eqn:Hm;
      [|reflexivity].
    apply find_some in Hm as [Hm1 Hm2].
    rewrite contains_in, (shape_not_svg m Hm2); [reflexivity|].
    apply (chain_all c p n m Hp). now apply in_rev. }
  split; [exact Hmain|].
  intros Hshape. rewrite Hmain.
  destruct (chain_last _ _ _ Hp) as [q ->]. cbn [find]. now rewrite Hshape.
Qed.
End Ancestors.

Lemma press_hits_nearest_shape_witness :
Editor.onMouseDown 5 0 0 Sample.editing
= Editor.handleMouseDown (Some 5%nat) true 0 0 Sample.editing.
Proof.
assert (Hwf : Marks.wellFormed Sample.container).
{ unfold Marks.wellFormed. cbn. repeat constructor; cbn; intuition lia. }
destruct (press_hits_nearest_shape Sample.editing Sample.container
            Sample.label 0 0 eq_refl Hwf eq_refl)
  as (p & _ & _ & H).
- cbn. tauto.
- exact (H eq_refl).
Defined.


(** ** Saving, and requests that succeed *)

Section Saving.
Import Dom Marks.

(** X15.  Saving from the editor, with [handleSave] and [setView('home')]
    as the props: when the container holds an svg root, [Save
    Changes] and [Back to Home] both store the serialised document as
    the content of the current artifact and leave its id, prompt and
    timestamp alone; [Back to Home] also returns to the home view,
    where the preview then shows the stored content if the status is
    [SUCCESS].  Without an svg root nothing is stored, and [Back to
    Home] only changes the view. *)
Theorem save_stores_document (ed : Editor.state) (a : App.state) :
  let saved := snd (Editor.handleManualSave App.handleSave ed a) in
  let back := snd (Editor.handleBackWithSave App.handleSave
                     (App.setView App.home) ed a) in
  back = App.setView App.home saved
  /\ (match Editor.containerRef ed with
      | Some c => querySelector (SelTags ["svg"]) c = None
      | None => True
      end -> saved = a)
  /\ (forall c svg cur,
        Editor.containerRef ed = Some c ->
        querySelector (SelTags ["svg"]) c = Some svg ->
        App.currentSvg a = Some cur ->
        let content := serializeToString (stripAll (markedIds svg) svg) in
        let stored := App.mkSvg (App.id cur) content (App.prompt cur)
                                (App.timestamp cur) in
        saved = App.mkState (App.status a) (Some stored) (App.error a)
                            (App.isRefining a) (App.view a)
        /\ (App.status a = App.SUCCESS ->
            App.previewData back = Some stored)
        /\ App.handleSave content saved = saved).
Proof.
  intros saved back. subst saved back.
  unfold Editor.handleManualSave, Editor.handleBackWithSave.
  split; [|split].
  - destruct (Editor.getSvgContent ed) as [t s1].
    now destruct (String.eqb t "").
  - intros Hno. now rewrite (getSvgContent_none ed Hno).
  - intros c svg cur Hc Hq Hcur. cbv zeta.
    destruct (getSvgContent_clone ed c svg Hc Hq) as [Ht _].
    destruct (Editor.getSvgContent ed) as [t s1]. cbn [fst] in Ht. subst t.
    rewrite serializeToString_nonempty. cbn [snd].
    unfold App.handleSave. rewrite Hcur.
    split; [reflexivity|]. split.
    + intros Hst. unfold App.previewData. cbn. now rewrite Hst.
    + reflexivity.
Qed.
End Saving.

Lemma save_stores_document_witness :
let cur := App.mkSvg "id0" "<svg></svg>" "a red circle" 0 in
let a := App.mkState App.SUCCESS (Some cur) None false App.editor in
let back := snd (Editor.handleBackWithSave App.handleSave
                   (App.setView App.home) Sample.editing a) in
App.view back = App.home
/\ option_map App.id (App.previewData back) = Some "id0"
/\ option_map App.content (App.previewData back)
   = Some (fst (Editor.getSvgContent Sample.editing)).
Proof.
intros cur a back.
destruct (save_stores_document Sample.editing a) as (Hb & _ & H).
destruct (H Sample.container Sample.svg cur eq_refl eq_refl eq_refl)
  as (_ & Hp & _).
split; [reflexivity|].
fold back in Hp. rewrite (Hp eq_refl). split; reflexivity.
Defined.

Section Successes.
Import App.
Variables (promptText currentContent instruction markup uuid : string)
          (now : Z).

(** X16.  A generation that succeeds ends on the home view with the new
    artifact (the markup received, the prompt, the id and time drawn
    for it) in the preview and no error banner, whatever the state
    was before.  A refinement that succeeds replaces the artifact by
    one whose content is the markup received and whose prompt is the
    instruction, stays on the view it was started from, lowers the
    busy flag and shows no error banner.  A refinement asked for
    without an artifact does nothing at all. *)
Theorem request_success_replaces (s : state) :
  (let s' := handleGenerate promptText (Resolved markup) uuid now s in
   let new := mkSvg uuid markup promptText now in
   currentSvg s' = Some new /\ status s' = SUCCESS /\ view s' = home
   /\ previewData s' = Some new /\ errorBanner s' = None
   /\ isRefining s' = isRefining s)
  /\ (forall cur,
        currentSvg s = Some cur ->
        let s' := handleRefine currentContent instruction (Resolved markup)
                    uuid now s in
        let new := mkSvg uuid markup instruction now in
        currentSvg s' = Some new /\ status s' = SUCCESS
        /\ view s' = view s /\ errorBanner s' = None
        /\ isRefining s' = false
        /\ (view s = editor -> editorData s' = Some new))
  /\ (currentSvg s = None ->
      forall r, handleRefine currentContent instruction r uuid now s = s).
Proof.
  split; [|split].
  - now repeat split.
  - intros cur Hc. unfold handleRefine. rewrite Hc. cbn.
    repeat split.
    + unfold errorBanner. cbn. now destruct (view s).
    + unfold editorData. cbn. now intros ->.
  - intros Hc r. unfold handleRefine. now rewrite Hc.
Qed.
End Successes.

Lemma request_success_replaces_witness :
let cur := App.mkSvg "id0" "<svg></svg>" "a red circle" 0 in
let err := App.mkError "Refinement Failed" "Could not refine the SVG." in
let s := App.mkState App.SUCCESS (Some cur) (Some err) false App.editor in
let s' := App.handleRefine "<svg></svg>" "bluer" (App.Resolved "<svg/>")
            "id1" 5 s in
App.editorData s' = Some (App.mkSvg "id1" "<svg/>" "bluer" 5)
/\ App.errorBanner s' = None.
Proof.
intros cur err s s'.
destruct (proj1 (proj2 (request_success_replaces "p" "<svg></svg>" "bluer"
                          "<svg/>" "id1" 5 s)) cur eq_refl)
  as (_ & _ & _ & Hb & _ & He).
split; [exact (He eq_refl)|exact Hb].
Defined.


(** ** Sessions *)

Section Sessions.
Import Session.

Lemma handleManualSave_cases {A} (onSave : string -> A -> A)
    (ed : Editor.state) (p : A) :
  snd (Editor.handleManualSave onSave ed p) = p
  \/ exists content, snd (Editor.handleManualSave onSave ed p) = onSave content p.
Proof.
  unfold Editor.handleManualSave. destruct (Editor.getSvgContent ed) as [t s1].
  destruct (String.eqb t ""); [now left|right; now exists t].
Qed.

Lemma handleBackWithSave_cases {A} (onSave : string -> A -> A)
    (onBack : A -> A) (ed : Editor.state) (p : A) :
  snd (Editor.handleBackWithSave onSave onBack ed p) = onBack p
  \/ exists content,
       snd (Editor.handleBackWithSave onSave onBack ed p)
       = onBack (onSave content p).
Proof.
  unfold Editor.handleBackWithSave.
  destruct (Editor.getSvgContent ed) as [t s1].
  destruct (String.eqb t ""); [now left|right; now exists t].
Qed.

Lemma handleRefineSubmit_cases {A} (onRefine : string -> string -> A -> A)
    (prompt : string) (busy : bool) (ed : Editor.state) (p : A) :
  snd (Editor.handleRefineSubmit onRefine prompt busy ed p) = p
  \/ (busy = false /\ String.eqb (trim prompt) "" = false
      /\ exists content,
           snd (Editor.handleRefineSubmit onRefine prompt busy ed p)
           = onRefine content prompt p).
Proof.
  unfold Editor.handleRefineSubmit.
  destruct (String.eqb (trim prompt) ""); [now left|].
  destruct busy; [now left|]. cbn [orb].
  destruct (Editor.getSvgContent ed) as [t s1].
  destruct (String.eqb t ""); [now left|].
  right. split; [reflexivity|]. split; [reflexivity|]. now exists t.
Qed.

Lemma editorShown_spec (s : state) :
  editorShown s = true
  <-> App.view (app s) = App.editor /\ App.currentSvg (app s) <> None.
Proof.
  unfold editorShown, App.editorData.
  destruct (App.view (app s)), (App.currentSvg (app s));
    split; try discriminate; try (intros [? ?]; congruence);
    intros _; split; congruence.
Qed.

Lemma artifact_kept (s s' : state) :
  (App.view (app s') = App.view (app s) \/ App.view (app s') = App.home) ->
  (App.status (app s') = App.SUCCESS ->
   App.status (app s) = App.SUCCESS) ->
  (App.currentSvg (app s) <> None -> App.currentSvg (app s') <> None) ->
  ((App.view (app s) = App.editor -> editorShown s = true)
   /\ (App.status (app s) = App.SUCCESS -> App.currentSvg (app s) <> None)) ->
  (App.view (app s') = App.editor -> editorShown s' = true)
  /\ (App.status (app s') = App.SUCCESS -> App.currentSvg (app s') <> None).
Proof.
  intros Hv Hst Hc [I1 I2]. split.
  - intros Hv'. apply editorShown_spec. split; [exact Hv'|].
    destruct Hv as [Hv|Hv]; [|congruence].
    apply Hc. rewrite Hv in Hv'. now apply editorShown_spec, I1.
  - intros Hs'. apply Hc, I2, Hst, Hs'.
Qed.

Lemma onSave_frame (t : string) (s : state) :
  App.view (app (onSave t s)) = App.view (app s)
  /\ App.status (app (onSave t s)) = App.status (app s)
  /\ (App.currentSvg (app s) <> None ->
      App.currentSvg (app (onSave t s)) <> None)
  /\ App.isRefining (app (onSave t s)) = App.isRefining (app s)
  /\ pendingRefine (onSave t s) = pendingRefine s.
Proof.
  unfold onSave, App.handleSave. cbn.
  destruct (App.currentSvg (app s)) eqn:Hc; cbn; rewrite ?Hc;
    repeat split; congruence.
Qed.

(** X17.  Whenever the editor view is on there is an artifact to edit, and
    whenever the status is [SUCCESS] there is an artifact to preview:
    the guards [&& currentSvg] of the render function never hide a
    view. *)
Theorem session_views_have_artifact (s : state) :
  reachable s ->
  (App.view (app s) = App.editor -> editorShown s = true)
  /\ (App.status (app s) = App.SUCCESS -> App.currentSvg (app s) <> None).
Proof.
  induction 1 as [|ev s Hr IH Hen].
  - split; discriminate.
  - destruct ev as [|p r u n| |ed|ed|p ed|i r u n]; cbn [fire enabled] in *.
    + (* Generate: on the home view *)
      destruct (App.view (app s)) eqn:Hv; [|discriminate].
      split; cbn; [rewrite Hv|]; discriminate.
    + destruct r.
      * split; cbn; [discriminate|]. intros _. discriminate.
      * apply (artifact_kept s); try exact IH; cbn; auto.
        discriminate.
    + (* the preview is shown: there is an artifact *)
      unfold App.previewData in Hen.
      split; [intros _; apply editorShown_spec; split; [reflexivity|]|].
      * cbn. destruct (App.view (app s)), (App.status (app s)),
                      (App.currentSvg (app s)); discriminate.
      * cbn. apply IH.
    + destruct (handleManualSave_cases onSave ed s) as [->|[t ->]];
        [exact IH|].
      destruct (onSave_frame t s) as (F1 & F2 & F3 & _).
      apply (artifact_kept s); auto. now rewrite F2.
    + destruct (handleBackWithSave_cases onSave onBack ed s) as [->|[t ->]].
      * apply (artifact_kept s); try exact IH; cbn; auto.
      * destruct (onSave_frame t s) as (F1 & F2 & F3 & _).
        apply (artifact_kept s); try exact IH.
        -- right. reflexivity.
        -- intros H.
           change (App.status (app (onSave t s)) = App.SUCCESS) in H.
           now rewrite F2 in H.
        -- exact F3.
    + destruct (handleRefineSubmit_cases onRefine p
                  (App.isRefining (app s)) ed s) as [->|(_ & _ & t & ->)];
        [exact IH|].
      unfold onRefine, App.handleRefineBegin.
      assert (Hcase : App.currentSvg (app s) = None
                      \/ exists g, App.currentSvg (app s) = Some g)
        by (destruct (App.currentSvg (app s)); eauto).
      destruct Hcase as [Hc|[g Hc]]; rewrite Hc; [exact IH|].
      apply (artifact_kept s); try exact IH; cbn; auto.
    + destruct r.
      * split; cbn.
        -- intros Hv. apply editorShown_spec. cbn. split; [exact Hv|].
           discriminate.
        -- intros _. discriminate.
      * apply (artifact_kept s); try exact IH; cbn; auto.
Qed.

(** X18.  At most one refinement request is in flight, and [isRefining] is
    on exactly while it is: a submission during a refinement is
    dropped, and the flag goes off when the request settles, whether
    it succeeds or fails. *)
Theorem session_one_refinement (s : state) :
  reachable s ->
  (pendingRefine s <= 1)%nat
  /\ App.isRefining (app s) = negb (Nat.eqb (pendingRefine s) 0).
Proof.
  induction 1 as [|ev s Hr [IH1 IH2] Hen].
  - split; [cbn; lia|reflexivity].
  - destruct ev as [|p r u n| |ed|ed|p ed|i r u n]; cbn [fire enabled] in *.
    + now split.
    + destruct r; now split.
    + now split.
    + destruct (handleManualSave_cases onSave ed s) as [->|[t ->]];
        [now split|].
      unfold onSave, App.handleSave. cbn.
      destruct (App.currentSvg (app s)); now split.
    + destruct (handleBackWithSave_cases onSave onBack ed s) as [->|[t ->]];
        unfold onBack, onSave, App.handleSave; cbn;
        [now split|].
      destruct (App.currentSvg (app s)); now split.
    + destruct (handleRefineSubmit_cases onRefine p
                  (App.isRefining (app s)) ed s) as [->|(Hb & _ & t & ->)];
        [now split|].
      unfold onRefine, App.handleRefineBegin.
      destruct (App.currentSvg (app s)); [|now split]. cbn.
      rewrite Hb in IH2. symmetry in IH2. apply negb_false_iff in IH2.
      apply Nat.eqb_eq in IH2. rewrite IH2. split; [lia|reflexivity].
    + apply negb_true_iff, Nat.eqb_neq in Hen.
      assert (E : pendingRefine s = 1%nat) by lia. rewrite E.
      destruct r; cbn; split; (lia || reflexivity).
Qed.
End Sessions.

Lemma session_views_have_artifact_witness :
let s1 := Session.fire Session.Generate Session.initial in
let s2 := Session.fire
            (Session.GenerateSettles "a red circle"
               (App.Resolved "<svg></svg>") "u1" 1) s1 in
let s3 := Session.fire Session.OpenEditor s2 in
Session.editorShown s3 = true.
Proof.
intros s1 s2 s3.
assert (H1 : Session.reachable s1)
  by exact (Session.reach_fire Session.Generate _ Session.reach_initial
              eq_refl).
assert (H2 : Session.reachable s2)
  by exact (Session.reach_fire
              (Session.GenerateSettles "a red circle"
                 (App.Resolved "<svg></svg>") "u1" 1) _ H1 eq_refl).
assert (H3 : Session.reachable s3)
  by exact (Session.reach_fire Session.OpenEditor _ H2 eq_refl).
apply (proj1 (session_views_have_artifact s3 H3)). reflexivity.
Defined.

Section Gate.
Import Session.

Lemma trimStart_blank (p : string) :
  trimStart p = "" <-> allChars isWhiteSpace p = true.
Proof.
  induction p as [|c p IH]; [now split|]. cbn [trimStart allChars].
  destruct (isWhiteSpace c); cbn [andb]; [exact IH|].
  split; discriminate.
Qed.

Lemma trimEnd_blank (p : string) :
  trimEnd p = "" <-> allChars isWhiteSpace p = true.
Proof.
  induction p as [|c p IH]; [now split|]. cbn [trimEnd allChars].
  destruct (isWhiteSpace c); cbn [andb].
  - destruct (String.eqb_spec (trimEnd p) "") as [E|E].
    + split; [intros _; now apply IH|reflexivity].
    + split; [discriminate|]. intros H. apply IH in H. contradiction.
  - split; discriminate.
Qed.

Lemma trimStart_head (p : string) :
  allChars isWhiteSpace (trimStart p) = true -> trimStart p = "".
Proof.
  induction p as [|c p IH]; [reflexivity|]. cbn [trimStart].
  destruct (isWhiteSpace c) eqn:E; [exact IH|].
  cbn [allChars]. now rewrite E.
Qed.

(** A prompt is blank when it consists of white space only. *)
Lemma trim_blank (p : string) :
  String.eqb (trim p) "" = allChars isWhiteSpace p.
Proof.
  unfold trim. destruct (allChars isWhiteSpace p) eqn:E.
  - apply trimStart_blank in E. now rewrite E.
  - apply String.eqb_neq. intros H. apply trimEnd_blank in H.
    apply trimStart_head, trimStart_blank in H. congruence.
Qed.

(** X19.  When the refine form sends a request: never for a prompt of white
    space only, never while a refinement is running, never without an
    svg root in the container; otherwise, with an artifact, the
    request goes out, the busy flag is raised and an error shown
    before is cleared, while the artifact, the status and the view
    stay. *)
Theorem refine_submit_gate (p : string) (ed : Editor.state) (s : state) :
  (allChars isWhiteSpace p = true -> fire (RefineSubmit p ed) s = s)
  /\ (App.isRefining (app s) = true -> fire (RefineSubmit p ed) s = s)
  /\ (match Editor.containerRef ed with
      | Some c => Dom.querySelector (Dom.SelTags ["svg"]) c = None
      | None => True
      end -> fire (RefineSubmit p ed) s = s)
  /\ (forall c svg cur,
        allChars isWhiteSpace p = false -> App.isRefining (app s) = false ->
        Editor.containerRef ed = Some c ->
        Dom.querySelector (Dom.SelTags ["svg"]) c = Some svg ->
        App.currentSvg (app s) = Some cur ->
        fire (RefineSubmit p ed) s
        = mkSession (App.mkState (App.status (app s)) (Some cur) None true
                                 (App.view (app s)))
                    (pendingGenerate s) (S (pendingRefine s))).
Proof.
  cbn [fire]. unfold Editor.handleRefineSubmit. rewrite trim_blank.
  split; [now intros ->|]. split.
  { intros ->. now rewrite orb_true_r. }
  split.
  { intros Hno. destruct (allChars isWhiteSpace p || App.isRefining (app s));
      [reflexivity|].
    unfold Editor.getSvgContent.
    destruct (Editor.containerRef ed); [|reflexivity]. now rewrite Hno. }
  intros c svg cur -> -> Hc Hq Hcur. cbn [orb].
  assert (Ht : String.eqb (fst (Editor.getSvgContent ed)) "" = false).
  { unfold Editor.getSvgContent. rewrite Hc, Hq. cbn [fst].
    destruct (nth_error _ _) eqn:E.
    - now destruct n.
    - exfalso. revert E. 
      match goal with
      | |- context [fold_left ?g ?ids ?s1] =>
          destruct (stripLoop_detached (List.length (Editor.detached ed)) ids s1)
            as (Hd & _)
      end.
      unfold Marks.unmark in Hd. rewrite Hd.
      cbn [Editor.detached Editor.setDetached].
      rewrite updateNth_last, nth_error_app2, Nat.sub_diag by lia.
      discriminate. }
  destruct (Editor.getSvgContent ed) as [t s1]. cbn [fst] in Ht.
  rewrite Ht. cbn [snd]. unfold onRefine, App.handleRefineBegin.
  rewrite Hcur. unfold App.handleRefineStart. now rewrite Hcur.
Qed.
End Gate.

Lemma session_one_refinement_witness :
let cur := App.mkSvg "id0" "<svg></svg>" "a red circle" 0 in
let s1 := Session.fire Session.Generate Session.initial in
let s2 := Session.fire
            (Session.GenerateSettles "a red circle"
               (App.Resolved "<svg></svg>") "u1" 1) s1 in
let s3 := Session.fire Session.OpenEditor s2 in
let s4 := Session.fire (Session.RefineSubmit "bluer" Sample.editing) s3 in
let s5 := Session.fire (Session.RefineSubmit "and bigger" Sample.editing) s4 in
Session.pendingRefine s4 = 1%nat
/\ (Session.pendingRefine s5 <= 1)%nat
/\ App.isRefining (Session.app s5) = true.
Proof.
intros cur s1 s2 s3 s4 s5.
assert (H1 : Session.reachable s1)
  by exact (Session.reach_fire Session.Generate _ Session.reach_initial
              eq_refl).
assert (H2 : Session.reachable s2)
  by exact (Session.reach_fire
              (Session.GenerateSettles "a red circle"
                 (App.Resolved "<svg></svg>") "u1" 1) _ H1 eq_refl).
assert (H3 : Session.reachable s3)
  by exact (Session.reach_fire Session.OpenEditor _ H2 eq_refl).
assert (H4 : Session.reachable s4)
  by exact (Session.reach_fire
              (Session.RefineSubmit "bluer" Sample.editing) _ H3 eq_refl).
assert (H5 : Session.reachable s5)
  by exact (Session.reach_fire
              (Session.RefineSubmit "and bigger" Sample.editing) _ H4
              eq_refl).
split; [reflexivity|].
destruct (session_one_refinement s5 H5) as [Hle Hflag].
split; [exact Hle|]. rewrite Hflag. reflexivity.
Defined.

Lemma refine_submit_gate_witness :
let cur := App.mkSvg "id0" "<svg></svg>" "a red circle" 0 in
let s := Session.mkSession
           (App.mkState App.SUCCESS (Some cur)
              (Some (App.mkError "Refinement Failed" "x")) false App.editor)
           0 0 in
Session.fire (Session.RefineSubmit "   " Sample.editing) s = s
/\ Session.fire (Session.RefineSubmit " bluer " Sample.editing) s
   = Session.mkSession
       (App.mkState App.SUCCESS (Some cur) None true App.editor) 0 1.
Proof.
intros cur s.
destruct (refine_submit_gate "   " Sample.editing s) as (H1 & _).
destruct (refine_submit_gate " bluer " Sample.editing s) as (_ & _ & _ & H4).
split; [exact (H1 eq_refl)|].
exact (H4 Sample.container Sample.svg cur eq_refl eq_refl eq_refl eq_refl
          eq_refl).
Defined.

